(** * A shallow embedding of the WordPress content sync scripts

    The development follows the JavaScript sources:
    - [scripts/lib/media-handler.js]: [generateFilename], [replaceMediaUrls],
      [restoreMediaUrls], [uploadAllMedia], [loadMediaMapping];
    - [scripts/lib/file-utils.js]: [safeDirName], [getContentDir],
      [listFiles], [listSubdirs];
    - [scripts/lib/api-client.js]: the [WPApiClient] methods used on import;
    - [scripts/wp-import.js]: [importExtensionMeta], [importItem] and the
      loops of [main]; [getConfig] and [validateConfig];
    - the export script, kept in the sources after the import script:
      [isEmpty], [hasMeaningfulContent], [generatePrefixesFromSlug],
      [groupOptionsByPlugin], [groupMetaByPlugin].

    JavaScript strings are modelled by [string], one character per code
    unit, for the code units below 256 (ASCII and Latin-1). *)

From Stdlib Require Import String Ascii List ZArith NArith Bool Arith Lia.
From Stdlib Require Import DecimalString.
From Stdlib Require Import Permutation Sorted.
Import ListNotations.
Open Scope string_scope.
Set Warnings "-register-all".

(** ** JavaScript values and strings *)

Module JS.

(** The values that [JSON.parse] produces, plus [undefined]. Numbers are the
    integers that a JavaScript number holds exactly and prints digit by
    digit (up to [2^53] in magnitude); none of the modelled code does
    arithmetic on a metadata value. *)
Inductive JsValue : Type :=
| JNull
| JUndefined
| JBool (b : bool)
| JNum (n : Z)
| JStr (s : string)
| JArr (items : list JsValue)
| JObj (props : list (string * JsValue)).

(** A plain object, as [Object.entries] lists it. *)
Definition JsObject := list (string * JsValue).

(** [ToBoolean]. *)
Definition truthy (v : JsValue) : bool :=
  match v with
  | JNull | JUndefined => false
  | JBool b => b
  | JNum n => negb (Z.eqb n 0)
  | JStr s => negb (String.eqb s "")
  | JArr _ | JObj _ => true
  end.

(** [a || b]. *)
Definition js_or (a b : JsValue) : JsValue := if truthy a then a else b.

Section Alist.
Context {V : Type}.

(** [obj[k]] / [map.get(k)]. *)
Fixpoint alist_get (k : string) (l : list (string * V)) : option V :=
  match l with
  | [] => None
  | (k', v) :: t => if String.eqb k k' then Some v else alist_get k t
  end.

(** [k in obj] / [map.has(k)]. *)
Definition alist_has (k : string) (l : list (string * V)) : bool :=
  match alist_get k l with Some _ => true | None => false end.

(** [map.set(k, v)], and [obj[k] = v] for a key other than [__proto__]: an
    existing key keeps its place. *)
Fixpoint alist_set (k : string) (v : V) (l : list (string * V))
  : list (string * V) :=
  match l with
  | [] => [(k, v)]
  | (k', v') :: t =>
      if String.eqb k k' then (k, v) :: t else (k', v') :: alist_set k v t
  end.

(** In-place change of the value stored under [k] (mutation of the object
    that [map.get(k)] returns). *)
Fixpoint alist_update (k : string) (f : V -> V) (l : list (string * V))
  : list (string * V) :=
  match l with
  | [] => []
  | (k', v') :: t =>
      if String.eqb k k' then (k', f v') :: t
      else (k', v') :: alist_update k f t
  end.

(** [Object.keys]. *)
Definition keys (l : list (string * V)) : list string := map fst l.

(** [Object.values]. *)
Definition values (l : list (string * V)) : list V := map snd l.

(** [obj[k] = v] on a plain object: one made by an object literal, which
    inherits from [Object.prototype] and has no property [__proto__] of its
    own. For the key [__proto__] the assignment runs the setter that
    [Object.prototype] has under that name: it changes the prototype of the
    object, or does nothing, and the object gets no property. *)
Definition obj_set (k : string) (v : V) (l : list (string * V))
  : list (string * V) :=
  if String.eqb k "__proto__" then l else alist_set k v l.

(** [Object.assign(target, source)] on a plain target: each entry of the
    source is assigned as by [target[k] = v]. (An entry [__proto__] may
    replace the prototype of the target; the model does not follow what a
    second such entry then does.) *)
Definition Object_assign (target source : list (string * V))
  : list (string * V) :=
  fold_left (fun acc kv => obj_set (fst kv) (snd kv) acc) source target.
End Alist.

(** A [Set] of strings: [has] and [add]. *)
Definition set_has (k : string) (s : list string) : bool :=
  existsb (String.eqb k) s.

Definition set_add (k : string) (s : list string) : list string :=
  if set_has k s then s else s ++ [k].

(** [arr.includes(k)] on an array of strings. *)
Definition includes (l : list string) (k : string) : bool :=
  existsb (String.eqb k) l.

(** [key.startsWith(p)]. *)
Definition startsWith (key p : string) : bool := String.prefix p key.

(** [s.includes(c)] for a one-character needle. *)
Fixpoint includesChar (s : string) (c : ascii) : bool :=
  match s with
  | EmptyString => false
  | String a t => Ascii.eqb a c || includesChar t c
  end.

Definition code (c : ascii) : nat := nat_of_ascii c.

Definition inRange (lo hi : nat) (c : ascii) : bool :=
  ((lo <=? code c) && (code c <=? hi))%nat.

Definition isUpper : ascii -> bool := inRange 65 90.
Definition isLower : ascii -> bool := inRange 97 122.
Definition isDigit : ascii -> bool := inRange 48 57.

(** The class [[a-z0-9]] under the [i] flag. *)
Definition isAlnum (c : ascii) : bool := isUpper c || isLower c || isDigit c.

(** The capital letters of Latin-1: U+00C0 to U+00DE but the
    multiplication sign U+00D7. *)
Definition isLatinUpper (c : ascii) : bool :=
  inRange 192 222 c && negb (Nat.eqb (code c) 215).

(** The lower-case form of a code unit below 256. *)
Definition lowerChar (c : ascii) : ascii :=
  if isUpper c || isLatinUpper c then ascii_of_nat (code c + 32) else c.

(** [s.toLowerCase()]. Under the [i] flag of a regular expression whose
    letters are ASCII, a text matches as its lower-case form does: a
    character outside ASCII is not the lower-case form of an ASCII one. *)
Fixpoint toLowerCase (s : string) : string :=
  match s with
  | EmptyString => EmptyString
  | String c t => String (lowerChar c) (toLowerCase t)
  end.

(** [s.replace(/x/g, y)] for single characters [x] and [y]. *)
Fixpoint replaceChar (x y : ascii) (s : string) : string :=
  match s with
  | EmptyString => EmptyString
  | String c t => String (if Ascii.eqb c x then y else c) (replaceChar x y t)
  end.

(** The longest prefix of [s] made of characters satisfying [p], and the
    rest: how a greedy [[...]+] consumes its input. *)
Fixpoint span (p : ascii -> bool) (s : string) : string * string :=
  match s with
  | EmptyString => (EmptyString, EmptyString)
  | String c t =>
      if p c then let (a, b) := span p t in (String c a, b)
      else (EmptyString, s)
  end.

End JS.
(** ** [crypto.createHash('md5')] *)

Module MD5.
Local Open Scope N_scope.

(** 32-bit words are numbers below [2^32]; every operation wraps. *)
Definition mask32 : N := 0xFFFFFFFF.

Definition add32 (a b : N) : N := N.land (a + b) mask32.

Definition not32 (a : N) : N := N.lxor a mask32.

Definition rotl32 (x c : N) : N :=
  N.land (N.lor (N.shiftl x c) (N.shiftr x (32 - c))) mask32.

(** [floor(2^32 * abs(sin(i + 1)))]. *)
Definition K : list N :=
  [0xd76aa478; 0xe8c7b756; 0x242070db; 0xc1bdceee;
   0xf57c0faf; 0x4787c62a; 0xa8304613; 0xfd469501;
   0x698098d8; 0x8b44f7af; 0xffff5bb1; 0x895cd7be;
   0x6b901122; 0xfd987193; 0xa679438e; 0x49b40821;
   0xf61e2562; 0xc040b340; 0x265e5a51; 0xe9b6c7aa;
   0xd62f105d; 0x02441453; 0xd8a1e681; 0xe7d3fbc8;
   0x21e1cde6; 0xc33707d6; 0xf4d50d87; 0x455a14ed;
   0xa9e3e905; 0xfcefa3f8; 0x676f02d9; 0x8d2a4c8a;
   0xfffa3942; 0x8771f681; 0x6d9d6122; 0xfde5380c;
   0xa4beea44; 0x4bdecfa9; 0xf6bb4b60; 0xbebfbc70;
   0x289b7ec6; 0xeaa127fa; 0xd4ef3085; 0x04881d05;
   0xd9d4d039; 0xe6db99e5; 0x1fa27cf8; 0xc4ac5665;
   0xf4292244; 0x432aff97; 0xab9423a7; 0xfc93a039;
   0x655b59c3; 0x8f0ccc92; 0xffeff47d; 0x85845dd1;
   0x6fa87e4f; 0xfe2ce6e0; 0xa3014314; 0x4e0811a1;
   0xf7537e82; 0xbd3af235; 0x2ad7d2bb; 0xeb86d391].

(** The per-round rotation amounts. *)
Definition R : list N :=
  [7; 12; 17; 22; 7; 12; 17; 22; 7; 12; 17; 22; 7; 12; 17; 22;
   5; 9; 14; 20; 5; 9; 14; 20; 5; 9; 14; 20; 5; 9; 14; 20;
   4; 11; 16; 23; 4; 11; 16; 23; 4; 11; 16; 23; 4; 11; 16; 23;
   6; 10; 15; 21; 6; 10; 15; 21; 6; 10; 15; 21; 6; 10; 15; 21].

Record State : Type := mkState { sA : N; sB : N; sC : N; sD : N }.

Definition init : State :=
  mkState 0x67452301 0xefcdab89 0x98badcfe 0x10325476.

(** The sixteen little-endian words of a 64-byte block. *)
Fixpoint words (n : nat) (block : list N) : list N :=
  match n with
  | O => []
  | S n' =>
      match block with
      | b0 :: b1 :: b2 :: b3 :: rest =>
          (b0 + N.shiftl b1 8 + N.shiftl b2 16 + N.shiftl b3 24)
            :: words n' rest
      | _ => 0 :: words n' []
      end
  end.

(** One of the 64 operations. *)
Definition step (m : list N) (st : State) (i : N) : State :=
  let '(mkState a b c d) := st in
  let '(f, g) :=
    if i <? 16 then (N.lor (N.land b c) (N.land (not32 b) d), i)
    else if i <? 32 then
      (N.lor (N.land d b) (N.land (not32 d) c), (5 * i + 1) mod 16)
    else if i <? 48 then (N.lxor b (N.lxor c d), (3 * i + 5) mod 16)
    else (N.lxor c (N.lor b (not32 d)), (7 * i) mod 16) in
  let f' := add32 (add32 (add32 f a) (nth (N.to_nat i) K 0))
                  (nth (N.to_nat g) m 0) in
  mkState d (add32 b (rotl32 f' (nth (N.to_nat i) R 0))) b c.

Definition rounds : list N := map N.of_nat (seq 0 64).

(** The compression of one block into the state. *)
Definition compress (st : State) (block : list N) : State :=
  let m := words 16 block in
  let st' := fold_left (step m) rounds st in
  mkState (add32 (sA st) (sA st')) (add32 (sB st) (sB st'))
          (add32 (sC st) (sC st')) (add32 (sD st) (sD st')).

(** The message is consumed byte by byte; a full 64-byte buffer is
    compressed. The buffer is kept in reverse. *)
Record Stream : Type := mkStream {
  state : State;
  buffer : list N;
  buffered : nat
}.

Definition feed (s : Stream) (byte : N) : Stream :=
  match buffered s with
  | 63%nat => mkStream (compress (state s) (rev (byte :: buffer s))) [] 0
  | n => mkStream (state s) (byte :: buffer s) (S n)
  end.

(** The bytes of a 64-bit length, little-endian. *)
Definition lengthBytes (bits : N) : list N :=
  map (fun k => N.land (N.shiftr bits (8 * N.of_nat k)) 255) (seq 0 8).

(** The padding: [0x80], zeros up to 56 modulo 64, then the bit length. *)
Definition padding (len : nat) : list N :=
  let r := (len mod 64)%nat in
  let zeros := (if (r <? 56)%nat then 55 - r else 119 - r)%nat in
  128 :: repeat 0 zeros ++ lengthBytes (8 * N.of_nat len).

Definition digestState (message : list N) : State :=
  state (fold_left feed (message ++ padding (List.length message))
                   (mkStream init [] 0)).

Definition wordBytes (w : N) : list N :=
  [N.land w 255; N.land (N.shiftr w 8) 255; N.land (N.shiftr w 16) 255;
   N.land (N.shiftr w 24) 255].

(** The sixteen bytes of the digest. *)
Definition digest (message : list N) : list N :=
  let st := digestState message in
  wordBytes (sA st) ++ wordBytes (sB st) ++ wordBytes (sC st)
            ++ wordBytes (sD st).

Definition hexDigit (n : N) : ascii :=
  if n <? 10 then ascii_of_N (48 + n) else ascii_of_N (87 + n).

Definition hexByte (b : N) : string :=
  String (hexDigit (b / 16)) (String (hexDigit (b mod 16)) EmptyString).

(** [digest('hex')]. *)
Fixpoint hex (bytes : list N) : string :=
  match bytes with
  | [] => EmptyString
  | b :: t => (hexByte b ++ hex t)%string
  end.

(** The UTF-8 bytes of a string of code units below 256. *)
Fixpoint utf8 (s : string) : list N :=
  match s with
  | EmptyString => []
  | String c t =>
      let n := N_of_ascii c in
      if n <? 128 then n :: utf8 t
      else N.lor 192 (N.shiftr n 6) :: N.lor 128 (N.land n 63) :: utf8 t
  end.

(** [createHash('md5').update(s).digest('hex')]. *)
Definition md5Hex (s : string) : string := hex (digest (utf8 s)).

End MD5.
(** ** Node's [path] module (POSIX) *)

Module Path.
Import JS.

Definition chars : string -> list ascii := list_ascii_of_string.
Definition str : list ascii -> string := string_of_list_ascii.

Definition isSlash (c : ascii) : bool := Ascii.eqb c "/".
Definition isDot (c : ascii) : bool := Ascii.eqb c ".".

Fixpoint dropWhile (p : ascii -> bool) (l : list ascii) : list ascii :=
  match l with
  | [] => []
  | c :: t => if p c then dropWhile p t else l
  end.

Fixpoint takeWhile (p : ascii -> bool) (l : list ascii) : list ascii :=
  match l with
  | [] => []
  | c :: t => if p c then c :: takeWhile p t else []
  end.

(** [basename(path)]: trailing slashes are ignored, and the result is what
    follows the last remaining slash. *)
Definition basename (path : string) : string :=
  let trimmed := dropWhile isSlash (rev (chars path)) in
  str (rev (takeWhile (fun c => negb (isSlash c)) trimmed)).

(** [extname(path)]: from the last dot of the last component to its end;
    empty when there is no dot, when the only dot is the component's first
    character, and for the component [..]. *)
Definition extname (path : string) : string :=
  let component := rev (chars (basename path)) in
  let afterDot := takeWhile (fun c => negb (isDot c)) component in
  match dropWhile (fun c => negb (isDot c)) component with
  | [] => EmptyString
  | _ :: [] => EmptyString
  | dot :: _ =>
      if String.eqb (basename path) ".." then EmptyString
      else str (dot :: rev afterDot)
  end.

(** [path.split('/')]. *)
Fixpoint segmentsOf (path : string) : list string :=
  match path with
  | EmptyString => [EmptyString]
  | String c t =>
      if isSlash c then EmptyString :: segmentsOf t
      else match segmentsOf t with
           | segment :: rest => String c segment :: rest
           | [] => [String c EmptyString]
           end
  end.

(** [segments.join('/')]. *)
Fixpoint slashed (segments : list string) : string :=
  match segments with
  | [] => EmptyString
  | [s] => s
  | s :: rest => s ++ "/" ++ slashed rest
  end.

(** One segment of [normalizeString], on the segments kept so far, the
    last one first: an empty segment and [.] are passed over, [..] takes
    the last segment back, or stays when there is none to take and the
    path is relative. *)
Definition normalizeSegment (allowAboveRoot : bool) (kept : list string)
                            (segment : string) : list string :=
  if String.eqb segment "" || String.eqb segment "." then kept
  else if String.eqb segment ".." then
    match kept with
    | last :: before =>
        if String.eqb last ".." then
          if allowAboveRoot then ".." :: kept else kept
        else before
    | [] => if allowAboveRoot then [".."] else []
    end
  else segment :: kept.

(** [normalize(path)]. *)
Definition normalize (path : string) : string :=
  if String.eqb path "" then "."
  else
    let isAbsolute := String.prefix "/" path in
    let trailingSeparator :=
      match rev (chars path) with
      | c :: _ => isSlash c
      | [] => false
      end in
    let kept := fold_left (normalizeSegment (negb isAbsolute))
                          (segmentsOf path) [] in
    match kept with
    | [] => if isAbsolute then "/" else if trailingSeparator then "./" else "."
    | _ =>
        (if isAbsolute then "/" else "") ++ slashed (rev kept)
        ++ (if trailingSeparator then "/" else "")
    end.

(** [join(a, b, ...)]: the non-empty arguments, separated by slashes, and
    normalized; [.] when there is none. *)
Definition join (paths : list string) : string :=
  match filter (fun p => negb (String.eqb p "")) paths with
  | [] => "."
  | parts => normalize (slashed parts)
  end.

End Path.

(** ** Occurrences of one string in another *)

Module Text.

(** [s.includes(needle)]. *)
Fixpoint occursIn (needle s : string) : bool :=
  String.prefix needle s ||
  match s with
  | EmptyString => false
  | String _ t => occursIn needle t
  end.

Fixpoint removeLast (s : string) : string :=
  match s with
  | EmptyString => EmptyString
  | String c t =>
      match t with
      | EmptyString => EmptyString
      | _ => String c (removeLast t)
      end
  end.

(** [pieces.join(sep)]. *)
Fixpoint joinWith (sep : string) (pieces : list string) : string :=
  match pieces with
  | [] => EmptyString
  | a :: rest =>
      match rest with
      | [] => a
      | _ => a ++ sep ++ joinWith sep rest
      end
  end.

(** The pieces of a text cut at the occurrences [sep] of a [needle] that a
    scan from the left finds: no occurrence of the needle starts inside a
    piece (not even one that runs into the separator that follows), and
    none is in the last piece. *)
Fixpoint wellSplit (needle sep : string) (pieces : list string) : Prop :=
  match pieces with
  | [] => True
  | a :: rest =>
      match rest with
      | [] => occursIn needle a = false
      | _ => occursIn needle (a ++ removeLast sep) = false /\
             wellSplit needle sep rest
      end
  end.

(** A text without [$]. *)
Fixpoint dollarFree (s : string) : bool :=
  match s with
  | EmptyString => true
  | String c t => negb (Ascii.eqb c "$") && dollarFree t
  end.

End Text.

(** ** Regular expressions, as far as the sources build them

    The patterns built at run time are sequences of characters, escaped or
    not, one of them optional. [parsePattern] reads the source text of such
    a pattern; it gives [None] on any other pattern text. *)

Module RegExp.
Import JS.

Inductive Atom : Type :=
| Lit (c : ascii)
| Opt (c : ascii).

(** [SyntaxCharacter]: one of [^$\.*+?()[]{}|]. *)
Definition isSyntaxChar (c : ascii) : bool :=
  includesChar "^$\.*+?()[]{}|" c.

Fixpoint parsePattern (p : string) : option (list Atom) :=
  match p with
  | EmptyString => Some []
  | String c rest =>
      if Ascii.eqb c "\" then
        match rest with
        | EmptyString => None
        | String e rest' =>
            if isSyntaxChar e || Ascii.eqb e "/" then
              match rest' with
              | String "?" rest'' =>
                  option_map (cons (Opt e)) (parsePattern rest'')
              | _ => option_map (cons (Lit e)) (parsePattern rest')
              end
            else None
        end
      else if isSyntaxChar c then None
      else
        match rest with
        | String "?" rest' => option_map (cons (Opt c)) (parsePattern rest')
        | _ => option_map (cons (Lit c)) (parsePattern rest)
        end
  end.

(** The length of the match of the pattern at the start of [s], by
    backtracking; an optional atom is greedy. *)
Fixpoint matchHere (r : list Atom) (s : string) : option nat :=
  match r with
  | [] => Some 0
  | Lit c :: r' =>
      match s with
      | String a t =>
          if Ascii.eqb a c then option_map S (matchHere r' t) else None
      | EmptyString => None
      end
  | Opt c :: r' =>
      let taken :=
        match s with
        | String a t =>
            if Ascii.eqb a c then option_map S (matchHere r' t) else None
        | EmptyString => None
        end in
      match taken with
      | Some n => Some n
      | None => matchHere r' s
      end
  end.

(** [GetSubstitution] for a pattern without capture groups: [$$], [$&],
    [$`] and [$'] are expanded in the replacement text, every other
    character stands for itself. *)
Fixpoint GetSubstitution (matched before after template : string) : string :=
  match template with
  | EmptyString => EmptyString
  | String c rest =>
      if Ascii.eqb c "$" then
        match rest with
        | String d rest' =>
            if Ascii.eqb d "$" then
              String "$" (GetSubstitution matched before after rest')
            else if Ascii.eqb d "&" then
              matched ++ GetSubstitution matched before after rest'
            else if Ascii.eqb d "`" then
              before ++ GetSubstitution matched before after rest'
            else if Ascii.eqb d "'" then
              after ++ GetSubstitution matched before after rest'
            else String c (GetSubstitution matched before after rest)
        | EmptyString => String c EmptyString
        end
      else String c (GetSubstitution matched before after rest)
  end.

(** [str.replace(re, template)] for a global [re]: the scan goes from left
    to right; [before] is the text already passed and [skip] the number of
    characters of the current match still to pass. After an empty match the
    scan moves on by one character. *)
Fixpoint replaceFrom (re : list Atom) (template : string)
                     (before : string) (skip : nat) (s : string) : string :=
  match skip with
  | S k =>
      match s with
      | EmptyString => EmptyString
      | String a t =>
          replaceFrom re template (before ++ String a EmptyString) k t
      end
  | O =>
      match matchHere re s with
      | Some n =>
          let out := GetSubstitution (substring 0 n s) before
                       (substring n (String.length s - n) s) template in
          match s with
          | EmptyString => out
          | String a t =>
              match n with
              | O => out ++ String a (replaceFrom re template
                                       (before ++ String a EmptyString) 0 t)
              | S k => out ++ replaceFrom re template
                                (before ++ String a EmptyString) k t
              end
          end
      | None =>
          match s with
          | EmptyString => EmptyString
          | String a t =>
              String a (replaceFrom re template
                          (before ++ String a EmptyString) 0 t)
          end
      end
  end.

Definition replaceAll (re : list Atom) (template s : string) : string :=
  replaceFrom re template EmptyString 0 s.

(** What a global replacement makes of pieces joined by the matched text
    [sep]: every separator becomes the replacement text, expanded at its
    place. *)
Fixpoint joinSubst (sep template before : string) (pieces : list string)
  : string :=
  match pieces with
  | [] => EmptyString
  | a :: rest =>
      match rest with
      | [] => a
      | _ => a ++ GetSubstitution sep (before ++ a) (Text.joinWith sep rest)
                    template
               ++ joinSubst sep template (before ++ a ++ sep) rest
      end
  end.

(** The atoms of a literal text. *)
Definition literal (s : string) : list Atom :=
  map Lit (list_ascii_of_string s).

(** The text does not begin with a quantifier. *)
Definition plainStart (s : string) : Prop :=
  match s with
  | EmptyString => True
  | String c _ => isSyntaxChar c = false \/ c = "\"%char
  end.

End RegExp.

(** ** [lib/media-handler.js] *)

Module MediaHandler.
Import JS.

(** The outcome of an expression that may throw. *)
Inductive Result (A : Type) : Type :=
| Ok (a : A)
| Throw (message : string).
Arguments Ok {A} a.
Arguments Throw {A} message.

(** [try { body } catch { handler }]. *)
Definition tryCatch {A} (body : Result A) (handler : Result A) : Result A :=
  match body with
  | Ok a => Ok a
  | Throw _ => handler
  end.

(** The part of a parsed [URL] that the sources read. *)
Record URL : Type := mkURL { pathname : string }.

(** [s.replace(needle, '')] with a string [needle]: the first occurrence
    goes. *)
Fixpoint removeFirst (needle s : string) : string :=
  if String.prefix needle s
  then substring (String.length needle) (String.length s) s
  else match s with
       | EmptyString => EmptyString
       | String c t => String c (removeFirst needle t)
       end.

(** [.replace(/[^a-z0-9-]/g, '-')]. *)
Fixpoint hyphenate (s : string) : string :=
  match s with
  | EmptyString => EmptyString
  | String c t =>
      String (if isLower c || isDigit c || Ascii.eqb c "-" then c else "-"%char)
             (hyphenate t)
  end.

(** [.replace(/-+/g, '-')]. *)
Fixpoint collapseHyphens (s : string) : string :=
  match s with
  | EmptyString => EmptyString
  | String c t =>
      if Ascii.eqb c "-" then
        match t with
        | String "-" _ => collapseHyphens t
        | _ => String c (collapseHyphens t)
        end
      else String c (collapseHyphens t)
  end.

(** [.replace(/^-|-$/g, '')]: one hyphen at the start goes, and one at the
    end of what is left. *)
Fixpoint dropLastHyphen (s : string) : string :=
  match s with
  | EmptyString => EmptyString
  | String c t =>
      match t with
      | EmptyString => if Ascii.eqb c "-" then EmptyString else s
      | _ => String c (dropLastHyphen t)
      end
  end.

Definition trimHyphens (s : string) : string :=
  match s with
  | String "-" t => dropLastHyphen t
  | _ => dropLastHyphen s
  end.

(** The chain that cleans a name, shared with [safeDirName]. *)
Definition cleanName (s : string) : string :=
  trimHyphens (collapseHyphens (hyphenate (toLowerCase s))).

Section GenerateFilename.
(** [new URL(url)], Node's WHATWG parser; it throws on a string that is
    not an absolute URL. *)
Variable URL_new : string -> Result URL.

(** The [try] block of [generateFilename]. *)
Definition generateFilename_body (url : string) : Result string :=
  match URL_new url with
  | Throw m => Throw m
  | Ok urlObj =>
      let originalName := Path.basename (pathname urlObj) in
      let ext := if String.eqb (Path.extname originalName) ""
                 then ".jpg" else Path.extname originalName in
      let nameWithoutExt := removeFirst ext originalName in
      let hash := substring 0 8 (MD5.md5Hex url) in
      let safeName := substring 0 50 (cleanName nameWithoutExt) in
      Ok (safeName ++ "-" ++ hash ++ ext)
  end.

(** The [catch] block. *)
Definition generateFilename_handler (url : string) : Result string :=
  let hash := MD5.md5Hex url in
  Ok ("image-" ++ substring 0 12 hash ++ ".jpg").

(** [generateFilename(url)]. *)
Definition generateFilename (url : string) : Result string :=
  tryCatch (generateFilename_body url) (generateFilename_handler url).

(** The basename that [generateFilename] works from. *)
Definition urlBasename (url : string) : option string :=
  match URL_new url with
  | Ok urlObj => Some (Path.basename (pathname urlObj))
  | Throw _ => None
  end.
End GenerateFilename.

(** A reading of [new URL(s)] for the absolute [http] and [https] URLs
    used as examples below: scheme, [//], a non-empty host, then the path
    up to the first [?] or [#]; [/] when the path is empty. A string
    without such a scheme makes it throw; the platform's parser accepts
    more and normalises the path. *)
Definition notPathEnd (c : ascii) : bool :=
  negb (Ascii.eqb c "?" || Ascii.eqb c "#").

Definition notHostEnd (c : ascii) : bool :=
  negb (Ascii.eqb c "/" || Ascii.eqb c "?" || Ascii.eqb c "#").

Definition afterScheme (s : string) : option string :=
  if String.prefix "http://" s then Some (substring 7 (String.length s) s)
  else if String.prefix "https://" s then Some (substring 8 (String.length s) s)
  else None.

Definition URL_http (s : string) : Result URL :=
  match afterScheme s with
  | None => Throw "Invalid URL"
  | Some rest =>
      match span notHostEnd rest with
      | (EmptyString, _) => Throw "Invalid URL"
      | (_, tail) =>
          match fst (span notPathEnd tail) with
          | String "/" p => Ok (mkURL (String "/" p))
          | _ => Ok (mkURL "/")
          end
      end
  end.

(** [url.replace(/[.*+?^${}()|[\]\\]/g, '\\$&')]. *)
Definition isEscaped (c : ascii) : bool := includesChar ".*+?^${}()|[]\" c.

Fixpoint escapeRegExp (s : string) : string :=
  match s with
  | EmptyString => EmptyString
  | String c t =>
      if isEscaped c then String "\" (String c (escapeRegExp t))
      else String c (escapeRegExp t)
  end.

(** A [Map] of strings to strings, in insertion order. *)
Definition Mapping := list (string * string).

(** [result.replace(new RegExp(source, 'g'), template)]; [None] when the
    pattern text is not one [parsePattern] reads. *)
Definition replaceWith (source template result : string) : option string :=
  match RegExp.parsePattern source with
  | Some re => Some (RegExp.replaceAll re template result)
  | None => None
  end.

(** [replaceMediaUrls(content, mapping)]. *)
Fixpoint replaceMediaUrls (content : string) (mapping : Mapping)
  : option string :=
  match mapping with
  | [] => Some content
  | (url, filename) :: rest =>
      match replaceWith (escapeRegExp url) ("./media/" ++ filename) content with
      | Some result => replaceMediaUrls result rest
      | None => None
      end
  end.

(** [restoreMediaUrls(content, mapping)]. *)
Fixpoint restoreMediaUrls (content : string) (mapping : Mapping)
  : option string :=
  match mapping with
  | [] => Some content
  | (filename, url) :: rest =>
      match replaceWith ("\.?\/media\/" ++ escapeRegExp filename) url content with
      | Some result => restoreMediaUrls result rest
      | None => None
      end
  end.

(** A content cut at the local references that a scan from the left
    finds: each part is a piece of text and the reference after it, with
    its leading dot or not; [last] is the text after the last reference. *)
Definition reference (dotted : bool) (path : string) : string :=
  if dotted then String "." path else path.

Fixpoint joinRefs (path : string) (parts : list (string * bool))
                  (last : string) : string :=
  match parts with
  | [] => last
  | (piece, dotted) :: rest =>
      piece ++ reference dotted path ++ joinRefs path rest last
  end.

(** What a global replacement makes of such a content: every reference
    becomes the replacement text, expanded at its place. *)
Fixpoint substRefs (path template before : string)
                   (parts : list (string * bool)) (last : string) : string :=
  match parts with
  | [] => last
  | (piece, dotted) :: rest =>
      piece
      ++ RegExp.GetSubstitution (reference dotted path) (before ++ piece)
           (joinRefs path rest last) template
      ++ substRefs path template
           (before ++ piece ++ reference dotted path) rest last
  end.

Fixpoint endsWithChar (c : ascii) (s : string) : bool :=
  match s with
  | EmptyString => false
  | String a t =>
      match t with
      | EmptyString => Ascii.eqb a c
      | _ => endsWithChar c t
      end
  end.

(** The cut is the one of the scan: the path starts inside no piece (nor
    across a piece and the reference after it), a dot before a reference
    belongs to the reference, and the path is not in the last piece. *)
Fixpoint clearRefs (path : string) (parts : list (string * bool))
                   (last : string) : Prop :=
  match parts with
  | [] => Text.occursIn path last = false
  | (piece, dotted) :: rest =>
      Text.occursIn path
        (piece ++ Text.removeLast (reference dotted path)) = false /\
      (dotted = false -> endsWithChar "." piece = false) /\
      clearRefs path rest last
  end.

(** The mapping read backwards: local filename to URL. *)
Definition inverse (mapping : Mapping) : Mapping :=
  map (fun e => (snd e, fst e)) mapping.

(** Export rewrites with the mapping, import restores with its inverse. *)
Definition roundTrip (content : string) (mapping : Mapping) : option string :=
  match replaceMediaUrls content mapping with
  | Some rewritten => restoreMediaUrls rewritten (inverse mapping)
  | None => None
  end.

(** Two URLs with the basename [photo.jpg] whose MD5 digests begin with the
    same eight hex digits, [b92f81e6]. *)
Definition photoA : string := "https://example.com/uploads/31540/photo.jpg".
Definition photoB : string := "https://example.com/uploads/40932/photo.jpg".

(** A URL with [$$] in its path, the content that refers to it, and its
    mapping. *)
Definition dollarUrl : string := "https://example.com/uploads/a$$b.jpg".
Definition dollarContent : string := "<img src='" ++ dollarUrl ++ "'>".
Definition dollarMapping : Mapping := [(dollarUrl, "a-b-0f3a9c1e.jpg")].

End MediaHandler.

(** ** Contents with references to mapped assets

    A content is read as a sequence of segments: text, and references to
    the assets of a mapping, each written either as the URL of the asset or
    as its local path [./media/<file name>]. This is the shape of the
    contents that the export rewrites and the import restores. *)

Module Content.
Import Text MediaHandler.

Inductive Segment : Type :=
| Plain (text : string)
| Remote (url filename : string)
| Local (url filename : string).

Definition renderSegment (seg : Segment) : string :=
  match seg with
  | Plain text => text
  | Remote url _ => url
  | Local _ filename => "./media/" ++ filename
  end.

(** The content as a string. *)
Fixpoint render (segs : list Segment) : string :=
  match segs with
  | [] => EmptyString
  | seg :: rest => renderSegment seg ++ render rest
  end.

Definition sameEntry (url filename url' filename' : string) : bool :=
  String.eqb url url' && String.eqb filename filename'.

(** The references to one entry of the mapping, in either form. *)
Definition isRemote (url filename : string) (seg : Segment) : bool :=
  match seg with
  | Remote url' filename' => sameEntry url filename url' filename'
  | _ => false
  end.

Definition isLocal (url filename : string) (seg : Segment) : bool :=
  match seg with
  | Local url' filename' => sameEntry url filename url' filename'
  | _ => false
  end.

(** What a pass for the entry is meant to do to a segment. *)
Definition localize (url filename : string) (seg : Segment) : Segment :=
  if isRemote url filename seg then Local url filename else seg.

Definition globalize (url filename : string) (seg : Segment) : Segment :=
  if isLocal url filename seg then Remote url filename else seg.

Fixpoint localizeAll (mapping : Mapping) (segs : list Segment)
  : list Segment :=
  match mapping with
  | [] => segs
  | (url, filename) :: rest =>
      localizeAll rest (map (localize url filename) segs)
  end.

Fixpoint globalizeAll (mapping : Mapping) (segs : list Segment)
  : list Segment :=
  match mapping with
  | [] => segs
  | (url, filename) :: rest =>
      globalizeAll rest (map (globalize url filename) segs)
  end.

(** The pieces of the content between the segments chosen by [isSep]. *)
Fixpoint cut (isSep : Segment -> bool) (segs : list Segment) : list string :=
  match segs with
  | [] => [EmptyString]
  | seg :: rest =>
      if isSep seg then EmptyString :: cut isSep rest
      else
        match cut isSep rest with
        | piece :: pieces => (renderSegment seg ++ piece) :: pieces
        | [] => [renderSegment seg]
        end
  end.

(** The passes of [replaceMediaUrls] find the URL of their entry at its
    references only, in the content as the passes before left it; the
    URLs are not empty and the file names have no [$]. *)
Fixpoint rewritable (mapping : Mapping) (segs : list Segment) : Prop :=
  match mapping with
  | [] => True
  | (url, filename) :: rest =>
      url <> EmptyString /\
      dollarFree filename = true /\
      wellSplit url url (cut (isRemote url filename) segs) /\
      rewritable rest (map (localize url filename) segs)
  end.

(** The passes of [restoreMediaUrls] find the local path of their entry at
    its references only, in the content as the passes before left it; the
    URLs have no [$]. *)
Fixpoint restorable (mapping : Mapping) (segs : list Segment) : Prop :=
  match mapping with
  | [] => True
  | (url, filename) :: rest =>
      dollarFree url = true /\
      wellSplit ("/media/" ++ filename) ("./media/" ++ filename)
                (cut (isLocal url filename) segs) /\
      restorable rest (map (globalize url filename) segs)
  end.

(** An exported content: no reference is in local form yet. *)
Definition isOriginal (seg : Segment) : bool :=
  match seg with
  | Local _ _ => false
  | _ => true
  end.

(** A page with three images, two of them the same, and its mapping. *)
Definition galleryMapping : Mapping :=
  [("http://x.org/a.jpg", "a-1f.jpg"); ("http://x.org/b.png", "b-2e.png")].

Definition gallery : list Segment :=
  [Plain "<img src='"; Remote "http://x.org/a.jpg" "a-1f.jpg";
   Plain "'><img src='"; Remote "http://x.org/b.png" "b-2e.png";
   Plain "'><img src='"; Remote "http://x.org/a.jpg" "a-1f.jpg";
   Plain "'>"].

End Content.
(** ** [wp-export.js]: the plugin prefix classifier *)

Module WpExport.
Import JS.

(** [isEmpty(value)]. *)
Definition isEmpty (value : JsValue) : bool :=
  match value with
  | JNull | JUndefined => true
  | JStr s => String.eqb s ""
  | JNum _ => false
  | JArr items => Nat.eqb (List.length items) 0
  | JObj props => Nat.eqb (List.length (keys props)) 0
  | JBool _ => false
  end.

(** [hasMeaningfulContent(obj)]. *)
Definition hasMeaningfulContent (obj : JsObject) : bool :=
  existsb (fun value => negb (isEmpty value)) (values obj).

(** A plugin descriptor: the fields the classifier reads, and the
    [autoDetected] flag it sets on the descriptors it makes up. *)
Record Plugin : Type := mkPlugin {
  slug : string;
  name : string;
  prefixes : list string;
  autoDetected : bool
}.

(** One entry of the [grouped] map: [{ plugin, meta }]. *)
Record MetaGroup : Type := mkGroup {
  plugin : Plugin;
  meta : JsObject
}.

Definition skipPrefixes : list string :=
  ["_edit_"; "_wp_"; "_oembed_"; "_menu_item_"; "_customize_"].

Definition skipKeys : list string :=
  ["_thumbnail_id"; "_encloseme"; "_pingme"].

(** [skipPrefixes.some(p => key.startsWith(p))]. *)
Definition hasSkipPrefix (key : string) : bool :=
  existsb (startsWith key) skipPrefixes.

(** The keys the classifier never exports. *)
Definition reserved (key : string) : bool :=
  includes skipKeys key || hasSkipPrefix key.

(** The numbers the sort comparator works with: [Math.max()] of no argument
    is [-Infinity]. *)
Inductive ExtNum : Type :=
| NegInfinity
| Finite (n : nat).

(** [Math.max(...xs)]. *)
Definition Math_max (xs : list nat) : ExtNum :=
  fold_left (fun acc n =>
               match acc with
               | NegInfinity => Finite n
               | Finite m => Finite (Nat.max m n)
               end) xs NegInfinity.

(** The sign of a comparator's result; [-Infinity - -Infinity] is [NaN]. *)
Inductive Sign : Type := Negative | Zero | Positive | NaN.

(** The sign of [x - y]. *)
Definition subSign (x y : ExtNum) : Sign :=
  match x, y with
  | NegInfinity, NegInfinity => NaN
  | NegInfinity, Finite _ => Negative
  | Finite _, NegInfinity => Positive
  | Finite m, Finite n =>
      match Nat.compare m n with
      | Lt => Negative
      | Eq => Zero
      | Gt => Positive
      end
  end.

(** The order of these numbers. *)
Definition extLe (x y : ExtNum) : Prop :=
  match x, y with
  | NegInfinity, _ => True
  | Finite _, NegInfinity => False
  | Finite m, Finite n => m <= n
  end.

(** [Math.max(...a.prefixes.map(p => p.length))]. *)
Definition maxPrefixLength (a : Plugin) : ExtNum :=
  Math_max (map String.length (prefixes a)).

(** The comparator [(a, b) => maxB - maxA]. *)
Definition byLongestPrefix (a b : Plugin) : Sign :=
  subSign (maxPrefixLength b) (maxPrefixLength a).

(** [Array.prototype.sort] is stable: [x] moves behind [y] only when the
    comparator is positive on [(x, y)]; a [NaN] counts as [+0]. *)
Section Sort.
Context {A : Type} (cmp : A -> A -> Sign).

Definition movesBehind (x y : A) : bool :=
  match cmp x y with Positive => true | _ => false end.

Fixpoint insertSorted (x : A) (l : list A) : list A :=
  match l with
  | [] => [x]
  | y :: t => if movesBehind x y then y :: insertSorted x t else x :: y :: t
  end.

Definition Array_sort (l : list A) : list A := fold_right insertSorted [] l.
End Sort.

(** [[...plugins].sort(...)]. *)
Definition sortedPlugins (plugins : list Plugin) : list Plugin :=
  Array_sort byLongestPrefix plugins.

(** [patterns.some(p => key.startsWith(p)) || key === prefix]. *)
Definition matchesPrefix (key prefix : string) : bool :=
  existsb (startsWith key)
          [prefix ++ "_"; prefix ++ "-"; "_" ++ prefix ++ "_"; "_" ++ prefix]
  || String.eqb key prefix.

(** The inner loop over [plugin.prefixes] finds a match. *)
Definition matchesPlugin (key : string) (p : Plugin) : bool :=
  existsb (matchesPrefix key) (prefixes p).

(** The state of the first two loops. *)
Record Assignment : Type := mkAssignment {
  grouped : list (string * MetaGroup);
  assignedKeys : list string
}.

(** The body of the [if] of the inner loop: create the group on first use,
    store the key, mark it assigned. *)
Definition assignTo (p : Plugin) (key : string) (value : JsValue)
                    (st : Assignment) : Assignment :=
  let g1 := if alist_has (slug p) (grouped st) then grouped st
            else alist_set (slug p) (mkGroup p []) (grouped st) in
  let g2 := alist_update (slug p)
              (fun g => mkGroup (plugin g) (obj_set key value (meta g))) g1 in
  mkAssignment g2 (set_add key (assignedKeys st)).

(** [for (const plugin of sortedPlugins) { for (const prefix of ...) {...}
    if (assignedKeys.has(key)) break; }]. The inner loop stops at the first
    matching prefix. *)
Fixpoint tryPlugins (key : string) (value : JsValue) (ps : list Plugin)
                    (st : Assignment) : Assignment :=
  match ps with
  | [] => st
  | p :: rest =>
      let st' := if matchesPlugin key p
                 then assignTo p key value st else st in
      if set_has key (assignedKeys st') then st'
      else tryPlugins key value rest st'
  end.

(** One turn of the first loop over [Object.entries(meta)]. *)
Definition matchKnown (sorted : list Plugin) (st : Assignment)
                      (kv : string * JsValue) : Assignment :=
  let (key, value) := kv in
  if isEmpty value then st
  else if includes skipKeys key then st
  else if hasSkipPrefix key then st
  else tryPlugins key value sorted st.

(** [key.match(/^(_[a-z0-9]+)_/i)] and [key.match(/^([a-z0-9]+)_/i)]: the
    first capture, when the key matches. *)
Definition leadingToken (key : string) : option string :=
  match key with
  | String "_" rest =>
      match span isAlnum rest with
      | (String c run, String "_" _) => Some (String "_" (String c run))
      | _ => None
      end
  | _ =>
      match span isAlnum key with
      | (String c run, String "_" _) => Some (String c run)
      | _ => None
      end
  end.

(** The state of the second loop. *)
Record Discovery : Type := mkDiscovery {
  unknownGroups : list (string * JsObject);
  assignedKeys2 : list string
}.

(** One turn of the second loop. *)
Definition discover (st : Discovery) (kv : string * JsValue) : Discovery :=
  let (key, value) := kv in
  if set_has key (assignedKeys2 st) || isEmpty value then st
  else if includes skipKeys key then st
  else if hasSkipPrefix key then st
  else
    match leadingToken key with
    | Some prefix =>
        if (2 <=? String.length prefix)%nat then
          let u1 := if alist_has prefix (unknownGroups st) then unknownGroups st
                    else alist_set prefix [] (unknownGroups st) in
          let u2 := alist_update prefix (obj_set key value) u1 in
          mkDiscovery u2 (set_add key (assignedKeys2 st))
        else st
    | None => st
    end.

(** [prefix.replace(/^_/, '').toLowerCase().replace(/_/g, '-')]. *)
Definition slugOfPrefix (prefix : string) : string :=
  let stripped := match prefix with
                  | String "_" rest => rest
                  | _ => prefix
                  end in
  replaceChar "_" "-" (toLowerCase stripped).

(** [Object.keys(data).length >= 1 && hasMeaningfulContent(data)]. *)
Definition worthAdding (data : JsObject) : bool :=
  (1 <=? List.length (keys data))%nat && hasMeaningfulContent data.

(** One turn of the third loop, over the [unknownGroups] map. *)
Definition addUnknown (g : list (string * MetaGroup))
                      (entry : string * JsObject) : list (string * MetaGroup) :=
  let (prefix, data) := entry in
  if worthAdding data then
    let slug := slugOfPrefix prefix in
    if negb (alist_has slug g) then
      alist_set slug (mkGroup (mkPlugin slug slug [] true) data) g
    else
      alist_update slug
        (fun grp => mkGroup (plugin grp) (Object_assign (meta grp) data)) g
  else g.

(** One turn of the last loop. *)
Definition collectRemaining (assigned : list string) (remaining : JsObject)
                            (kv : string * JsValue) : JsObject :=
  let (key, value) := kv in
  if negb (set_has key assigned) && negb (isEmpty value) then
    if negb (includes skipKeys key) && negb (hasSkipPrefix key) then
      if includesChar key "_" && negb (startsWith key "_") then
        obj_set key value remaining
      else remaining
    else remaining
  else remaining.

(** The result [{ grouped, remaining }]; [None] is [null]. *)
Record Classification : Type := mkClassification {
  groups : list (string * MetaGroup);
  remaining : option JsObject
}.

(** [groupMetaByPlugin(meta, plugins)]; [entries] is [Object.entries(meta)]. *)
Definition groupMetaByPlugin (entries : JsObject) (plugins : list Plugin)
  : Classification :=
  let sorted := sortedPlugins plugins in
  let st1 := fold_left (matchKnown sorted) entries (mkAssignment [] []) in
  let st2 := fold_left discover entries
               (mkDiscovery [] (assignedKeys st1)) in
  let g := fold_left addUnknown (unknownGroups st2) (grouped st1) in
  let rest := fold_left (collectRemaining (assignedKeys2 st2)) entries [] in
  mkClassification g (if hasMeaningfulContent rest then Some rest else None).

(** Descending order of the longest prefix. *)
Definition longestFirst (a b : Plugin) : Prop :=
  extLe (maxPrefixLength b) (maxPrefixLength a).

(** The conditions of the loops, as predicates on a key. *)
Definition firstMatch (sorted : list Plugin) (key : string) : option Plugin :=
  find (matchesPlugin key) sorted.

Definition autoPrefix (key : string) : option string :=
  match leadingToken key with
  | Some prefix => if (2 <=? String.length prefix)%nat then Some prefix else None
  | None => None
  end.

Definition looksLikePluginMeta (key : string) : bool :=
  includesChar key "_" && negb (startsWith key "_").

(** An entry that passes the emptiness and reserved-key tests. *)
Definition eligible (key : string) (value : JsValue) : bool :=
  negb (isEmpty value) && negb (reserved key).

(** What each loop does to an entry of the bag: matched by the first
    matching descriptor, and stored in its group unless the key is
    [__proto__]; else grouped under its leading token; else kept in the
    remainder. *)
Definition matchedBy (sorted : list Plugin) (entries : JsObject)
                     (key slug : string) : Prop :=
  exists value p, In (key, value) entries /\ eligible key value = true /\
                  firstMatch sorted key = Some p /\ slug = WpExport.slug p.

Definition claimedBy (sorted : list Plugin) (entries : JsObject)
                     (key slug : string) : Prop :=
  key <> "__proto__" /\ matchedBy sorted entries key slug.

Definition discoveredAs (sorted : list Plugin) (entries : JsObject)
                        (key prefix : string) : Prop :=
  exists value, In (key, value) entries /\ eligible key value = true /\
                firstMatch sorted key = None /\ autoPrefix key = Some prefix.

Definition leftOver (sorted : list Plugin) (entries : JsObject)
                    (key : string) : Prop :=
  exists value, In (key, value) entries /\ eligible key value = true /\
                firstMatch sorted key = None /\ autoPrefix key = None /\
                looksLikePluginMeta key = true.

(** Where a key of the bag ended up. *)
Definition holds (g : list (string * MetaGroup)) (key slug : string) : Prop :=
  exists grp, alist_get slug g = Some grp /\ In key (keys (meta grp)).

Definition inGroup (c : Classification) (key slug : string) : Prop :=
  holds (groups c) key slug.

Definition inRemaining (c : Classification) (key : string) : Prop :=
  exists r, remaining c = Some r /\ In key (keys r).

Definition dropped (c : Classification) (key : string) : Prop :=
  (forall slug, ~ inGroup c key slug) /\ ~ inRemaining c key.

(** Executable counterparts, for concrete bags. *)
Definition groupOf (c : Classification) (key : string) : list string :=
  map fst (filter (fun e => includes (keys (meta (snd e))) key) (groups c)).

Definition isRemaining (c : Classification) (key : string) : bool :=
  match remaining c with
  | Some r => includes (keys r) key
  | None => false
  end.

(** The bags and descriptors of the specification's scenarios. *)
Definition rankMathBag : JsObject :=
  [("rank_math_title", JStr "X"); ("_edit_lock", JStr "123");
   ("unknown_plugin_key", JStr "Y")].

Definition rankMath : Plugin :=
  mkPlugin "seo-by-rank-math" "Rank Math SEO" ["rank_math"] false.

Definition emptyValueBag : JsObject :=
  [("x", JStr ""); ("y", JArr []); ("z", JNum 0)].

Definition seo : Plugin := mkPlugin "seo" "SEO" ["seo"] false.
Definition seoPro : Plugin := mkPlugin "seo-pro" "SEO Pro" ["seo_pro"] false.

Definition seoBag : JsObject :=
  [("seo_title", JStr "a"); ("seo_pro_title", JStr "b")].

(** *** What the loops establish

    The states of the loops of [groupMetaByPlugin], as the proofs follow
    them. *)

(** Membership in an auto-discovered group. *)
Definition found (u : list (string * JsObject)) (key prefix : string) : Prop :=
  exists d, alist_get prefix u = Some d /\ In key (keys d).

(** Every discovered group passes the test of the third loop. *)
Definition allWorthAdding (u : list (string * JsObject)) : Prop :=
  Forall (fun e => worthAdding (snd e) = true) u.

(** What one turn of the second loop adds, from assigned keys [a]. *)
Definition added (a : list string) (key : string) (value : JsValue)
                 (prefix : string) : Prop :=
  eligible key value = true /\ ~ In key a /\ autoPrefix key = Some prefix.

(** What the second loop adds, from a state with assigned keys [a]. *)
Definition tokenized (entries : JsObject) (a : list string)
                     (key prefix : string) : Prop :=
  exists value, In (key, value) entries /\ added a key value prefix.

(** The last loop. *)
Definition kept (entries : JsObject) (a : list string) (key : string) : Prop :=
  exists value, In (key, value) entries /\ eligible key value = true /\
                ~ In key a /\ looksLikePluginMeta key = true.

Definition noEmptyValue (r : JsObject) : Prop :=
  Forall (fun e => isEmpty (snd e) = false) r.

End WpExport.

(** ** [wp-export.js]: the grouping of the site options *)

Module WpExportOptions.
Import JS WpExport.

(** One entry of the [grouped] map: [{ plugin, options }]. *)
Record OptionGroup : Type := mkOptionGroup {
  owner : Plugin;
  options : JsObject
}.

(** [key.startsWith(prefix + '_') || key.startsWith(prefix + '-')
    || key === prefix]. *)
Definition optionMatches (key prefix : string) : bool :=
  startsWith key (prefix ++ "_") || startsWith key (prefix ++ "-")
  || String.eqb key prefix.

(** The inner loop over [plugin.prefixes] finds a match. *)
Definition ownsOption (key : string) (p : Plugin) : bool :=
  existsb (optionMatches key) (prefixes p).

(** The state of the loop: the map [grouped] and the set [assignedKeys]. *)
Record Grouping : Type := mkGrouping {
  groupedOptions : list (string * OptionGroup);
  assignedOptions : list string
}.

(** The body of the [if] of the inner loop: create the group on first use,
    store the option, mark its key assigned. *)
Definition assignOption (p : Plugin) (key : string) (value : JsValue)
                        (st : Grouping) : Grouping :=
  let g1 := if alist_has (slug p) (groupedOptions st) then groupedOptions st
            else alist_set (slug p) (mkOptionGroup p []) (groupedOptions st) in
  let g2 := alist_update (slug p)
              (fun g => mkOptionGroup (owner g)
                                      (obj_set key value (options g))) g1 in
  mkGrouping g2 (set_add key (assignedOptions st)).

(** [for (const plugin of sortedPlugins) { for (const prefix of ...) {...}
    if (assignedKeys.has(key)) break; }]. The inner loop stops at the first
    matching prefix. *)
Fixpoint tryOwners (key : string) (value : JsValue) (ps : list Plugin)
                   (st : Grouping) : Grouping :=
  match ps with
  | [] => st
  | p :: rest =>
      let st' := if ownsOption key p
                 then assignOption p key value st else st in
      if set_has key (assignedOptions st') then st'
      else tryOwners key value rest st'
  end.

(** One turn of the loop over [Object.entries(allOptions)]. *)
Definition groupOne (sorted : list Plugin) (st : Grouping)
                    (kv : string * JsValue) : Grouping :=
  let (key, value) := kv in
  if isEmpty value then st else tryOwners key value sorted st.

(** [groupOptionsByPlugin(allOptions, plugins)]: the map [grouped], in the
    order of insertion. *)
Definition groupOptionsByPlugin (allOptions : JsObject)
                                (plugins : list Plugin)
  : list (string * OptionGroup) :=
  groupedOptions
    (fold_left (groupOne (sortedPlugins plugins)) allOptions
               (mkGrouping [] [])).

(** The first of the sorted descriptors with a matching prefix. *)
Definition firstOwner (sorted : list Plugin) (key : string) : option Plugin :=
  find (ownsOption key) sorted.

(** The group under [slug] holds [value] under [key]. *)
Definition stored (grouped : list (string * OptionGroup))
                  (key : string) (value : JsValue) (slug : string) : Prop :=
  exists group, alist_get slug grouped = Some group /\
                alist_get key (options group) = Some value.

(** What the loop does to the entries: an option with a value goes to the
    first matching descriptor; the key [__proto__] is not stored. *)
Definition grouping (sorted : list Plugin) (entries : JsObject)
                    (k : string) (v : JsValue) (s : string) : Prop :=
  In (k, v) entries /\ isEmpty v = false /\ k <> "__proto__" /\
  exists p, firstOwner sorted k = Some p /\ s = slug p.

(** Some site options. *)
Definition siteOptions : JsObject :=
  [("seo_pro_license", JStr "k"); ("seo-title", JStr "t");
   ("_seo_hidden", JStr "h"); ("blogname", JStr "b");
   ("seo_empty", JStr "")].

End WpExportOptions.
(** ** [wp-import.js] *)

Module WpImport.
Import JS MediaHandler.

(** *** Values as text *)

Definition showNat (n : nat) : string :=
  NilZero.string_of_uint (Nat.to_uint n).

Definition showZ (z : Z) : string := NilZero.string_of_int (Z.to_int z).

(** [String(v)], as a template literal converts a value. *)
Fixpoint jsToString (v : JsValue) : string :=
  match v with
  | JNull => "null"
  | JUndefined => "undefined"
  | JBool b => if b then "true" else "false"
  | JNum n => showZ n
  | JStr s => s
  | JArr items =>
      (fix joined (l : list JsValue) : string :=
         match l with
         | [] => EmptyString
         | x :: t =>
             let shown := match x with
                          | JNull | JUndefined => EmptyString
                          | _ => jsToString x
                          end in
             match t with
             | [] => shown
             | _ => shown ++ "," ++ joined t
             end
         end) items
  | JObj _ => "[object Object]"
  end.

(** [encodeURIComponent(s)]. *)
Definition isUnreserved (c : ascii) : bool :=
  isAlnum c || includesChar "-_.!~*'()" c.

Definition upperHexDigit (n : N) : ascii :=
  if (n <? 10)%N then ascii_of_N (48 + n) else ascii_of_N (55 + n).

Definition percentByte (b : N) : string :=
  String "%" (String (upperHexDigit (b / 16))
                     (String (upperHexDigit (b mod 16)) EmptyString)).

Fixpoint encodeURIComponent (s : string) : string :=
  match s with
  | EmptyString => EmptyString
  | String c t =>
      (if isUnreserved c then String c EmptyString
       else fold_right (fun b acc => percentByte b ++ acc) EmptyString
                       (MD5.utf8 (String c EmptyString)))
      ++ encodeURIComponent t
  end.

(** [s.endsWith(suffix)]. *)
Definition endsWith (s suffix : string) : bool :=
  String.prefix (Path.str (rev (Path.chars suffix)))
                (Path.str (rev (Path.chars s))).

(** [v.name] for the property names the script reads; it throws on [null]
    and [undefined]. *)
Definition getProp (v : JsValue) (name : string) : Result JsValue :=
  match v with
  | JNull | JUndefined =>
      Throw ("Cannot read properties of " ++ jsToString v)
  | JObj props =>
      match alist_get name props with
      | Some x => Ok x
      | None => Ok JUndefined
      end
  | _ => Ok JUndefined
  end.

(** The indexed properties of an array or a string. *)
Fixpoint indexed (i : nat) (items : list JsValue) : JsObject :=
  match items with
  | [] => []
  | x :: t => (showNat i, x) :: indexed (S i) t
  end.

Fixpoint charValues (s : string) : list JsValue :=
  match s with
  | EmptyString => []
  | String c t => JStr (String c EmptyString) :: charValues t
  end.

(** The own enumerable properties that [Object.assign] copies. *)
Definition ownEntries (v : JsValue) : JsObject :=
  match v with
  | JObj props => props
  | JArr items => indexed 0 items
  | JStr s => indexed 0 (charValues s)
  | _ => []
  end.

(** [Object.entries(v)]; it throws on [null] and [undefined]. *)
Definition Object_entries (v : JsValue) : Result JsObject :=
  match v with
  | JNull | JUndefined => Throw "Cannot convert undefined or null to object"
  | _ => Ok (ownEntries v)
  end.

(** [v.length], for a value other than [null] and [undefined]: the length
    of a string or an array, the property of that name of an object, and
    [undefined] for a number or a boolean. *)
Definition lengthOf (v : JsValue) : JsValue :=
  match v with
  | JStr s => JNum (Z.of_nat (String.length s))
  | JArr items => JNum (Z.of_nat (List.length items))
  | JObj props =>
      match alist_get "length" props with
      | Some w => w
      | None => JUndefined
      end
  | _ => JUndefined
  end.

(** [w > 0] for a length [w]: a number is compared as it is, [true] counts
    as [1], [false] and [null] as [0], and [undefined] is not a number. A
    length that is itself a string, an array or an object (only an object
    can have one, as its property [length]) would be converted to a number
    first; the model has no such conversion and takes it as not
    positive. *)
Definition positive (w : JsValue) : bool :=
  match w with
  | JNum n => (0 <? n)%Z
  | JBool b => b
  | _ => false
  end.

(** [v?.length > 0]. *)
Definition hasElements (v : JsValue) : bool :=
  match v with
  | JNull | JUndefined => false
  | _ => positive (lengthOf v)
  end.

(** [v[0]], for a value other than [null] and [undefined]. *)
Definition firstOf (v : JsValue) : JsValue :=
  match v with
  | JArr (x :: _) => x
  | JStr (String c _) => JStr (String c EmptyString)
  | JObj props =>
      match alist_get "0" props with
      | Some x => x
      | None => JUndefined
      end
  | _ => JUndefined
  end.

(** *** The world the script runs in *)

(** A local file: its text, and what [JSON.parse] makes of it ([None] when
    the text is not JSON). *)
Record File : Type := mkFile { text : string; json : option JsValue }.

(** A directory lists its entries; the flag tells a regular file. *)
Inductive Node : Type :=
| RegularFile (f : File)
| Directory (entries : list (string * bool)).

(** What the script does to the world, in order. *)
Inductive Event : Type :=
| Stat (path : string)
| ReadFile (path : string)
| ReadDir (path : string)
| HttpRequest (method endpoint : string) (body : JsValue)
| MediaUpload (filePath : string)
| Log (level message : string).

(** The backend's answer to a call: the parsed JSON body, or the message of
    the error that the client throws (transport failure, a status that is
    not 2xx, a body that is not JSON). *)
Inductive Response : Type :=
| Accepted (data : JsValue)
| Rejected (message : string).

(** The local tree, which an import only reads, and the backend, whose
    answer may depend on everything that happened before the call. *)
Record Env : Type := mkEnv {
  fs : string -> option Node;
  server : list Event -> Event -> Response
}.

(** [program.opts()]: [media] is [options.media !== false]. *)
Record Options : Type := mkOptions {
  media : bool;
  dryRun : bool;
  verbose : bool
}.

Record Config : Type := mkConfig {
  importDir : string;
  importMode : string
}.

(** The state of a run: the events so far and the [stats.mediaUploaded]
    counter. *)
Record Run : Type := mkRun {
  trace : list Event;
  mediaUploaded : nat
}.

(** *** Computations that act on the world and may throw *)

Definition M (A : Type) : Type := Run -> Result A * Run.

Definition ret {A} (a : A) : M A := fun st => (Ok a, st).

Definition throw {A} (message : string) : M A := fun st => (Throw message, st).

Definition bind {A B} (m : M A) (k : A -> M B) : M B :=
  fun st =>
    match m st with
    | (Ok a, st') => k a st'
    | (Throw message, st') => (Throw message, st')
    end.

(** [try { m } catch (error) { handler(error.message) }]. *)
Definition catch {A} (m : M A) (handler : string -> M A) : M A :=
  fun st =>
    match m st with
    | (Ok a, st') => (Ok a, st')
    | (Throw message, st') => handler message st'
    end.

Definition emit (e : Event) : M unit :=
  fun st => (Ok tt, mkRun (trace st ++ [e]) (mediaUploaded st)).

Definition history : M (list Event) := fun st => (Ok (trace st), st).

Definition countUpload : M unit :=
  fun st => (Ok tt, mkRun (trace st) (S (mediaUploaded st))).

(** A pure expression that may throw. *)
Definition lift {A} (r : Result A) : M A :=
  match r with
  | Ok a => ret a
  | Throw message => throw message
  end.

Declare Scope run_scope.
Delimit Scope run_scope with run.
Notation "x <- m ;; k" := (bind m (fun x => k))
  (at level 61, m at next level, right associativity) : run_scope.
Notation "m ;; k" := (bind m (fun _ => k))
  (at level 61, right associativity) : run_scope.
Local Open Scope run_scope.

(** The result of [importItem]: [{ slug, action: 'skipped', reason }],
    [{ slug, action: 'would-...', dryRun: true }] or
    [{ slug, action, id, extensions }]. *)
Inductive Action : Type := Create | Update | Skip.

Definition actionName (a : Action) : string :=
  match a with
  | Create => "create"
  | Update => "update"
  | Skip => "skip"
  end.

Inductive ItemResult : Type :=
| Skipped (slug reason : string)
| WouldDo (slug : string) (action : Action)
| Done (slug : string) (action : Action) (id : JsValue)
       (extensions : list string).

(** The [action] field of the result. *)
Definition resultAction (r : ItemResult) : string :=
  match r with
  | Skipped _ _ => "skipped"
  | WouldDo _ a => "would-" ++ actionName a
  | Done _ a _ _ => actionName a
  end.

(** [safeDirName(slug)] and [getContentDir(baseDir, type, slug)] of
    [file-utils.js]. *)
Definition safeDirName (slug : string) : string := cleanName slug.

Definition getContentDir (baseDir type slug : string) : string :=
  Path.join [baseDir; type; safeDirName slug].

(** [/\.(jpg|jpeg|png|gif|webp|svg|pdf)$/i.test(f)]. *)
Definition isMediaFile (f : string) : bool :=
  existsb (endsWith (toLowerCase f))
          [".jpg"; ".jpeg"; ".png"; ".gif"; ".webp"; ".svg"; ".pdf"].

(** [determine action based on mode]. *)
Definition decideAction (importMode : string) (existingItem : JsValue)
  : Action :=
  if String.eqb importMode "create" && negb (truthy existingItem) then Create
  else if String.eqb importMode "update" && truthy existingItem then Update
  else if String.eqb importMode "sync" then
    (if truthy existingItem then Update else Create)
  else Skip.

(** The [reason] of a skipped result. *)
Definition skipReason (existingItem : JsValue) : string :=
  if truthy existingItem then "exists (mode=create)"
  else "not found (mode=update)".

Definition nonExtensionFiles : list string :=
  ["metadata.json"; "media-mapping.json"; "meta.json"].

Section Script.
Variable env : Env.
Variable options : Options.

(** A call of [log.<level>(message)]. The event is the call; what reaches
    the console is the message, except for the level [verbose], which
    prints under [options.verbose] only. *)
Definition log (level message : string) : M unit := emit (Log level message).

(** The lines of a trace that reach the console. *)
Definition printed (e : Event) : bool :=
  match e with
  | Log level _ => negb (String.eqb level "verbose") || verbose options
  | _ => false
  end.

(** *** [fs-extra] and [file-utils.js] *)

Definition pathExists (path : string) : M bool :=
  emit (Stat path) ;;
  ret (match fs env path with Some _ => true | None => false end).

Definition jsonExists (path : string) : M bool := pathExists path.

Definition readFile (path : string) : M string :=
  emit (ReadFile path) ;;
  match fs env path with
  | Some (RegularFile f) => ret (text f)
  | Some (Directory _) => throw "EISDIR: illegal operation on a directory"
  | None => throw "ENOENT: no such file or directory"
  end.

Definition readHtml (path : string) : M string := readFile path.

(** [fs.readJson(path)]: the file is read, then parsed. *)
Definition readJson (path : string) : M JsValue :=
  emit (ReadFile path) ;;
  match fs env path with
  | Some (RegularFile f) =>
      match json f with
      | Some v => ret v
      | None => throw (path ++ ": Unexpected token in JSON")
      end
  | Some (Directory _) => throw "EISDIR: illegal operation on a directory"
  | None => throw "ENOENT: no such file or directory"
  end.

Definition readdir (path : string) : M (list (string * bool)) :=
  emit (ReadDir path) ;;
  match fs env path with
  | Some (Directory entries) => ret entries
  | Some (RegularFile _) => throw "ENOTDIR: not a directory"
  | None => throw "ENOENT: no such file or directory"
  end.

(** [listFiles(dirPath, extension)]. *)
Definition listFiles (dirPath extension : string) : M (list string) :=
  found <- pathExists dirPath ;;
  if negb found then ret []
  else
    entries <- readdir dirPath ;;
    let files := map fst (filter snd entries) in
    ret (filter (fun file => endsWith file extension) files).

(** *** [WPApiClient] *)

(** [client.request(endpoint, { method, body })]: the [data] of the
    answer. *)
Definition request (method endpoint : string) (body : JsValue) : M JsValue :=
  past <- history ;;
  emit (HttpRequest method endpoint body) ;;
  match server env past (HttpRequest method endpoint body) with
  | Accepted data => ret data
  | Rejected message => throw message
  end.

(** [data.length > 0 ? data[0] : null]. *)
Definition firstOrNull (data : JsValue) : Result JsValue :=
  match data with
  | JNull | JUndefined =>
      Throw ("Cannot read properties of " ++ jsToString data)
  | _ => Ok (if positive (lengthOf data) then firstOf data else JNull)
  end.

(** [getPostBySlug] and [getPageBySlug]; [collection] is [/posts] or
    [/pages]. *)
Definition getBySlug (collection : string) (slug : JsValue) : M JsValue :=
  data <- request "GET"
            (collection ++ "?slug=" ++ encodeURIComponent (jsToString slug))
            JUndefined ;;
  lift (firstOrNull data).

(** [createPost] and [createPage]. *)
Definition create (collection : string) (data : JsValue) : M JsValue :=
  request "POST" collection data.

(** [updatePost] and [updatePage]. *)
Definition update (collection : string) (id data : JsValue) : M JsValue :=
  request "PUT" (collection ++ "/" ++ jsToString id) data.

(** [uploadMedia(filePath)]: the file is read, then posted. *)
Definition uploadMedia (filePath : string) : M JsValue :=
  readFile filePath ;;
  past <- history ;;
  emit (MediaUpload filePath) ;;
  match server env past (MediaUpload filePath) with
  | Accepted data => ret data
  | Rejected message => throw message
  end.

(** The collection of a content type: [type === 'posts' ? '/posts' :
    '/pages']. *)
Definition collectionOf (type : string) : string :=
  if String.eqb type "posts" then "/posts" else "/pages".

(** *** [media-handler.js], import side *)

(** [loadMediaMapping(filePath)]. *)
Definition loadMediaMapping (filePath : string) : M JsObject :=
  found <- pathExists filePath ;;
  if negb found then ret []
  else
    obj <- readJson filePath ;;
    lift (Object_entries obj).

(** The loop of [uploadAllMedia], with the progress callback of
    [importItem]. *)
Fixpoint uploadEach (mediaDir : string) (mediaFiles : list string)
                    (mapping : Mapping) : M Mapping :=
  match mediaFiles with
  | [] => ret mapping
  | filename :: rest =>
      mapping' <-
        catch
          (uploaded <- uploadMedia (Path.join [mediaDir; filename]) ;;
           url <- lift (getProp uploaded "source_url") ;;
           log "verbose" ("    Uploaded: " ++ filename) ;;
           countUpload ;;
           ret (alist_set filename (jsToString url) mapping))
          (fun message =>
             log "verbose"
                 ("    Failed: " ++ filename ++ " - " ++ message) ;;
             ret mapping) ;;
      uploadEach mediaDir rest mapping'
  end.

(** [uploadAllMedia(mediaDir, client, onProgress)]. *)
Definition uploadAllMedia (mediaDir : string) : M Mapping :=
  found <- pathExists mediaDir ;;
  if negb found then ret []
  else
    entries <- readdir mediaDir ;;
    uploadEach mediaDir (filter isMediaFile (map fst entries)) [].

(** *** [importExtensionMeta] *)

(** The loop over the extension files: every JSON file of the item but
    the three reserved ones is merged into [metaToImport]. *)
Fixpoint readExtensions (contentDir : string) (files : list string)
                        (metaToImport : JsObject)
                        (importedExtensions : list string)
  : M (JsObject * list string) :=
  match files with
  | [] => ret (metaToImport, importedExtensions)
  | file :: rest =>
      if includes nonExtensionFiles file then
        readExtensions contentDir rest metaToImport importedExtensions
      else
        extData <- readJson (Path.join [contentDir; file]) ;;
        readExtensions contentDir rest
          (Object_assign metaToImport (ownEntries extData))
          (importedExtensions ++ [removeFirst ".json" file])
  end.

(** The files are read and merged; [meta.json] comes last. *)
Definition readExtensionMeta (contentDir : string)
  : M (JsObject * list string) :=
  extensionFiles <- listFiles contentDir ".json" ;;
  merged <- readExtensions contentDir extensionFiles [] [] ;;
  let metaFile := Path.join [contentDir; "meta.json"] in
  found <- pathExists metaFile ;;
  if found then
    metaData <- readJson metaFile ;;
    ret (Object_assign (fst merged) (ownEntries metaData), snd merged)
  else ret merged.

(** The two requests a push of [metaToImport] can make. *)
Definition combinedPush (type : string) (postId : JsValue)
                        (metaToImport : JsObject) : Event :=
  HttpRequest "PUT" (collectionOf type ++ "/" ++ jsToString postId)
              (JObj [("all_meta", JObj metaToImport)]).

Definition narrowPush (type : string) (postId : JsValue)
                      (metaToImport : JsObject) : Event :=
  HttpRequest "PUT" (collectionOf type ++ "/" ++ jsToString postId)
              (JObj [("meta", JObj metaToImport)]).

(** The nested [try] blocks: the combined [all_meta] update, on failure
    the [meta] update, on failure a warning. *)
Definition pushExtensionMeta (type : string) (postId : JsValue)
                             (metaToImport : JsObject)
                             (importedExtensions : list string) : M unit :=
  catch
    (request "PUT" (collectionOf type ++ "/" ++ jsToString postId)
             (JObj [("all_meta", JObj metaToImport)]) ;;
     log "verbose" ("  Imported extension meta: "
                    ++ Text.joinWith ", " importedExtensions))
    (fun _ =>
       catch
         (request "PUT" (collectionOf type ++ "/" ++ jsToString postId)
                  (JObj [("meta", JObj metaToImport)]) ;;
          log "verbose" "  Imported meta via standard API")
         (fun message =>
            log "warning" ("  Could not import meta: " ++ message))).

(** [importExtensionMeta(client, contentDir, postId, type, dryRun)]. *)
Definition importExtensionMeta (contentDir : string) (postId : JsValue)
                               (type : string) (dry : bool)
  : M (list string) :=
  merged <- readExtensionMeta contentDir ;;
  let metaToImport := fst merged in
  let importedExtensions := snd merged in
  if Nat.eqb (List.length (keys metaToImport)) 0 then ret importedExtensions
  else if dry then
    log "verbose" ("  Would import "
                   ++ showNat (List.length (keys metaToImport))
                   ++ " meta fields") ;;
    ret importedExtensions
  else
    pushExtensionMeta type postId metaToImport importedExtensions ;;
    ret importedExtensions.

(** *** [importItem] *)

(** The upload of the item's media and the rewriting of its content. *)
Definition uploadAndRestore (contentDir content : string) : M string :=
  let mediaDir := Path.join [contentDir; "media"] in
  originalMapping <-
    loadMediaMapping (Path.join [contentDir; "media-mapping.json"]) ;;
  if (0 <? List.length originalMapping)%nat then
    log "verbose" ("  Uploading " ++ showNat (List.length originalMapping)
                   ++ " media files...") ;;
    mediaMapping <- uploadAllMedia mediaDir ;;
    if (0 <? List.length mediaMapping)%nat then
      match restoreMediaUrls content mediaMapping with
      | Some restored => ret restored
      | None => throw "Invalid regular expression"
      end
    else ret content
  else ret content.

(** [existingItem], looked up by the slug of the metadata; any failure
    leaves it [null]. *)
Definition lookupExisting (type : string) (metadata : JsValue) : M JsValue :=
  catch
    (slug <- lift (getProp metadata "slug") ;;
     getBySlug (collectionOf type) slug)
    (fun _ => ret JNull).

(** The object sent on create and update. *)
Definition itemData (type : string) (metadata : JsValue) (content : string)
  : Result JsValue :=
  match getProp metadata "title" with
  | Throw m => Throw m
  | Ok title =>
      let field name :=
        match getProp metadata name with
        | Ok v => v
        | Throw _ => JUndefined
        end in
      let base : JsObject :=
        [("title", title);
         ("content", JStr content);
         ("status", field "status");
         ("slug", field "slug");
         ("excerpt", js_or (field "excerpt") (JStr ""));
         ("template", js_or (field "template") (JStr ""))] in
      let add (cond : bool) name (o : JsObject) : JsObject :=
        if cond then alist_set name (field name) o else o in
      let forPosts (o : JsObject) : JsObject :=
        if String.eqb type "posts" then
          add (match field "sticky" with JUndefined => false | _ => true end)
              "sticky"
            (add (truthy (field "format")) "format"
               (add (hasElements (field "tags")) "tags"
                  (add (hasElements (field "categories")) "categories" o)))
        else o in
      let forPages (o : JsObject) : JsObject :=
        if String.eqb type "pages" then
          add (truthy (field "menu_order")) "menu_order"
            (add (truthy (field "parent")) "parent" o)
        else o in
      Ok (JObj (forPages (forPosts base)))
  end.

(** The execution of a create or an update, and the metadata import that
    follows it. *)
Definition execute (slug type contentDir : string) (action : Action)
                   (existingItem data : JsValue) : M ItemResult :=
  result <-
    match action with
    | Create => create (collectionOf type) data
    | _ =>
        id <- lift (getProp existingItem "id") ;;
        update (collectionOf type) id data
    end ;;
  id <- lift (getProp result "id") ;;
  log "success"
      ((match action with Create => "Created " | _ => "Updated " end)
       ++ type ++ "/" ++ slug ++ " (ID: " ++ jsToString id ++ ")") ;;
  importedExtensions <-
    importExtensionMeta contentDir id type (dryRun options) ;;
  ret (Done slug action id importedExtensions).

(** From the lookup on: the action is decided, then reported (skip, dry
    run) or executed. *)
Definition reconcile (slug type : string) (config : Config)
                     (contentDir : string) (metadata : JsValue)
                     (content : string) (existingItem : JsValue)
  : M ItemResult :=
  match decideAction (importMode config) existingItem with
  | Skip => ret (Skipped slug (skipReason existingItem))
  | action =>
      data <- lift (itemData type metadata content) ;;
      if dryRun options then
        log "dry-run"
            ("Would " ++ actionName action ++ " " ++ type ++ "/" ++ slug) ;;
        ret (WouldDo slug action)
      else execute slug type contentDir action existingItem data
  end.

(** [importItem(slug, type, config, client, stats)]. *)
Definition importItem (slug type : string) (config : Config) : M ItemResult :=
  let contentDir := getContentDir (importDir config) type slug in
  log "verbose" ("Processing " ++ type ++ "/" ++ slug) ;;
  let metadataPath := Path.join [contentDir; "metadata.json"] in
  found <- jsonExists metadataPath ;;
  if negb found then throw ("metadata.json not found in " ++ contentDir)
  else
    metadata <- readJson metadataPath ;;
    content <-
      catch (readHtml (Path.join [contentDir; "body.html"]))
            (fun _ =>
               log "verbose" "  No body.html found, using empty content" ;;
               ret EmptyString) ;;
    content' <-
      (if media options && negb (dryRun options)
       then uploadAndRestore contentDir content
       else ret content) ;;
    existingItem <- lookupExisting type metadata ;;
    reconcile slug type config contentDir metadata content' existingItem.
End Script.

(** *** What a run did *)

(** A change of the backend: a request other than a [GET], or an upload. *)
Definition isMutation (e : Event) : bool :=
  match e with
  | HttpRequest method _ _ => negb (String.eqb method "GET")
  | MediaUpload _ => true
  | _ => false
  end.

(** An event about the item's media: a look at the media directory or the
    mapping file, an upload, or a log line about media. *)
Definition aboutMedia (contentDir : string) (e : Event) : bool :=
  match e with
  | Stat path | ReadFile path | ReadDir path =>
      String.prefix (Path.join [contentDir; "media"]) path
  | MediaUpload _ => true
  | Log _ message =>
      Text.occursIn "media" message || Text.occursIn "Uploaded: " message
      || Text.occursIn "Failed: " message
  | HttpRequest _ _ _ => false
  end.

(** A computation that only adds events satisfying [ok] and leaves the
    upload counter alone. *)
Definition only {A} (ok : Event -> bool) (m : M A) : Prop :=
  forall st, exists added,
    trace (snd (m st)) = (trace st ++ added)%list /\
    Forall (fun e => ok e = true) added /\
    mediaUploaded (snd (m st)) = mediaUploaded st.

(** No change of the backend. *)
Definition readOnly (e : Event) : bool := negb (isMutation e).

(** The scenario of the examples: one post, with one image, a group file
    and a remainder file; the backend has no post with its slug, accepts
    creations and uploads, and rejects every metadata update. *)
Definition helloFs (path : string) : option Node :=
  if String.eqb path "export/posts/hello/metadata.json" then
    Some (RegularFile (mkFile "{...}"
            (Some (JObj [("slug", JStr "hello"); ("title", JStr "Hello");
                         ("status", JStr "publish")]))))
  else if String.eqb path "export/posts/hello/body.html" then
    Some (RegularFile (mkFile "<img src='./media/a-1.jpg'>" None))
  else if String.eqb path "export/posts/hello/media-mapping.json" then
    Some (RegularFile (mkFile "{...}"
            (Some (JObj [("http://old.example/a.jpg", JStr "a-1.jpg")]))))
  else if String.eqb path "export/posts/hello/media" then
    Some (Directory [("a-1.jpg", true)])
  else if String.eqb path "export/posts/hello/media/a-1.jpg" then
    Some (RegularFile (mkFile "" None))
  else if String.eqb path "export/posts/hello" then
    Some (Directory [("metadata.json", true); ("body.html", true);
                     ("media-mapping.json", true); ("media", false);
                     ("rank-math.json", true); ("meta.json", true)])
  else if String.eqb path "export/posts/hello/rank-math.json" then
    Some (RegularFile (mkFile "{...}"
            (Some (JObj [("rank_math_title", JStr "T")]))))
  else if String.eqb path "export/posts/hello/meta.json" then
    Some (RegularFile (mkFile "{...}" (Some (JObj [("a_b", JNum 1)]))))
  else None.

Definition helloServer (past : list Event) (e : Event) : Response :=
  match e with
  | HttpRequest method _ _ =>
      if String.eqb method "GET" then Accepted (JArr [])
      else if String.eqb method "POST" then Accepted (JObj [("id", JNum 7)])
      else Rejected "API Error 400: rest_invalid_param"
  | MediaUpload _ =>
      Accepted (JObj [("source_url", JStr "http://new.example/a.jpg")])
  | _ => Rejected "not a call"
  end.

(** The events of a push of [metaToImport]: the combined update; when it is
    rejected, the narrower one; when that is rejected too, a warning. *)
Definition pushed (env : Env) (type : string) (postId : JsValue)
                  (metaToImport : JsObject) (importedExtensions : list string)
                  (past : list Event) : list Event :=
  let first := combinedPush type postId metaToImport in
  let second := narrowPush type postId metaToImport in
  match server env past first with
  | Accepted _ =>
      [first;
       Log "verbose" ("  Imported extension meta: "
                      ++ Text.joinWith ", " importedExtensions)]
  | Rejected _ =>
      first :: second ::
      match server env (past ++ [first]) second with
      | Accepted _ => [Log "verbose" "  Imported meta via standard API"]
      | Rejected message =>
          [Log "warning" ("  Could not import meta: " ++ message)]
      end
  end.

Definition helloEnv : Env := mkEnv helloFs helloServer.
Definition helloConfig : Config := mkConfig "export" "sync".
Definition start : Run := mkRun [] 0.

End WpImport.

(** ** [config.js] *)

Module WpConfig.
Import JS MediaHandler.

(** The options that [commander] hands over, each a string or [undefined],
    and the environment variables that [getConfig] reads. *)
Record CliOptions : Type := mkCliOptions {
  cliUrl : option string;
  cliUser : option string;
  cliPassword : option string;
  cliOutput : option string;
  cliInput : option string;
  cliType : option string;
  cliStatus : option string;
  cliMode : option string;
  cliDryRun : bool
}.

Record ProcessEnv : Type := mkProcessEnv {
  WP_REMOTE_URL : option string;
  WP_REMOTE_USER : option string;
  WP_REMOTE_APP_PASSWORD : option string
}.

(** The object that [getConfig] returns. *)
Record ConfigObject : Type := mkConfigObject {
  url : string;
  user : string;
  appPassword : string;
  exportDir : string;
  importDir : string;
  contentType : string;
  postStatus : string;
  importMode : string;
  dryRun : bool;
  perPage : Z;
  timeout : Z
}.

(** [a || b] for a string or [undefined] on the left: the empty string is
    as good as none. *)
Definition orElse (a : option string) (b : string) : string :=
  match a with
  | Some s => if String.eqb s "" then b else s
  | None => b
  end.

(** [s.replace(/\/$/, '')]: a slash at the very end goes. *)
Fixpoint dropLastSlash (s : string) : string :=
  match s with
  | EmptyString => EmptyString
  | String c t =>
      match t with
      | EmptyString => if Ascii.eqb c "/" then EmptyString else s
      | _ => String c (dropLastSlash t)
      end
  end.

(** The URL before it is normalised. *)
Definition chosenUrl (cliOptions : CliOptions) (env : ProcessEnv) : string :=
  orElse (cliUrl cliOptions)
    (orElse (WP_REMOTE_URL env) "http://localhost:8080").

(** [getConfig(cliOptions)]; [defaultDir] is
    [resolve(__dirname, '..', 'export')]. *)
Definition getConfig (defaultDir : string) (env : ProcessEnv)
                     (cliOptions : CliOptions) : ConfigObject :=
  mkConfigObject
    (dropLastSlash (chosenUrl cliOptions env))
    (orElse (cliUser cliOptions) (orElse (WP_REMOTE_USER env) "admin"))
    (orElse (cliPassword cliOptions)
       (orElse (WP_REMOTE_APP_PASSWORD env) ""))
    (orElse (cliOutput cliOptions) defaultDir)
    (orElse (cliInput cliOptions) defaultDir)
    (orElse (cliType cliOptions) "all")
    (orElse (cliStatus cliOptions) "publish")
    (orElse (cliMode cliOptions) "sync")
    (cliDryRun cliOptions)
    100%Z
    30000%Z.

Definition validTypes : list string := ["posts"; "pages"; "all"].
Definition validStatuses : list string := ["publish"; "draft"; "all"].
Definition validModes : list string := ["create"; "update"; "sync"].

(** [validateConfig(config)]: the first failing test throws. *)
Definition validateConfig (config : ConfigObject) : Result unit :=
  if String.eqb (url config) "" then
    Throw "WordPress URL is required. Set WP_REMOTE_URL in .env or use --url option."
  else if String.eqb (user config) "" || String.eqb (appPassword config) ""
  then
    Throw "WordPress credentials are required. Set WP_REMOTE_USER and WP_REMOTE_APP_PASSWORD in .env."
  else if negb (includes validTypes (contentType config)) then
    Throw ("Invalid content type: " ++ contentType config ++ ". Use: "
           ++ Text.joinWith ", " validTypes)
  else if negb (includes validStatuses (postStatus config)) then
    Throw ("Invalid status: " ++ postStatus config ++ ". Use: "
           ++ Text.joinWith ", " validStatuses)
  else if negb (includes validModes (importMode config)) then
    Throw ("Invalid import mode: " ++ importMode config ++ ". Use: "
           ++ Text.joinWith ", " validModes)
  else Ok tt.

(** What [main] of the import script passes on to [importItem]. *)
Definition forImport (config : ConfigObject) : WpImport.Config :=
  WpImport.mkConfig (importDir config) (importMode config).

End WpConfig.

(** ** [wp-export.js]: the prefixes of a plugin *)

Module WpExportPrefixes.
Import JS MediaHandler.

(** [s.split(sep)] for a one-character separator. *)
Fixpoint split (sep : ascii) (s : string) : list string :=
  match s with
  | EmptyString => [EmptyString]
  | String c t =>
      if Ascii.eqb c sep then EmptyString :: split sep t
      else match split sep t with
           | piece :: rest => String c piece :: rest
           | [] => [String c EmptyString]
           end
  end.

(** [/^\d+$/.test(p)]. *)
Definition allDigits (p : string) : bool :=
  negb (String.eqb p "") && forallb isDigit (Path.chars p).

Definition commonSuffixes : list string :=
  ["pro"; "premium"; "lite"; "free"; "plus"].

(** [slug.replace(/-(pro|premium|lite|free|plus)$/i, '')]: no alternative
    has a hyphen, so a match starts at the last hyphen of the slug. *)
Definition dropSuffix (slug : string) : string :=
  match find (fun x => WpImport.endsWith (toLowerCase slug) ("-" ++ x))
             commonSuffixes with
  | Some x =>
      substring 0 (String.length slug - String.length ("-" ++ x)) slug
  | None => slug
  end.

Definition commonPrefixes : list string :=
  ["seo-by-"; "wordpress-"; "wp-"; "simple-"; "easy-"; "advanced-";
   "ultimate-"].

(** [slug.replace(/^(seo-by-|wordpress-|wp-|...)/, '')]: the first
    alternative that matches at the start is removed. *)
Definition dropPrefix (slug : string) : string :=
  match find (startsWith slug) commonPrefixes with
  | Some x =>
      substring (String.length x) (String.length slug - String.length x) slug
  | None => slug
  end.

(** [p[0]], as [join] prints it. *)
Definition firstChar (p : string) : string :=
  match p with
  | EmptyString => EmptyString
  | String c _ => String c EmptyString
  end.

(** [parts.slice(-2)]. *)
Definition lastTwo (parts : list string) : list string :=
  skipn (List.length parts - 2) parts.

Definition knownVariations : list (string * list string) :=
  [("seo-by-rank-math", ["rank_math"; "rankmath"]);
   ("wordpress-seo", ["wpseo"; "yoast_wpseo"; "_yoast"]);
   ("all-in-one-seo-pack", ["aioseo"; "_aioseo"]);
   ("contact-form-7", ["wpcf7"]);
   ("wpforms-lite", ["wpforms"]);
   ("advanced-custom-fields", ["acf"; "_acf"]);
   ("elementor", ["_elementor"]);
   ("woocommerce", ["wc_"; "_wc"]);
   ("jetpack", ["_jetpack"]);
   ("updraftplus", ["updraft_"]);
   ("wordfence", ["wf_"; "wordfence_"]);
   ("all-in-one-wp-migration", ["ai1wm_"])].

(** The names that every object literal inherits from [Object.prototype]:
    [knownVariations[slug]] is a function, or the prototype itself, for
    them: truthy, and not iterable. *)
Definition inheritedNames : list string :=
  ["constructor"; "__defineGetter__"; "__defineSetter__"; "hasOwnProperty";
   "__lookupGetter__"; "__lookupSetter__"; "isPrototypeOf";
   "propertyIsEnumerable"; "toString"; "valueOf"; "__proto__";
   "toLocaleString"].

(** [generatePrefixesFromSlug(slug, textDomain)], for a text domain that is
    a string or [null]. The [Set] keeps the order of insertion. *)
Definition generatePrefixesFromSlug (slug : string)
                                    (textDomain : option string)
  : Result (list string) :=
  let prefixes := set_add (replaceChar "-" "_" slug) [] in
  let prefixes := set_add slug prefixes in
  let prefixes :=
    match textDomain with
    | Some domain =>
        if negb (String.eqb domain "") && negb (String.eqb domain slug) then
          set_add (replaceChar "-" "_" domain) (set_add domain prefixes)
        else prefixes
    | None => prefixes
    end in
  let cleanSlug := dropSuffix slug in
  let prefixes := set_add (replaceChar "-" "_" cleanSlug) prefixes in
  let withoutCommonPrefixes := dropPrefix slug in
  let prefixes :=
    if negb (String.eqb withoutCommonPrefixes slug) then
      set_add (replaceChar "-" "_" withoutCommonPrefixes)
              (set_add withoutCommonPrefixes prefixes)
    else prefixes in
  let parts :=
    filter (fun p => negb (String.eqb p "") && negb (allDigits p))
           (split "-" cleanSlug) in
  let prefixes :=
    if (1 <? List.length parts)%nat then
      let initials := Text.joinWith "" (map firstChar parts) in
      if (2 <=? String.length initials)%nat then set_add initials prefixes
      else prefixes
    else prefixes in
  let prefixes :=
    match parts with
    | first :: _ => set_add first prefixes
    | [] => prefixes
    end in
  let prefixes :=
    if (2 <=? List.length parts)%nat then
      set_add (Text.joinWith "-" (lastTwo parts))
              (set_add (Text.joinWith "_" (lastTwo parts)) prefixes)
    else prefixes in
  match alist_get slug knownVariations with
  | Some variations =>
      Ok (fold_left (fun set variation => set_add variation set)
                    variations prefixes)
  | None =>
      if includes inheritedNames slug then
        Throw "knownVariations[slug] is not iterable"
      else Ok prefixes
  end.

(** The descriptor that [fetchInstalledPlugins] makes for Contact Form 7,
    and some site options. *)
Definition contactForm7 : WpExport.Plugin :=
  WpExport.mkPlugin "contact-form-7" "Contact Form 7"
    ["contact_form_7"; "contact-form-7"; "cf"; "contact"; "contact_form";
     "contact-form"; "wpcf7"] false.

Definition formOptions : JsObject :=
  [("blogname", JStr "b"); ("contact_form_7_version", JStr "5.8")].

End WpExportPrefixes.

(** ** The shape of names

    The names that [safeDirName] and [generateFilename] aim at, as tests on
    strings. *)

Module Shapes.
Import JS.

Fixpoint allChars (p : ascii -> bool) (s : string) : bool :=
  match s with
  | EmptyString => true
  | String c t => p c && allChars p t
  end.

(** The class [[a-z0-9-]]. *)
Definition isNameChar (c : ascii) : bool :=
  isLower c || isDigit c || Ascii.eqb c "-".

Definition startsHyphen (s : string) : bool :=
  match s with
  | EmptyString => false
  | String c _ => Ascii.eqb c "-"
  end.

Fixpoint noDoubleHyphen (s : string) : bool :=
  match s with
  | EmptyString => true
  | String c t => negb (Ascii.eqb c "-" && startsHyphen t) && noDoubleHyphen t
  end.

(** Lower-case letters, digits and single hyphens, none of them at an
    end. *)
Definition isSafeName (s : string) : bool :=
  allChars isNameChar s && negb (startsHyphen s)
  && negb (MediaHandler.endsWithChar "-" s) && noDoubleHyphen s.

Definition notHyphen (c : ascii) : bool := negb (Ascii.eqb c "-").

(** The class [[a-z0-9]]. *)
Definition isLowerAlnum (c : ascii) : bool := isLower c || isDigit c.

(** The characters of [s] that satisfy [p], in order. *)
Fixpoint keep (p : ascii -> bool) (s : string) : string :=
  match s with
  | EmptyString => EmptyString
  | String c t => if p c then String c (keep p t) else keep p t
  end.

(** No dot. *)
Definition noDot (s : string) : bool :=
  allChars (fun c => negb (Ascii.eqb c ".")) s.

(** The extension that [generateFilename] gives the name of a URL whose
    path has the base name [originalName]. *)
Definition chosenExtension (originalName : string) : string :=
  if String.eqb (Path.extname originalName) "" then ".jpg"
  else Path.extname originalName.

(** No path separator. *)
Definition noSlash (s : string) : bool :=
  allChars (fun c => negb (Ascii.eqb c "/")) s.

(** A digit of a hex digest. *)
Definition isHexChar (c : ascii) : bool := isDigit c || inRange 97 102 c.

End Shapes.

(** ** The loops of [main] in the import script *)

Module WpImportMain.
Import JS MediaHandler WpImport.
Local Open Scope run_scope.

(** [stats.posts] or [stats.pages]. *)
Record Counts : Type := mkCounts {
  created : nat;
  updated : nat;
  skipped : nat;
  failed : nat
}.

(** [stats]: the counters of both types and the set of extensions; the
    counter [mediaUploaded] is in the state of the run. *)
Record Stats : Type := mkStats {
  posts : Counts;
  pages : Counts;
  extensions : list string
}.

Definition noCounts : Counts := mkCounts 0 0 0 0.

Definition total (c : Counts) : nat :=
  created c + updated c + skipped c + failed c.

(** [result.extensions.forEach(ext => stats.extensions.add(ext))], for a
    result that has the field. *)
Definition noteExtensions (r : ItemResult) (seen : list string)
  : list string :=
  match r with
  | Done _ _ _ found => fold_left (fun s ext => set_add ext s) found seen
  | _ => seen
  end.

(** The counter that the [action] of a result moves. *)
Definition tally (r : ItemResult) (c : Counts) : Counts :=
  let action := resultAction r in
  if String.eqb action "create" || String.eqb action "would-create" then
    mkCounts (S (created c)) (updated c) (skipped c) (failed c)
  else if String.eqb action "update" || String.eqb action "would-update" then
    mkCounts (created c) (S (updated c)) (skipped c) (failed c)
  else mkCounts (created c) (updated c) (S (skipped c)) (failed c).

Definition oneFailed (c : Counts) : Counts :=
  mkCounts (created c) (updated c) (skipped c) (S (failed c)).

(** [post] or [page], as the error line of each loop has it. *)
Definition singular (type : string) : string :=
  if String.eqb type "posts" then "post" else "page".

(** The extension [extends] of [only]: the events added satisfy [ok], and
    the upload counter does not go down. *)
Definition extends {A} (ok : Event -> bool) (m : M A) : Prop :=
  forall st, exists added,
    trace (snd (m st)) = (trace st ++ added)%list /\
    Forall (fun e => ok e = true) added /\
    mediaUploaded st <= mediaUploaded (snd (m st)).

(** Any event. *)
Definition anything (e : Event) : bool := true.

(** The events of the upload of one file: the file is read, and then, if
    it could be read, posted; a line is logged either way. *)
Definition uploadEvents (path : string) (added : list Event) : Prop :=
  exists later,
    added = ReadFile path :: later /\
    Forall (fun e => e = MediaUpload path \/
                     exists message, e = Log "verbose" message) later.

Section Loops.
Variable env : Env.
Variable options : Options.

(** [listSubdirs(dirPath)]. An entry that is not a regular file is a
    directory: the file system of the model has no other kind. *)
Definition listSubdirs (dirPath : string) : M (list string) :=
  found <- pathExists env dirPath ;;
  if negb found then ret []
  else
    entries <- readdir env dirPath ;;
    ret (map fst (filter (fun entry => negb (snd entry)) entries)).

(** The loop over the slugs of one type: an item that throws is logged
    and counted as failed, and the loop goes on. *)
Fixpoint importEach (type : string) (config : Config) (slugs : list string)
                    (counts : Counts) (seen : list string)
  : M (Counts * list string) :=
  match slugs with
  | [] => ret (counts, seen)
  | slug :: rest =>
      next <-
        catch
          (result <- importItem env options slug type config ;;
           ret (tally result counts, noteExtensions result seen))
          (fun message =>
             log "error" ("Failed to import " ++ singular type ++ " " ++ slug
                          ++ ": " ++ message) ;;
             ret (oneFailed counts, seen)) ;;
      importEach type config rest (fst next) (snd next)
  end.

(** The block of [main] for one type: the subdirectories of the type's
    directory are the slugs. The empty lines that [console.log()] prints
    between the blocks are not events. *)
Definition importType (type : string) (config : Config) (counts : Counts)
                      (seen : list string) : M (Counts * list string) :=
  log "info" ("Processing " ++ type ++ "...") ;;
  slugs <- listSubdirs (Path.join [importDir config; type]) ;;
  if Nat.eqb (List.length slugs) 0 then
    log "info" ("No " ++ type ++ " found to import") ;;
    ret (counts, seen)
  else
    log "info" ("Found " ++ showNat (List.length slugs) ++ " " ++ type) ;;
    importEach type config slugs counts seen.

(** The two blocks, as [config.contentType] selects them. *)
Definition importContent (contentType : string) (config : Config)
                         (stats : Stats) : M Stats :=
  afterPosts <-
    (if String.eqb contentType "posts" || String.eqb contentType "all" then
       done <- importType "posts" config (posts stats) (extensions stats) ;;
       ret (mkStats (fst done) (pages stats) (snd done))
     else ret stats) ;;
  if String.eqb contentType "pages" || String.eqb contentType "all" then
    done <- importType "pages" config (pages afterPosts)
                       (extensions afterPosts) ;;
    ret (mkStats (posts afterPosts) (fst done) (snd done))
  else ret afterPosts.

End Loops.

(** *** The object sent on create and update *)

(** [metadata.name], for metadata that is not [null] or [undefined]. *)
Definition fieldOf (metadata : JsValue) (name : string) : JsValue :=
  match getProp metadata name with
  | Ok v => v
  | Throw _ => JUndefined
  end.

(** [v !== undefined]. *)
Definition isDefined (v : JsValue) : bool :=
  match v with
  | JUndefined => false
  | _ => true
  end.

(** The metadata of a sticky post in one category. *)
Definition stickyPost : JsValue :=
  JObj [("slug", JStr "hello"); ("title", JStr "Hello");
        ("status", JStr "publish"); ("categories", JArr [JNum 3]);
        ("tags", JArr []); ("sticky", JBool false); ("id", JNum 12)].

(** *** The merge of the metadata files *)

(** The value under [key] in the last of the [sources] that has it. *)
Fixpoint lookupLast (key : string) (sources : list JsObject)
  : option JsValue :=
  match sources with
  | [] => None
  | source :: rest =>
      match lookupLast key rest with
      | Some v => Some v
      | None => alist_get key (rev source)
      end
  end.

(** The group files of an item: its JSON files but the three reserved
    ones, in the order of the listing. *)
Definition groupFiles (entries : list (string * bool)) : list string :=
  filter (fun file => negb (includes nonExtensionFiles file))
         (filter (fun file => endsWith file ".json")
                 (map fst (filter snd entries))).

(** A readable JSON file. *)
Definition holdsJson (env : Env) (path : string) (data : JsValue) : Prop :=
  exists f, fs env path = Some (RegularFile f) /\ json f = Some data.

(** A page with two group files and a remainder file that share keys. *)
Definition aboutFs (path : string) : option Node :=
  if String.eqb path "export/pages/about" then
    Some (Directory [("metadata.json", true); ("seo.json", true);
                     ("acf.json", true); ("meta.json", true);
                     ("media", false)])
  else if String.eqb path "export/pages/about/seo.json" then
    Some (RegularFile (mkFile "{...}"
            (Some (JObj [("title", JStr "A"); ("desc", JStr "B")]))))
  else if String.eqb path "export/pages/about/acf.json" then
    Some (RegularFile (mkFile "{...}" (Some (JObj [("title", JStr "C")]))))
  else if String.eqb path "export/pages/about/meta.json" then
    Some (RegularFile (mkFile "{...}" (Some (JObj [("desc", JStr "D")]))))
  else None.

(** The export directory of that page: one page and a stray file. *)
Definition siteFs (path : string) : option Node :=
  if String.eqb path "export/pages" then
    Some (Directory [("about", false); ("notes.txt", true)])
  else aboutFs path.

End WpImportMain.
(** * Properties *)

(** ** Association lists *)

Module AlistFacts.
Import JS.

Section Facts.
Context {V : Type}.
Implicit Types (l : list (string * V)) (k : string).

Lemma alist_get_set k' k (v : V) l :
  alist_get k' (alist_set k v l) =
  if String.eqb k' k then Some v else alist_get k' l.
Proof.
  induction l as [|[a b] t IH]; simpl.
  - destruct (String.eqb k' k); reflexivity.
  - destruct (String.eqb_spec k a) as [->|Hka]; simpl.
    + destruct (String.eqb k' a); reflexivity.
    + destruct (String.eqb_spec k' a) as [->|Hk'a].
      * destruct (String.eqb_spec a k); congruence.
      * exact IH.
Qed.

Lemma alist_get_update k' k (f : V -> V) l :
  alist_get k' (alist_update k f l) =
  if String.eqb k' k then option_map f (alist_get k l) else alist_get k' l.
Proof.
  induction l as [|[a b] t IH]; simpl.
  - destruct (String.eqb k' k); reflexivity.
  - destruct (String.eqb_spec k a) as [->|Hka]; simpl.
    + destruct (String.eqb k' a); reflexivity.
    + destruct (String.eqb_spec k' a) as [->|Hk'a].
      * destruct (String.eqb_spec a k); congruence.
      * exact IH.
Qed.

Lemma alist_has_get k l :
  alist_has k l = false <-> alist_get k l = None.
Proof.
  unfold alist_has. destruct (alist_get k l); split; congruence.
Qed.

Lemma in_keys_set x k (v : V) l :
  In x (keys (alist_set k v l)) <-> x = k \/ In x (keys l).
Proof.
  induction l as [|[a b] t IH]; simpl.
  - intuition.
  - destruct (String.eqb_spec k a) as [->|Hka]; simpl.
    + intuition.
    + rewrite IH. intuition.
Qed.

Lemma obj_set_other k (v : V) l :
  k <> "__proto__" -> obj_set k v l = alist_set k v l.
Proof.
  intros Hk. unfold obj_set.
  now destruct (String.eqb_spec k "__proto__").
Qed.

Lemma obj_set_proto (v : V) l : obj_set "__proto__" v l = l.
Proof. reflexivity. Qed.

Lemma in_keys_obj_set x k (v : V) l :
  In x (keys (obj_set k v l)) <->
  (x = k /\ k <> "__proto__") \/ In x (keys l).
Proof.
  unfold obj_set. destruct (String.eqb_spec k "__proto__") as [->|Hk].
  - split; [now right|]. intros [[_ H]|H]; [now destruct H | assumption].
  - rewrite in_keys_set. intuition.
Qed.

Lemma alist_get_obj_set k' k (v : V) l :
  alist_get k' (obj_set k v l) =
  if String.eqb k' k && negb (String.eqb k "__proto__") then Some v
  else alist_get k' l.
Proof.
  unfold obj_set. destruct (String.eqb k "__proto__").
  - now rewrite andb_false_r.
  - rewrite andb_true_r. apply alist_get_set.
Qed.

Lemma in_keys_assign x (target source : list (string * V)) :
  In x (keys (Object_assign target source)) <->
  In x (keys target) \/ (In x (keys source) /\ x <> "__proto__").
Proof.
  unfold Object_assign. revert target.
  induction source as [|[a b] t IH]; intros target; simpl.
  - intuition.
  - rewrite IH, in_keys_obj_set. simpl. split.
    + intros [[[-> H]|H]|H]; auto. tauto.
    + intros [H|[[<-|H] Hx]]; auto.
Qed.

Lemma alist_get_in k l (v : V) : alist_get k l = Some v -> In (k, v) l.
Proof.
  induction l as [|[a b] t IH]; simpl; [discriminate|].
  destruct (String.eqb_spec k a) as [->|_].
  - intros [= ->]. now left.
  - intros H. right. auto.
Qed.

Lemma in_alist_get k l (v : V) :
  NoDup (keys l) -> In (k, v) l -> alist_get k l = Some v.
Proof.
  induction l as [|[a b] t IH]; simpl; [tauto|].
  intros Hnd [[= -> ->]|Hin].
  - now rewrite String.eqb_refl.
  - inversion Hnd as [|? ? Hnot Hnd']; subst.
    destruct (String.eqb_spec k a) as [->|_].
    + exfalso. apply Hnot. change a with (fst (a, v)). now apply in_map.
    + auto.
Qed.

Lemma keys_update k (f : V -> V) l : keys (alist_update k f l) = keys l.
Proof.
  induction l as [|[a b] t IH]; simpl; [reflexivity|].
  destruct (String.eqb k a); simpl; [reflexivity|]. now rewrite IH.
Qed.

Lemma NoDup_keys_set k (v : V) l :
  NoDup (keys l) -> NoDup (keys (alist_set k v l)).
Proof.
  induction l as [|[a b] t IH]; simpl; intros Hnd.
  - constructor; [simpl; tauto | constructor].
  - inversion Hnd as [|? ? Hnot Hnd']; subst.
    destruct (String.eqb_spec k a) as [->|Hka]; simpl.
    + now constructor.
    + constructor; [|auto].
      change (~ In a (keys (alist_set k v t))).
      rewrite in_keys_set. intros [->|H]; [congruence | contradiction].
Qed.
End Facts.

Lemma set_has_in k s : set_has k s = true <-> In k s.
Proof.
  unfold set_has. rewrite existsb_exists. split.
  - intros [x [Hx He]]. apply String.eqb_eq in He. now subst.
  - intros H. exists k. split; [assumption | apply String.eqb_refl].
Qed.

Lemma set_has_not_in k s : set_has k s = false <-> ~ In k s.
Proof.
  rewrite <- set_has_in. destruct (set_has k s); split; congruence.
Qed.

Lemma in_set_add x k s : In x (set_add k s) <-> x = k \/ In x s.
Proof.
  unfold set_add. destruct (set_has k s) eqn:E.
  - apply set_has_in in E. split; [tauto|]. intros [->|H]; assumption.
  - rewrite in_app_iff. simpl. intuition.
Qed.

Lemma includes_in l k : includes l k = true <-> In k l.
Proof. exact (set_has_in k l). Qed.

End AlistFacts.
(** ** The classifier's loops *)

Module ClassifierFacts.
Import JS WpExport AlistFacts.

Lemma holds_assignTo p key value st k s :
  holds (grouped (assignTo p key value st)) k s <->
  holds (grouped st) k s \/ (k = key /\ s = slug p /\ key <> "__proto__").
Proof.
  unfold holds, assignTo; simpl.
  rewrite alist_get_update.
  destruct (String.eqb_spec s (slug p)) as [->|Hs].
  - destruct (alist_has (slug p) (grouped st)) eqn:Hhas.
    + unfold alist_has in Hhas.
      destruct (alist_get (slug p) (grouped st)) as [g0|] eqn:Hg; [|discriminate].
      simpl. split.
      * intros [grp [[= <-] Hin]]. simpl in Hin.
        apply in_keys_obj_set in Hin as [[-> Hk]|Hin]; [now right|].
        left. eauto.
      * intros [[grp [[= <-] Hin]]|[-> [_ Hk]]].
        -- eexists; split; [reflexivity|]. simpl. apply in_keys_obj_set.
           now right.
        -- eexists; split; [reflexivity|]. simpl. apply in_keys_obj_set.
           now left.
    + apply alist_has_get in Hhas. rewrite alist_get_set, String.eqb_refl.
      simpl. rewrite Hhas. split.
      * intros [grp [[= <-] Hin]]. simpl in Hin.
        apply in_keys_obj_set in Hin as [[-> Hk]|[]]. now right.
      * intros [[grp [[=] _]]|[-> [_ Hk]]].
        eexists; split; [reflexivity|]. simpl. apply in_keys_obj_set.
        now left.
  - destruct (alist_has (slug p) (grouped st)).
    + intuition.
    + rewrite alist_get_set.
      destruct (String.eqb_spec s (slug p)); [contradiction|]. intuition.
Qed.

Lemma assigned_assignTo p key value st k :
  In k (assignedKeys (assignTo p key value st)) <->
  k = key \/ In k (assignedKeys st).
Proof. unfold assignTo; simpl. apply in_set_add. Qed.

(** On a key not yet assigned, the loop over the sorted plugins stops at
    the first plugin with a matching prefix. *)
Lemma tryPlugins_first key value ps st :
  ~ In key (assignedKeys st) ->
  tryPlugins key value ps st =
  match firstMatch ps key with
  | Some p => assignTo p key value st
  | None => st
  end.
Proof.
  intros Hfresh. apply set_has_not_in in Hfresh. unfold firstMatch.
  induction ps as [|p rest IH]; simpl; [reflexivity|].
  destruct (matchesPlugin key p) eqn:Hm.
  - assert (H : set_has key (assignedKeys (assignTo p key value st)) = true).
    { apply set_has_in, assigned_assignTo. now left. }
    now rewrite H.
  - now rewrite Hfresh.
Qed.

Lemma eligible_split key value :
  eligible key value =
  negb (isEmpty value) && negb (includes skipKeys key)
  && negb (hasSkipPrefix key).
Proof.
  unfold eligible, reserved.
  destruct (isEmpty value), (includes skipKeys key), (hasSkipPrefix key);
    reflexivity.
Qed.

Lemma matchKnown_eq sorted st key value :
  ~ In key (assignedKeys st) ->
  matchKnown sorted st (key, value) =
  if eligible key value then
    match firstMatch sorted key with
    | Some p => assignTo p key value st
    | None => st
    end
  else st.
Proof.
  intros Hfresh. unfold matchKnown. rewrite eligible_split.
  destruct (isEmpty value); [reflexivity|].
  destruct (includes skipKeys key); [reflexivity|].
  destruct (hasSkipPrefix key); [reflexivity|].
  now apply tryPlugins_first.
Qed.

Lemma matchedBy_cons sorted key value rest k s :
  matchedBy sorted ((key, value) :: rest) k s <->
  (k = key /\ eligible key value = true /\
   exists p, firstMatch sorted key = Some p /\ s = slug p)
  \/ matchedBy sorted rest k s.
Proof.
  unfold matchedBy. split.
  - intros [v [p [[[= -> ->]|Hin] [He [Hf Hs]]]]].
    + left. eauto.
    + right. exists v, p. auto.
  - intros [[-> [He [p [Hf Hs]]]]|[v [p [Hin H]]]].
    + exists value, p. simpl. auto.
    + exists v, p. simpl. auto.
Qed.

(** The first loop: a key is assigned to the first sorted descriptor that
    matches it, and it is in the group of that descriptor, and nowhere
    else, unless it is [__proto__]. *)
Lemma firstLoop_spec sorted entries st :
  NoDup (keys entries) ->
  (forall k, In k (assignedKeys st) -> ~ In k (keys entries)) ->
  let st' := fold_left (matchKnown sorted) entries st in
  (forall k s, holds (grouped st') k s <->
               holds (grouped st) k s \/ claimedBy sorted entries k s) /\
  (forall k, In k (assignedKeys st') <->
             In k (assignedKeys st) \/ exists s, matchedBy sorted entries k s).
Proof.
  revert st. induction entries as [|[key value] rest IH]; intros st Hnd Hdisj.
  - simpl. split; intros k; [intros s|]; split; auto.
    + intros [H|[_ [v [p [[] _]]]]]. assumption.
    + intros [H|[s [v [p [[] _]]]]]. assumption.
  - inversion Hnd as [|? ? Hnot Hnd']; subst.
    assert (Hfresh : ~ In key (assignedKeys st)).
    { intros H. apply (Hdisj _ H). now left. }
    cbn [fold_left]. rewrite (matchKnown_eq _ _ _ _ Hfresh).
    set (st1 := if eligible key value then _ else st).
    assert (Hh : forall k s, holds (grouped st1) k s <->
              holds (grouped st) k s \/
              (k <> "__proto__" /\ k = key /\ eligible key value = true /\
               exists p, firstMatch sorted key = Some p /\ s = slug p)).
    { intros k s. subst st1. destruct (eligible key value).
      - destruct (firstMatch sorted key) as [p|].
        + rewrite holds_assignTo. split.
          * intros [H|[-> [-> Hk]]]; [now left|]. right. eauto 6.
          * intros [H|[Hk [-> [_ [q [[= <-] ->]]]]]]; auto.
        + split; [now left|]. intros [H|[_ [_ [_ [q [[=] _]]]]]]. assumption.
      - split; [now left|]. intros [H|[_ [_ [[=] _]]]]. assumption. }
    assert (Ha : forall k, In k (assignedKeys st1) <->
              In k (assignedKeys st) \/
              (k = key /\ eligible key value = true /\
               exists p, firstMatch sorted key = Some p)).
    { intros k. subst st1. destruct (eligible key value).
      - destruct (firstMatch sorted key) as [p|].
        + rewrite assigned_assignTo. split.
          * intros [->|H]; [|now left]. right. eauto.
          * intros [H|[-> _]]; auto.
        + split; [now left|]. intros [H|[_ [_ [q [=]]]]]. assumption.
      - split; [now left|]. intros [H|[_ [[=] _]]]. assumption. }
    destruct (IH st1 Hnd') as [IHh IHa].
    { intros k Hk Hin. apply Ha in Hk as [Hk|[-> _]].
      - apply (Hdisj _ Hk). now right.
      - contradiction. }
    split.
    + intros k s. rewrite IHh, Hh. unfold claimedBy.
      rewrite matchedBy_cons. tauto.
    + intros k. rewrite IHa, Ha. split.
      * intros [[H|[-> [He [p Hp]]]]|[s Hs]].
        -- now left.
        -- right. exists (slug p). apply matchedBy_cons. left. eauto.
        -- right. exists s. apply matchedBy_cons. now right.
      * intros [H|[s Hs]]; [tauto|].
        apply matchedBy_cons in Hs as [[-> [He [p [Hp _]]]]|Hs]; eauto 7.
Qed.

Lemma found_add (u : list (string * JsObject)) prefix key value k p :
  found (alist_update prefix (alist_set (V:=JsValue) key value)
           (if alist_has prefix u then u else alist_set prefix [] u)) k p <->
  found u k p \/ (k = key /\ p = prefix).
Proof.
  unfold found. rewrite alist_get_update.
  destruct (String.eqb_spec p prefix) as [->|Hp].
  - destruct (alist_has prefix u) eqn:Hhas.
    + unfold alist_has in Hhas.
      destruct (alist_get prefix u) as [d0|] eqn:Hd; [|discriminate].
      simpl. split.
      * intros [d [E Hin]]. injection E as E. subst d.
        apply in_keys_set in Hin as [->|Hin]; [now right|]. left. eauto.
      * intros [[d [E Hin]]|[-> _]].
        -- injection E as E. subst d. eexists; split; [reflexivity|].
           apply in_keys_set. now right.
        -- eexists; split; [reflexivity|]. apply in_keys_set. now left.
    + apply alist_has_get in Hhas. rewrite alist_get_set, String.eqb_refl.
      simpl. rewrite Hhas. split.
      * intros [d [E Hin]]. injection E as E. subst d. simpl in Hin. intuition.
      * intros [[d [[=] _]]|[-> _]].
        eexists; split; [reflexivity|]. simpl. now left.
  - destruct (alist_has prefix u).
    + intuition.
    + rewrite alist_get_set.
      destruct (String.eqb_spec p prefix); [contradiction|]. intuition.
Qed.

Lemma in_alist_set {V} k (v : V) l : In (k, v) (alist_set k v l).
Proof.
  induction l as [|[a b] t IH]; simpl; [now left|].
  destruct (String.eqb k a); simpl; auto.
Qed.

Lemma worthAdding_set key value (d : JsObject) :
  isEmpty value = false -> worthAdding (alist_set key value d) = true.
Proof.
  intros Hv. unfold worthAdding. apply andb_true_intro. split.
  - apply Nat.leb_le. unfold keys. rewrite length_map.
    pose proof (in_alist_set key value d) as Hin.
    destruct (alist_set key value d); [destruct Hin | simpl; lia].
  - unfold hasMeaningfulContent. apply existsb_exists. exists value. split.
    + unfold values. change value with (snd (key, value)).
      apply in_map, in_alist_set.
    + now rewrite Hv.
Qed.

Lemma allWorthAdding_add (u : list (string * JsObject)) prefix key value :
  isEmpty value = false -> allWorthAdding u -> NoDup (keys u) ->
  allWorthAdding (alist_update prefix (alist_set key value)
                    (if alist_has prefix u then u else alist_set prefix [] u))
  /\ NoDup (keys (alist_update prefix (alist_set key value)
                    (if alist_has prefix u then u else alist_set prefix [] u))).
Proof.
  intros Hv Hall Hnd. split.
  - unfold allWorthAdding in *. induction Hall as [|[a b] t Hab Ht IH].
    + simpl. rewrite String.eqb_refl. constructor; [|constructor].
      apply (worthAdding_set key value []), Hv.
    + unfold alist_has in *. simpl.
      destruct (String.eqb_spec prefix a) as [->|Hne].
      * simpl. rewrite String.eqb_refl. constructor; [|assumption].
        apply (worthAdding_set key value b), Hv.
      * inversion Hnd; subst.
        destruct (alist_get prefix t) eqn:Hg; simpl;
          (destruct (String.eqb_spec prefix a); [contradiction|]);
          constructor; auto.
  - rewrite keys_update. destruct (alist_has prefix u);
      [assumption | now apply NoDup_keys_set].
Qed.

Lemma discover_eq st key value :
  discover st (key, value) =
  if negb (set_has key (assignedKeys2 st)) && eligible key value then
    match autoPrefix key with
    | Some prefix =>
        mkDiscovery
          (alist_update prefix (alist_set key value)
             (if alist_has prefix (unknownGroups st) then unknownGroups st
              else alist_set prefix [] (unknownGroups st)))
          (set_add key (assignedKeys2 st))
    | None => st
    end
  else st.
Proof.
  unfold discover, autoPrefix. rewrite eligible_split.
  destruct (set_has key (assignedKeys2 st)); [reflexivity|].
  destruct (isEmpty value); [reflexivity|]. cbn [orb negb andb].
  destruct (includes skipKeys key); [reflexivity|].
  destruct (hasSkipPrefix key); [reflexivity|]. cbn [negb andb].
  destruct (leadingToken key) as [prefix|] eqn:Ht; [|reflexivity].
  destruct (2 <=? String.length prefix)%nat; [|reflexivity].
  unfold obj_set. destruct (String.eqb_spec key "__proto__") as [->|_];
    [vm_compute in Ht; discriminate Ht | reflexivity].
Qed.

Lemma eligible_nonempty key value :
  eligible key value = true -> isEmpty value = false /\ reserved key = false.
Proof.
  unfold eligible. destruct (isEmpty value), (reserved key); simpl;
    auto; discriminate.
Qed.

Lemma discover_spec st key value :
  allWorthAdding (unknownGroups st) -> NoDup (keys (unknownGroups st)) ->
  let st' := discover st (key, value) in
  (forall k p, found (unknownGroups st') k p <->
               found (unknownGroups st) k p \/
               (k = key /\ added (assignedKeys2 st) key value p)) /\
  (forall k, In k (assignedKeys2 st') <->
             In k (assignedKeys2 st) \/
             (k = key /\ exists p, added (assignedKeys2 st) key value p)) /\
  allWorthAdding (unknownGroups st') /\ NoDup (keys (unknownGroups st')).
Proof.
  intros Hall Hnd. cbv zeta. unfold added. rewrite discover_eq.
  destruct (set_has key (assignedKeys2 st)) eqn:Hhas; cbn [negb andb].
  - apply set_has_in in Hhas.
    split; [intros k p | split; [intros k | split; assumption]].
    + split; [now left|].
      intros [H|[_ [_ [Hn _]]]]; [assumption | contradiction].
    + split; [now left|].
      intros [H|[_ [p [_ [Hn _]]]]]; [assumption | contradiction].
  - apply set_has_not_in in Hhas.
    destruct (eligible key value) eqn:He.
    + destruct (autoPrefix key) as [prefix|] eqn:Hp;
        cbn [unknownGroups assignedKeys2].
      * destruct (eligible_nonempty _ _ He) as [Hv _].
        destruct (allWorthAdding_add _ prefix key value Hv Hall Hnd) as [Hw Hn].
        split; [intros k p | split; [intros k | split; assumption]].
        -- rewrite found_add. split.
           ++ intros [H|[-> ->]]; auto.
           ++ intros [H|[-> [_ [_ [= <-]]]]]; auto.
        -- rewrite in_set_add. split.
           ++ intros [->|H]; eauto 6.
           ++ intros [H|[-> _]]; auto.
      * split; [intros k p | split; [intros k | split; assumption]].
        -- split; [now left|]. intros [H|[_ [_ [_ [=]]]]]. assumption.
        -- split; [now left|]. intros [H|[_ [p [_ [_ [=]]]]]]. assumption.
    + split; [intros k p | split; [intros k | split; assumption]].
      * split; [now left|]. intros [H|[_ [[=] _]]]. assumption.
      * split; [now left|]. intros [H|[_ [p [[=] _]]]]. assumption.
Qed.

Lemma secondLoop_spec entries st :
  allWorthAdding (unknownGroups st) -> NoDup (keys (unknownGroups st)) ->
  let st' := fold_left discover entries st in
  (forall k p, found (unknownGroups st') k p <->
               found (unknownGroups st) k p \/
               tokenized entries (assignedKeys2 st) k p) /\
  (forall k, In k (assignedKeys2 st') <->
             In k (assignedKeys2 st) \/
             exists p, tokenized entries (assignedKeys2 st) k p) /\
  allWorthAdding (unknownGroups st') /\ NoDup (keys (unknownGroups st')).
Proof.
  revert st. induction entries as [|[key value] rest IH]; intros st Hall Hnd.
  - simpl. split; [intros k p | split; [intros k | split; assumption]].
    + split; [now left|]. intros [H|[v [[] _]]]. assumption.
    + split; [now left|]. intros [H|[p [v [[] _]]]]. assumption.
  - cbn [fold_left].
    destruct (discover_spec st key value Hall Hnd) as [Hf [Ha [Hall1 Hnd1]]].
    set (st1 := discover st (key, value)) in *.
    destruct (IH st1 Hall1 Hnd1) as [IHf [IHa [IHall IHnd]]].
    cbv zeta in *.
    assert (Htok : forall k p,
      tokenized rest (assignedKeys2 st1) k p \/
      (k = key /\ added (assignedKeys2 st) key value p) <->
      tokenized ((key, value) :: rest) (assignedKeys2 st) k p).
    { intros k p. unfold tokenized, added. split.
      - intros [[v [Hin [He [Hn Hp]]]]|[-> H]].
        + exists v. simpl. repeat split; auto.
          intros H. apply Hn, Ha. now left.
        + exists value. simpl. auto.
      - intros [v [[[= -> ->]|Hin] [He [Hn Hp]]]]; [now right|].
        destruct (set_has k (assignedKeys2 st1)) eqn:Hk1.
        + apply set_has_in, Ha in Hk1 as [Hk1|[-> [p' [He' [Hn' Hp']]]]];
            [contradiction|].
          right. split; [reflexivity|]. repeat split; auto.
        + apply set_has_not_in in Hk1. left. exists v. auto. }
    split; [intros k p | split; [intros k | split; assumption]].
    + rewrite IHf, Hf, <- Htok. tauto.
    + rewrite IHa, Ha. split.
      * intros [[H|[-> [p H]]]|[p H]]; [now left| |].
        -- right. exists p. apply Htok. now right.
        -- right. exists p. apply Htok. now left.
      * intros [H|[p H]]; [tauto|].
        apply Htok in H as [H|[-> H]]; eauto.
Qed.

(** One turn of the third loop. *)
Lemma holds_addUnknown g prefix data k s :
  ~ In "__proto__" (keys data) ->
  holds (addUnknown g (prefix, data)) k s <->
  holds g k s \/
  (worthAdding data = true /\ In k (keys data) /\ s = slugOfPrefix prefix).
Proof.
  intros Hclean. unfold addUnknown.
  destruct (worthAdding data); [|split; [now left | intros [H|[[=] _]]; assumption]].
  unfold holds.
  destruct (alist_has (slugOfPrefix prefix) g) eqn:Hhas; cbn [negb].
  - rewrite alist_get_update. unfold alist_has in Hhas.
    destruct (String.eqb_spec s (slugOfPrefix prefix)) as [->|Hs]; [|tauto].
    destruct (alist_get (slugOfPrefix prefix) g) as [g0|]; [|discriminate].
    simpl. split.
    + intros [grp [[= <-] Hin]]. simpl in Hin.
      apply in_keys_assign in Hin as [Hin|[Hin _]]; [|tauto]. left. eauto.
    + intros [[grp [[= <-] Hin]]|[_ [Hin _]]];
        (eexists; split; [reflexivity|]); simpl; apply in_keys_assign;
        [now left|]. right. split; [assumption|]. now intros ->.
  - rewrite alist_get_set. apply alist_has_get in Hhas.
    destruct (String.eqb_spec s (slugOfPrefix prefix)) as [->|Hs]; [|tauto].
    rewrite Hhas. split.
    + intros [grp [[= <-] Hin]]. simpl in Hin. tauto.
    + intros [[grp [[=] _]]|[_ [Hin _]]]. eexists; split; [reflexivity|]. exact Hin.
Qed.

Lemma thirdLoop_spec u g k s :
  (forall prefix data, In (prefix, data) u ->
                       ~ In "__proto__" (keys data)) ->
  holds (fold_left addUnknown u g) k s <->
  holds g k s \/
  exists prefix data, In (prefix, data) u /\ worthAdding data = true /\
                      In k (keys data) /\ s = slugOfPrefix prefix.
Proof.
  revert g.
  induction u as [|[prefix data] rest IH]; cbn [fold_left]; intros g Hclean.
  - split; [now left|]. intros [H|[p [d [[] _]]]]. assumption.
  - rewrite IH by (intros p d Hd; apply (Hclean p d); now right).
    rewrite holds_addUnknown by (apply (Hclean prefix data); now left).
    split.
    + intros [[H|H]|[p [d [Hin H]]]]; [now left| |].
      * right. exists prefix, data. simpl. intuition.
      * right. exists p, d. simpl. intuition.
    + intros [H|[p [d [[[= -> ->]|Hin] H']]]]; [tauto|tauto|].
      right. exists p, d. tauto.
Qed.

(** With the invariants of the second loop, the third loop adds exactly
    the discovered keys. *)
Lemma thirdLoop_found u g k s :
  allWorthAdding u -> NoDup (keys u) ->
  (forall prefix, ~ found u "__proto__" prefix) ->
  holds (fold_left addUnknown u g) k s <->
  holds g k s \/ exists prefix, found u k prefix /\ s = slugOfPrefix prefix.
Proof.
  intros Hall Hnd Hclean. rewrite thirdLoop_spec.
  2:{ intros p d Hd Hk. apply (Hclean p). exists d.
      split; [now apply in_alist_get | assumption]. }
  split.
  - intros [H|[p [d [Hin [_ [Hk Hs]]]]]]; [now left|].
    right. exists p. split; [|assumption]. exists d.
    split; [now apply in_alist_get | assumption].
  - intros [H|[p [[d [Hd Hk]] Hs]]]; [now left|].
    right. exists p, d. apply alist_get_in in Hd.
    unfold allWorthAdding in Hall. rewrite Forall_forall in Hall.
    repeat split; auto. apply (Hall _ Hd).
Qed.

Lemma collectRemaining_eq a r key value :
  collectRemaining a r (key, value) =
  if negb (set_has key a) && eligible key value && looksLikePluginMeta key
  then alist_set key value r else r.
Proof.
  unfold collectRemaining, looksLikePluginMeta. rewrite eligible_split.
  destruct (set_has key a), (isEmpty value), (includes skipKeys key),
    (hasSkipPrefix key); try reflexivity.
  unfold obj_set. destruct (String.eqb_spec key "__proto__") as [->|_];
    reflexivity.
Qed.

Lemma noEmptyValue_set key value r :
  isEmpty value = false -> noEmptyValue r ->
  noEmptyValue (alist_set key value r).
Proof.
  intros Hv Hr. induction Hr as [|[a b] t Hab Ht IH]; simpl.
  - constructor; [assumption | constructor].
  - destruct (String.eqb key a); constructor; auto.
Qed.

Lemma lastLoop_spec a entries r :
  noEmptyValue r ->
  let r' := fold_left (collectRemaining a) entries r in
  (forall k, In k (keys r') <-> In k (keys r) \/ kept entries a k) /\
  noEmptyValue r'.
Proof.
  revert r. induction entries as [|[key value] rest IH]; intros r Hr.
  - simpl. split; [|assumption]. intros k. split; [now left|].
    intros [H|[v [[] _]]]. assumption.
  - cbv zeta. cbn [fold_left]. rewrite collectRemaining_eq.
    set (r1 := if negb (set_has key a) && eligible key value
                  && looksLikePluginMeta key
               then alist_set key value r else r).
    assert (H1 : (forall k, In k (keys r1) <->
                    In k (keys r) \/
                    (k = key /\ eligible key value = true /\ ~ In key a /\
                     looksLikePluginMeta key = true)) /\ noEmptyValue r1).
    { subst r1. destruct (set_has key a) eqn:Hhas; cbn [negb andb].
      - apply set_has_in in Hhas. split; [|assumption]. intros k.
        split; [now left|]. intros [H|[_ [_ [Hn _]]]]; [assumption|contradiction].
      - apply set_has_not_in in Hhas.
        destruct (eligible key value) eqn:He; cbn [andb].
        + destruct (looksLikePluginMeta key) eqn:Hl.
          * split.
            -- intros k. rewrite in_keys_set. split.
               ++ intros [->|H]; auto.
               ++ intros [H|[-> _]]; auto.
            -- apply noEmptyValue_set; [|assumption].
               now apply eligible_nonempty in He.
          * split; [|assumption]. intros k. split; [now left|].
            intros [H|[_ [_ [_ [=]]]]]. assumption.
        + split; [|assumption]. intros k. split; [now left|].
          intros [H|[_ [[=] _]]]. assumption. }
    destruct H1 as [Hk1 Hr1]. destruct (IH r1 Hr1) as [IHk IHr].
    split; [|assumption]. intros k. cbv zeta in IHk.
    etransitivity; [apply IHk|]. rewrite Hk1.
    unfold kept. split.
    + intros [[H|[-> H]]|[v [Hin H]]]; [now left| |].
      * right. exists value. simpl. intuition.
      * right. exists v. simpl. intuition.
    + intros [H|[v [[[= -> ->]|Hin] H']]]; [tauto|tauto|].
      right. exists v. tauto.
Qed.

Lemma hasMeaningfulContent_nonempty r k :
  noEmptyValue r -> In k (keys r) -> hasMeaningfulContent r = true.
Proof.
  intros Hr Hk. unfold hasMeaningfulContent, keys, values in *.
  apply in_map_iff in Hk as [[a b] [_ Hin]].
  apply existsb_exists. exists b. split.
  - change b with (snd (a, b)). now apply in_map.
  - unfold noEmptyValue in Hr. rewrite Forall_forall in Hr.
    specialize (Hr _ Hin). simpl in Hr. now rewrite Hr.
Qed.

Lemma NoDup_keys_value (entries : JsObject) k v v' :
  NoDup (keys entries) -> In (k, v) entries -> In (k, v') entries -> v = v'.
Proof.
  intros Hnd H1 H2. apply in_alist_get in H1, H2; auto. congruence.
Qed.

(** Where every key ends up: the classifier as a function of the three
    per-key tests. *)
Theorem groupMetaByPlugin_spec entries plugins :
  NoDup (keys entries) ->
  let c := groupMetaByPlugin entries plugins in
  let sorted := sortedPlugins plugins in
  (forall k s, inGroup c k s <->
     claimedBy sorted entries k s \/
     exists prefix, discoveredAs sorted entries k prefix /\
                    s = slugOfPrefix prefix) /\
  (forall k, inRemaining c k <-> leftOver sorted entries k).
Proof.
  intros Hnd c sorted. subst c. unfold groupMetaByPlugin, inGroup, inRemaining.
  fold sorted. cbv zeta. cbn [groups remaining].
  destruct (firstLoop_spec sorted entries (mkAssignment [] []) Hnd) as [H1h H1a];
    [simpl; tauto|]. cbv zeta in H1h, H1a.
  set (st1 := fold_left (matchKnown sorted) entries (mkAssignment [] [])) in *.
  assert (Hassigned : forall k v, In (k, v) entries -> eligible k v = true ->
            (~ In k (assignedKeys st1) <-> firstMatch sorted k = None)).
  { intros k v Hin He. rewrite H1a. simpl. split.
    - intros Hn. destruct (firstMatch sorted k) as [p|] eqn:Hf; [|reflexivity].
      exfalso. apply Hn. right. exists (slug p), v, p. auto.
    - intros Hf [[]|[s [v' [p [_ [_ [Hf' _]]]]]]]. congruence. }
  destruct (secondLoop_spec entries (mkDiscovery [] (assignedKeys st1)))
    as [H2f [H2a [H2w H2n]]]; [constructor | constructor |].
  cbv zeta in H2f, H2a. cbn [unknownGroups assignedKeys2] in H2f, H2a.
  set (st2 := fold_left discover entries (mkDiscovery [] (assignedKeys st1))) in *.
  assert (Htok : forall k p, tokenized entries (assignedKeys st1) k p <->
                             discoveredAs sorted entries k p).
  { intros k p. unfold tokenized, added, discoveredAs. split.
    - intros [v [Hin [He [Hn Hp]]]]. exists v.
      repeat split; auto. now apply (Hassigned k v).
    - intros [v [Hin [He [Hf Hp]]]]. exists v.
      repeat split; auto. now apply (Hassigned k v). }
  assert (Hclean : forall prefix,
            ~ found (unknownGroups st2) "__proto__" prefix).
  { intros prefix Hf. apply H2f in Hf as [[d [[=] _]]|[v [_ [_ [_ Hp]]]]].
    vm_compute in Hp. discriminate Hp. }
  split.
  - intros k s. rewrite (thirdLoop_found _ _ _ _ H2w H2n Hclean), H1h. split.
    + intros [[[grp [[=] _]]|H]|[p [Hf Hs]]]; [now left|].
      right. exists p. split; [|assumption]. apply Htok.
      apply H2f in Hf as [[d [[=] _]]|Hf]. assumption.
    + intros [H|[p [Hd Hs]]]; [now left; right|].
      right. exists p. split; [|assumption]. apply H2f. right. now apply Htok.
  - intros k.
    destruct (lastLoop_spec (assignedKeys2 st2) entries []) as [H4k H4v];
      [constructor|]. cbv zeta in H4k, H4v.
    set (rest := fold_left (collectRemaining (assignedKeys2 st2)) entries []) in *.
    assert (Hkept : In k (keys rest) <-> leftOver sorted entries k).
    { rewrite H4k. unfold kept, leftOver. split.
      - intros [[]|[v [Hin [He [Hn Hl]]]]]. exists v.
        assert (Hn1 : ~ In k (assignedKeys st1)).
        { intros H. apply Hn, H2a. now left. }
        repeat split; auto.
        + now apply (Hassigned k v).
        + destruct (autoPrefix k) as [p|] eqn:Hp; [|reflexivity].
          exfalso. apply Hn, H2a. right. exists p, v. unfold added. auto.
      - intros [v [Hin [He [Hf [Hp Hl]]]]]. right. exists v.
        repeat split; auto. intros H. apply H2a in H as [H|[p [v' [_ [_ [_ H]]]]]].
        + now apply (Hassigned k v Hin He).
        + congruence. }
    rewrite <- Hkept. split.
    + intros [r [Hr Hin]].
      destruct (hasMeaningfulContent rest); [|discriminate].
      now injection Hr as <-.
    + intros Hin. exists rest. split; [|assumption].
      now rewrite (hasMeaningfulContent_nonempty rest k H4v Hin).
Qed.

(** For a bag with unique keys the three outcomes are decided by the
    entry's own value. *)
Section PerKey.
Variables (sorted : list Plugin) (entries : JsObject).
Variables (key : string) (value : JsValue).
Hypothesis Hnd : NoDup (keys entries).
Hypothesis Hin : In (key, value) entries.

Lemma claimedBy_iff s :
  claimedBy sorted entries key s <->
  key <> "__proto__" /\ eligible key value = true /\
  exists p, firstMatch sorted key = Some p /\ s = slug p.
Proof.
  unfold claimedBy, matchedBy. split.
  - intros [Hk [v [p [Hv [He H]]]]].
    rewrite (NoDup_keys_value _ _ _ _ Hnd Hin Hv). eauto.
  - intros [Hk [He [p H]]]. split; [assumption|]. exists value, p. auto.
Qed.

Lemma discoveredAs_iff prefix :
  discoveredAs sorted entries key prefix <->
  eligible key value = true /\ firstMatch sorted key = None /\
  autoPrefix key = Some prefix.
Proof.
  unfold discoveredAs. split.
  - intros [v [Hv [He H]]].
    rewrite (NoDup_keys_value _ _ _ _ Hnd Hin Hv). auto.
  - intros [He H]. exists value. auto.
Qed.

Lemma leftOver_iff :
  leftOver sorted entries key <->
  eligible key value = true /\ firstMatch sorted key = None /\
  autoPrefix key = None /\ looksLikePluginMeta key = true.
Proof.
  unfold leftOver. split.
  - intros [v [Hv [He H]]].
    rewrite (NoDup_keys_value _ _ _ _ Hnd Hin Hv). auto.
  - intros [He H]. exists value. auto.
Qed.
End PerKey.

(** The placement of one entry of a bag with unique keys. *)
Lemma inGroup_iff (entries : JsObject) plugins key value :
  NoDup (keys entries) -> In (key, value) entries ->
  let c := groupMetaByPlugin entries plugins in
  let sorted := sortedPlugins plugins in
  forall s, inGroup c key s <->
    eligible key value = true /\
    ((key <> "__proto__" /\
      exists p, firstMatch sorted key = Some p /\ s = slug p) \/
     (exists prefix, firstMatch sorted key = None /\
        autoPrefix key = Some prefix /\ s = slugOfPrefix prefix)).
Proof.
  intros Hnd Hin c sorted s.
  destruct (groupMetaByPlugin_spec entries plugins Hnd) as [Hg _].
  fold c sorted in Hg.
  rewrite Hg, (claimedBy_iff sorted entries key value Hnd Hin). split.
  - intros [[Hk [He H]]|[prefix [H Hs]]]; [tauto|].
    apply (discoveredAs_iff sorted entries key value Hnd Hin) in H.
    split; [tauto|]. right. exists prefix. tauto.
  - intros [He [H|[prefix [Hf [Hp Hs]]]]]; [tauto|].
    right. exists prefix. split; [|assumption].
    apply (discoveredAs_iff sorted entries key value Hnd Hin). tauto.
Qed.

Lemma inRemaining_iff (entries : JsObject) plugins key value :
  NoDup (keys entries) -> In (key, value) entries ->
  let c := groupMetaByPlugin entries plugins in
  let sorted := sortedPlugins plugins in
  inRemaining c key <->
    eligible key value = true /\ firstMatch sorted key = None /\
    autoPrefix key = None /\ looksLikePluginMeta key = true.
Proof.
  intros Hnd Hin c sorted.
  destruct (groupMetaByPlugin_spec entries plugins Hnd) as [_ Hr].
  fold c sorted in Hr.
  rewrite Hr. apply (leftOver_iff sorted entries key value Hnd Hin).
Qed.

End ClassifierFacts.
(** ** The sort of the descriptors *)

Module SortFacts.
Import JS WpExport AlistFacts.

Lemma extLe_refl x : extLe x x.
Proof. destruct x; simpl; auto. Qed.

Lemma extLe_trans x y z : extLe x y -> extLe y z -> extLe x z.
Proof. destruct x, y, z; simpl; try tauto; lia. Qed.

(** The comparator is positive exactly when [b] has the longer prefix. *)
Lemma movesBehind_spec a b :
  movesBehind byLongestPrefix a b = false <->
  extLe (maxPrefixLength b) (maxPrefixLength a).
Proof.
  unfold movesBehind, byLongestPrefix, subSign.
  destruct (maxPrefixLength b) as [|m], (maxPrefixLength a) as [|n]; simpl;
    try (split; [tauto | reflexivity]).
  - split; [discriminate | tauto].
  - destruct (Nat.compare_spec m n); split; intros; try reflexivity;
      try discriminate; lia.
Qed.

Lemma movesBehind_true a b :
  movesBehind byLongestPrefix a b = true ->
  extLe (maxPrefixLength a) (maxPrefixLength b).
Proof.
  unfold movesBehind, byLongestPrefix, subSign.
  destruct (maxPrefixLength b) as [|m], (maxPrefixLength a) as [|n]; simpl;
    try tauto; try discriminate.
  destruct (Nat.compare_spec m n); intros; try discriminate; lia.
Qed.

Lemma insertSorted_perm x l :
  Permutation (x :: l) (insertSorted byLongestPrefix x l).
Proof.
  induction l as [|y t IH]; simpl; [reflexivity|].
  destruct (movesBehind byLongestPrefix x y); [|reflexivity].
  rewrite perm_swap. now constructor.
Qed.

Lemma sortedPlugins_perm plugins : Permutation plugins (sortedPlugins plugins).
Proof.
  unfold sortedPlugins, Array_sort. induction plugins as [|x t IH]; simpl.
  - constructor.
  - rewrite <- insertSorted_perm. now constructor.
Qed.

Lemma insertSorted_sorted x l :
  StronglySorted longestFirst l ->
  StronglySorted longestFirst (insertSorted byLongestPrefix x l).
Proof.
  induction 1 as [|y t Ht IH Hy]; simpl.
  - constructor; constructor.
  - destruct (movesBehind byLongestPrefix x y) eqn:Hm.
    + constructor; [assumption|].
      rewrite Forall_forall in *. intros z Hz.
      apply (Permutation_in _ (Permutation_sym (insertSorted_perm x t))) in Hz.
      destruct Hz as [<-|Hz]; [|auto].
      now apply movesBehind_true.
    + apply movesBehind_spec in Hm.
      constructor; [now constructor|].
      constructor; [assumption|].
      rewrite Forall_forall in *. intros z Hz.
      unfold longestFirst in *. eapply extLe_trans; [apply (Hy _ Hz) | exact Hm].
Qed.

Lemma sortedPlugins_sorted plugins :
  StronglySorted longestFirst (sortedPlugins plugins).
Proof.
  unfold sortedPlugins, Array_sort. induction plugins as [|x t IH]; simpl.
  - constructor.
  - now apply insertSorted_sorted.
Qed.

(** In a sorted list the first match has the longest prefix among the
    matches. *)
Lemma find_sorted (f : Plugin -> bool) l p :
  StronglySorted longestFirst l -> find f l = Some p ->
  In p l /\ f p = true /\
  forall q, In q l -> f q = true -> longestFirst p q.
Proof.
  induction 1 as [|y t Ht IH Hy]; simpl; [discriminate|].
  destruct (f y) eqn:Hfy.
  - intros [= <-]. split; [now left|]. split; [assumption|].
    intros q [<-|Hq] _; [apply extLe_refl|].
    rewrite Forall_forall in Hy. auto.
  - intros Hf. destruct (IH Hf) as [Hin [Hp Hall]].
    split; [now right|]. split; [assumption|].
    intros q [<-|Hq] Hfq; [congruence | auto].
Qed.

Lemma firstMatch_none sorted key :
  firstMatch sorted key = None <->
  forall p, In p sorted -> matchesPlugin key p = false.
Proof.
  unfold firstMatch. split.
  - intros H p Hp. now apply (find_none _ _ H).
  - intros H. induction sorted as [|y t IH]; simpl; [reflexivity|].
    rewrite (H y); [|now left]. apply IH. intros p Hp. apply H. now right.
Qed.

End SortFacts.
(** ** Strings *)

Module StringFacts.
Import JS Text.

Lemma app_nil_r (s : string) : s ++ "" = s.
Proof. induction s; simpl; congruence. Qed.

Lemma app_assoc (a b c : string) : (a ++ b) ++ c = a ++ b ++ c.
Proof. induction a; simpl; congruence. Qed.

Lemma length_app (a b : string) :
  String.length (a ++ b) = String.length a + String.length b.
Proof. induction a; simpl; congruence. Qed.

Lemma app_inv_head (a b c : string) : a ++ b = a ++ c -> b = c.
Proof. induction a; simpl; [auto|]. intros [= H]. auto. Qed.

(** Equal-length prefixes of equal strings are equal. *)
Lemma app_inv_length (a b x y : string) :
  String.length a = String.length b -> a ++ x = b ++ y -> a = b /\ x = y.
Proof.
  revert b. induction a as [|c a IH]; intros [|d b]; simpl; try discriminate.
  - auto.
  - intros [= Hl] [= -> H]. destruct (IH _ Hl H). now subst.
Qed.

Lemma prefix_refl_app (u s : string) : String.prefix u (u ++ s) = true.
Proof.
  induction u as [|c u IH]; simpl; [now destruct s|].
  destruct (ascii_dec c c); [assumption | contradiction].
Qed.

Lemma prefix_inv (u s : string) :
  String.prefix u s = true -> exists t, s = u ++ t.
Proof.
  revert s. induction u as [|c u IH]; intros s.
  - intros _. now exists s.
  - destruct s as [|d s]; simpl; [discriminate|].
    destruct (ascii_dec c d) as [->|]; [|discriminate].
    intros H. destruct (IH _ H) as [t ->]. now exists t.
Qed.

Lemma prefix_iff (u s : string) :
  String.prefix u s = true <-> exists t, s = u ++ t.
Proof.
  split; [apply prefix_inv|]. intros [t ->]. apply prefix_refl_app.
Qed.

Lemma prefix_empty (u : string) : String.prefix u "" = true -> u = "".
Proof. destruct u; [reflexivity | discriminate]. Qed.

(** A prefix test only looks at the first [length u] characters. *)
Lemma prefix_app_long (u x y : string) :
  String.length u <= String.length x ->
  String.prefix u (x ++ y) = String.prefix u x.
Proof.
  revert x. induction u as [|c u IH]; intros x Hl; simpl.
  - now destruct x, y.
  - destruct x as [|d x]; simpl in *; [lia|].
    destruct (ascii_dec c d); [|reflexivity]. apply IH. lia.
Qed.

Lemma substring_0_length (s : string) : substring 0 (String.length s) s = s.
Proof. induction s; simpl; congruence. Qed.

Lemma substring_0_app (u t : string) :
  substring 0 (String.length u) (u ++ t) = u.
Proof. induction u; simpl; [now destruct t | congruence]. Qed.

Lemma substring_skip_app (u t : string) n :
  substring (String.length u) n (u ++ t) = substring 0 n t.
Proof. induction u; simpl; auto. Qed.

Lemma substring_after (u t : string) :
  substring (String.length u) (String.length (u ++ t) - String.length u)
            (u ++ t) = t.
Proof.
  rewrite substring_skip_app, length_app.
  replace (String.length u + String.length t - String.length u)
    with (String.length t) by lia.
  apply substring_0_length.
Qed.

Lemma length_removeLast (s : string) :
  s <> "" -> S (String.length (removeLast s)) = String.length s.
Proof.
  induction s as [|c s IH]; [congruence|]. intros _.
  destruct s as [|d s]; [reflexivity|].
  change (removeLast (String c (String d s)))
    with (String c (removeLast (String d s))).
  cbn [String.length]. f_equal. apply IH. discriminate.
Qed.

Lemma removeLast_app (s : string) :
  s <> "" -> exists c, s = removeLast s ++ String c "".
Proof.
  induction s as [|c s IH]; [congruence|]. intros _.
  destruct s as [|d s]; [now exists c|].
  destruct IH as [e He]; [discriminate|]. exists e.
  change (removeLast (String c (String d s)))
    with (String c (removeLast (String d s))).
  cbn [append]. now f_equal.
Qed.

Lemma occursIn_cons (u : string) c s :
  occursIn u (String c s) = String.prefix u (String c s) || occursIn u s.
Proof. reflexivity. Qed.

Lemma occursIn_nil (u : string) : occursIn u "" = String.prefix u "".
Proof. simpl. apply orb_false_r. Qed.

Lemma occursIn_app_r (u x y : string) :
  occursIn u x = true -> occursIn u (x ++ y) = true.
Proof.
  induction x as [|c x IH].
  - rewrite occursIn_nil. intros H. apply prefix_empty in H. subst.
    now destruct y.
  - change (String c x ++ y) with (String c (x ++ y)).
    rewrite !occursIn_cons. intros H.
    apply orb_true_iff in H as [H|H]; apply orb_true_iff.
    + left. apply prefix_inv in H as [t Ht].
      change (String c (x ++ y)) with (String c x ++ y).
      rewrite Ht, app_assoc. apply prefix_refl_app.
    + right. auto.
Qed.

Lemma occursIn_tail (u : string) c s :
  occursIn u (String c s) = false ->
  String.prefix u (String c s) = false /\ occursIn u s = false.
Proof. rewrite occursIn_cons. intros H. now apply orb_false_iff in H. Qed.

(** No occurrence fits in a text shorter than the needle. *)
Lemma occursIn_short (u s : string) :
  String.length s < String.length u -> occursIn u s = false.
Proof.
  induction s as [|c s IH]; intros Hl.
  - rewrite occursIn_nil. destruct u; [simpl in Hl; lia | reflexivity].
  - rewrite occursIn_cons. apply orb_false_iff. split.
    + destruct (String.prefix u (String c s)) eqn:Hp; [|reflexivity].
      apply prefix_inv in Hp as [t Ht].
      apply (f_equal String.length) in Ht. rewrite length_app in Ht.
      simpl in *. lia.
    + apply IH. simpl in Hl. lia.
Qed.

Lemma dollarFree_app (a b : string) :
  dollarFree (a ++ b) = dollarFree a && dollarFree b.
Proof.
  induction a as [|c a IH]; simpl; [reflexivity|].
  rewrite IH. now rewrite andb_assoc.
Qed.

End StringFacts.
(** ** Patterns, matching and global replacement *)

Module RegExpFacts.
Import JS Text RegExp MediaHandler StringFacts.

Lemma ascii_eqb_dec (a c : ascii) :
  Ascii.eqb a c = if ascii_dec c a then true else false.
Proof.
  destruct (ascii_dec c a) as [->|Hn]; [apply Ascii.eqb_refl|].
  apply Ascii.eqb_neq. congruence.
Qed.

(** Escaped or not, a character that [escapeRegExp] leaves alone is not a
    syntax character, and one it escapes is. *)
Lemma isEscaped_syntax (c : ascii) : isSyntaxChar c = isEscaped c.
Proof.
  destruct c as [[] [] [] [] [] [] [] []]; reflexivity.
Qed.

Lemma escapeRegExp_plainStart (s : string) : plainStart (escapeRegExp s).
Proof.
  destruct s as [|c t]; simpl; [exact I|].
  destruct (isEscaped c) eqn:He; simpl.
  - now right.
  - left. now rewrite isEscaped_syntax.
Qed.

Lemma plainStart_not_question (d : ascii) r :
  plainStart (String d r) -> d <> "?"%char.
Proof.
  intros [H| ->] E; [|discriminate E]. subst d. discriminate H.
Qed.

(** An unescaped plain character is an atom of its own. *)
Lemma parsePattern_plain (c : ascii) rest :
  isSyntaxChar c = false -> plainStart rest ->
  parsePattern (String c rest) =
  option_map (cons (Lit c)) (parsePattern rest).
Proof.
  intros Hc Hrest.
  assert (Hb : Ascii.eqb c "\" = false).
  { apply Ascii.eqb_neq. intros ->. discriminate. }
  destruct rest as [|d r].
  - cbn [parsePattern]. now rewrite Hb, Hc.
  - apply plainStart_not_question in Hrest.
    cbn [parsePattern]. rewrite Hb, Hc. clear Hb Hc.
    destruct d as [[] [] [] [] [] [] [] []]; try reflexivity.
    contradiction.
Qed.

(** An escaped syntax character, or an escaped slash, is an atom. *)
Lemma parsePattern_escaped (e : ascii) rest :
  isSyntaxChar e || Ascii.eqb e "/" = true -> plainStart rest ->
  parsePattern (String "\" (String e rest)) =
  option_map (cons (Lit e)) (parsePattern rest).
Proof.
  intros He Hrest.
  destruct rest as [|d r].
  - cbn [parsePattern]. rewrite Ascii.eqb_refl, He. reflexivity.
  - apply plainStart_not_question in Hrest.
    cbn [parsePattern]. rewrite Ascii.eqb_refl, He. clear He.
    destruct d as [[] [] [] [] [] [] [] []]; try reflexivity.
    contradiction.
Qed.

(** Escaping makes the pattern literal: its atoms are the characters of the
    text, each standing for itself. *)
Lemma parsePattern_escapeRegExp (s : string) :
  parsePattern (escapeRegExp s) = Some (literal s).
Proof.
  induction s as [|c t IH]; [reflexivity|].
  pose proof (escapeRegExp_plainStart t) as Ht.
  cbn [escapeRegExp]. destruct (isEscaped c) eqn:He.
  - rewrite parsePattern_escaped, IH; [reflexivity | | assumption].
    now rewrite isEscaped_syntax, He.
  - rewrite parsePattern_plain, IH; [reflexivity | | assumption].
    now rewrite isEscaped_syntax.
Qed.

(** An escaped character followed by [?] is an optional atom. *)
Lemma parsePattern_optional (e : ascii) rest :
  isSyntaxChar e || Ascii.eqb e "/" = true ->
  parsePattern (String "\" (String e (String "?" rest))) =
  option_map (cons (Opt e)) (parsePattern rest).
Proof.
  intros He. cbn [parsePattern]. rewrite Ascii.eqb_refl, He. reflexivity.
Qed.

(** The pattern of [restoreMediaUrls]: an optional dot, then the literal
    [/media/] and file name. *)
Lemma parsePattern_restore (filename : string) :
  parsePattern ("\.?\/media\/" ++ escapeRegExp filename) =
  Some (Opt "." :: literal ("/media/" ++ filename)).
Proof.
  pose proof (escapeRegExp_plainStart filename) as Hf.
  cbn [append].
  rewrite parsePattern_optional by reflexivity.
  rewrite parsePattern_escaped by (first [reflexivity | now left]).
  do 4 rewrite parsePattern_plain by (first [reflexivity | now left]).
  rewrite parsePattern_plain by (first [reflexivity | now right]).
  rewrite parsePattern_escaped by (first [reflexivity | assumption]).
  rewrite parsePattern_escapeRegExp. reflexivity.
Qed.

(** A literal pattern matches exactly where the text is a prefix. *)
Lemma matchHere_literal (u s : string) :
  matchHere (literal u) s =
  if String.prefix u s then Some (String.length u) else None.
Proof.
  revert s. induction u as [|c u IH]; intros s.
  - now destruct s.
  - change (literal (String c u)) with (Lit c :: literal u).
    destruct s as [|a t]; [reflexivity|].
    cbn [matchHere String.prefix String.length].
    rewrite ascii_eqb_dec. destruct (ascii_dec c a); [|reflexivity].
    rewrite IH. now destruct (String.prefix u t).
Qed.

(** With an optional first character the longer match is preferred. *)
Lemma matchHere_optional (d : ascii) (p s : string) :
  matchHere (Opt d :: literal p) s =
  if String.prefix (String d p) s then Some (S (String.length p))
  else if String.prefix p s then Some (String.length p) else None.
Proof.
  cbn [matchHere]. rewrite (matchHere_literal p s).
  destruct s as [|a t].
  - now destruct p.
  - cbn [String.prefix]. rewrite ascii_eqb_dec.
    destruct (ascii_dec d a); [|reflexivity].
    rewrite matchHere_literal. now destruct (String.prefix p t).
Qed.

(** A replacement text without [$] is inserted as it is. *)
Lemma GetSubstitution_dollarFree matched before after template :
  dollarFree template = true ->
  GetSubstitution matched before after template = template.
Proof.
  induction template as [|c t IH]; [reflexivity|].
  cbn [dollarFree GetSubstitution]. intros H.
  apply andb_true_iff in H as [Hc Ht].
  destruct (Ascii.eqb c "$"); [discriminate|]. now rewrite IH.
Qed.

(** Passing over the rest of a match. *)
Lemma replaceFrom_skip re template before (x s : string) :
  replaceFrom re template before (String.length x) (x ++ s) =
  replaceFrom re template (before ++ x) 0 s.
Proof.
  revert before. induction x as [|c x IH]; intros before.
  - cbn [String.length append]. now rewrite app_nil_r.
  - cbn [String.length append replaceFrom]. rewrite IH, app_assoc.
    reflexivity.
Qed.

Lemma replaceFrom_match re template before (a : ascii) (t : string) k :
  matchHere re (String a t) = Some (S k) ->
  replaceFrom re template before 0 (String a t) =
  GetSubstitution (substring 0 (S k) (String a t)) before
    (substring (S k) (String.length (String a t) - S k) (String a t)) template
  ++ replaceFrom re template (before ++ String a "") k t.
Proof.
  intros H. unfold replaceFrom at 1; fold replaceFrom. now rewrite H.
Qed.

Lemma replaceFrom_nomatch re template before (a : ascii) (t : string) :
  matchHere re (String a t) = None ->
  replaceFrom re template before 0 (String a t) =
  String a (replaceFrom re template (before ++ String a "") 0 t).
Proof.
  intros H. unfold replaceFrom at 1; fold replaceFrom. now rewrite H.
Qed.

(** The scan up to and over the first match: when the pattern matches
    nowhere inside [a] and matches [sep] right after it, the output is [a],
    the expanded replacement, and the scan of the rest. *)
Lemma replaceFrom_first re template (sep : string) :
  sep <> "" ->
  forall (a b before : string),
  (forall x y, a = x ++ y -> y <> "" ->
               matchHere re (y ++ sep ++ b) = None) ->
  matchHere re (sep ++ b) = Some (String.length sep) ->
  replaceFrom re template before 0 (a ++ sep ++ b) =
  a ++ GetSubstitution sep (before ++ a) b template
    ++ replaceFrom re template (before ++ a ++ sep) 0 b.
Proof.
  intros Hsep a. induction a as [|c a IH]; intros b before Hno Hyes.
  - cbn [append]. rewrite app_nil_r.
    destruct sep as [|d sep']; [congruence|].
    change (String d sep' ++ b) with (String d (sep' ++ b)) in *.
    rewrite (replaceFrom_match re template before d (sep' ++ b)
               (String.length sep') Hyes).
    rewrite (substring_0_app (String d sep') b : substring 0 (S (String.length sep')) (String d (sep' ++ b)) = String d sep').
    rewrite (substring_after (String d sep') b : substring (S (String.length sep')) (String.length (String d (sep' ++ b)) - S (String.length sep')) (String d (sep' ++ b)) = b).
    f_equal. rewrite replaceFrom_skip, app_assoc. reflexivity.
  - change (String c a ++ sep ++ b) with (String c (a ++ sep ++ b)).
    rewrite replaceFrom_nomatch
      by (apply (Hno "" (String c a) eq_refl); discriminate).
    cbn [append]. f_equal. rewrite IH.
    + rewrite !app_assoc. reflexivity.
    + intros x y -> Hy. apply (Hno (String c x) y); [reflexivity | assumption].
    + assumption.
Qed.

(** The scan of a text in which the pattern matches nowhere. *)
Lemma replaceFrom_none re template (a before : string) :
  (forall x y, a = x ++ y -> matchHere re y = None) ->
  replaceFrom re template before 0 a = a.
Proof.
  revert before. induction a as [|c a IH]; intros before Hno.
  - cbn [replaceFrom]. now rewrite (Hno "" "" eq_refl).
  - rewrite replaceFrom_nomatch by apply (Hno "" (String c a) eq_refl).
    f_equal. apply IH. intros x y ->. now apply (Hno (String c x) y).
Qed.

Lemma occursIn_prefix (u s : string) :
  String.prefix u s = true -> occursIn u s = true.
Proof.
  intros H. destruct s; [now rewrite occursIn_nil|].
  rewrite occursIn_cons, H. reflexivity.
Qed.

Lemma occursIn_app_l (u x s : string) :
  occursIn u s = true -> occursIn u (x ++ s) = true.
Proof.
  intros H. induction x as [|c x IH]; [assumption|].
  change (String c x ++ s) with (String c (x ++ s)).
  rewrite occursIn_cons, IH. apply orb_true_r.
Qed.

(** A prefix test that ends before the last character of the separator
    does not see what follows. *)
Lemma prefix_clear (q sep y b : string) :
  String.length q <= String.length y + String.length (removeLast sep) ->
  String.prefix q (y ++ sep ++ b) = String.prefix q (y ++ removeLast sep).
Proof.
  intros Hlen. destruct (string_dec sep "") as [->|Hsep].
  - cbn [removeLast append String.length] in *. rewrite app_nil_r.
    apply prefix_app_long. lia.
  - destruct (removeLast_app sep Hsep) as [c Hc].
    rewrite Hc at 1. rewrite app_assoc, <- (app_assoc y).
    apply prefix_app_long. rewrite length_app. lia.
Qed.

(** Inside a piece that is clear of the needle, the literal pattern does
    not match, whatever follows the separator. *)
Lemma literal_clear (u sep a b x y : string) :
  String.length u <= S (String.length (removeLast sep)) ->
  occursIn u (a ++ removeLast sep) = false ->
  a = x ++ y -> y <> "" ->
  String.prefix u (y ++ sep ++ b) = false.
Proof.
  intros Hlen Hclear -> Hy.
  rewrite prefix_clear by (destruct y; [congruence | simpl; lia]).
  destruct (String.prefix u (y ++ removeLast sep)) eqn:Hp; [|reflexivity].
  exfalso. rewrite app_assoc in Hclear.
  apply occursIn_prefix, (occursIn_app_l u x) in Hp. congruence.
Qed.

Lemma literal_last (u a x y : string) :
  occursIn u a = false -> a = x ++ y -> String.prefix u y = false.
Proof.
  intros Hclear -> .
  destruct (String.prefix u y) eqn:Hp; [|reflexivity].
  apply occursIn_prefix, (occursIn_app_l u x) in Hp. congruence.
Qed.

(** The global replacement of a literal [u] in pieces joined by [u]. *)
Lemma replace_literal_pieces (u template : string) pieces :
  u <> "" -> wellSplit u u pieces ->
  forall before,
  replaceFrom (literal u) template before 0 (joinWith u pieces) =
  joinSubst u template before pieces.
Proof.
  intros Hu. induction pieces as [|a rest IH]; intros Hw before.
  - cbn [joinWith joinSubst replaceFrom]. rewrite matchHere_literal.
    destruct u; [congruence | reflexivity].
  - destruct rest as [|a' rest'].
    + cbn [joinWith joinSubst wellSplit] in *.
      apply replaceFrom_none. intros x y Hxy.
      rewrite matchHere_literal, (literal_last u a x y Hw Hxy). reflexivity.
    + destruct Hw as [Hclear Hw].
      change (joinWith u (a :: a' :: rest'))
        with (a ++ u ++ joinWith u (a' :: rest')).
      rewrite replaceFrom_first; [|assumption| |].
      * rewrite IH by assumption. reflexivity.
      * intros x y Hxy Hy. rewrite matchHere_literal.
        rewrite (literal_clear u u a _ x y); auto.
        rewrite (length_removeLast u Hu). lia.
      * rewrite matchHere_literal, prefix_refl_app. reflexivity.
Qed.

(** The global replacement of an optional dot and a literal [p] in pieces
    joined by the dotted text. *)
Lemma replace_dotted_pieces (p template : string) pieces :
  p <> "" -> wellSplit p (String "." p) pieces ->
  forall before,
  replaceFrom (Opt "." :: literal p) template before 0
              (joinWith (String "." p) pieces) =
  joinSubst (String "." p) template before pieces.
Proof.
  intros Hp.
  assert (Hrl : String.length (removeLast (String "." p)) = String.length p).
  { pose proof (length_removeLast (String "." p)) as H.
    cbn [String.length] in H. specialize (H ltac:(discriminate)).
    now injection H. }
  assert (Hdot : forall s, String.prefix (String "." p) s = true ->
                           exists t, s = String "." (p ++ t)).
  { intros s H. apply prefix_inv in H as [t ->]. now exists t. }
  induction pieces as [|a rest IH]; intros Hw before.
  - cbn [joinWith joinSubst]. unfold replaceFrom.
    rewrite matchHere_optional. destruct p; [congruence | reflexivity].
  - destruct rest as [|a' rest'].
    + cbn [joinWith joinSubst wellSplit] in *.
      apply replaceFrom_none. intros x y Hxy.
      rewrite matchHere_optional, (literal_last p a x y Hw Hxy).
      destruct (String.prefix (String "." p) y) eqn:Hd; [|reflexivity].
      exfalso. apply Hdot in Hd as [t ->].
      assert (Ho : occursIn p (String "." (p ++ t)) = true).
      { rewrite occursIn_cons.
        rewrite (occursIn_prefix p (p ++ t) (prefix_refl_app p t)).
        apply orb_true_r. }
      apply (occursIn_app_l p x) in Ho. congruence.
    + destruct Hw as [Hclear Hw].
      change (joinWith (String "." p) (a :: a' :: rest'))
        with (a ++ String "." p ++ joinWith (String "." p) (a' :: rest')).
      rewrite replaceFrom_first; [|discriminate| |].
      * rewrite IH by assumption. reflexivity.
      * intros x y Hxy Hy. rewrite matchHere_optional.
        rewrite (literal_clear p (String "." p) a _ x y); auto;
          [|rewrite Hrl; lia].
        rewrite prefix_clear
          by (rewrite Hrl; destruct y; [congruence | simpl; lia]).
        destruct (String.prefix (String "." p)
                    (y ++ removeLast (String "." p))) eqn:Hd; [|reflexivity].
        exfalso. subst a. rewrite app_assoc in Hclear.
        apply Hdot in Hd as [t Ht].
        assert (Ho : occursIn p (y ++ removeLast (String "." p)) = true).
        { rewrite Ht, occursIn_cons.
          rewrite (occursIn_prefix p (p ++ t) (prefix_refl_app p t)).
          apply orb_true_r. }
        apply (occursIn_app_l p x) in Ho. congruence.
      * rewrite matchHere_optional, prefix_refl_app. reflexivity.
Qed.

Lemma joinSubst_dollarFree (sep template before : string) pieces :
  dollarFree template = true ->
  joinSubst sep template before pieces = joinWith template pieces.
Proof.
  intros Hd. revert before.
  induction pieces as [|a rest IH]; intros before; [reflexivity|].
  destruct rest as [|a' rest']; [reflexivity|].
  change (joinSubst sep template before (a :: a' :: rest'))
    with (a ++ GetSubstitution sep (before ++ a)
                 (joinWith sep (a' :: rest')) template
            ++ joinSubst sep template (before ++ a ++ sep) (a' :: rest')).
  rewrite GetSubstitution_dollarFree, IH by assumption. reflexivity.
Qed.

(** Every text is cut into such pieces by a non-empty needle. *)
Lemma first_occurrence (u s : string) :
  u <> "" -> occursIn u s = true ->
  exists a b, s = a ++ u ++ b /\ occursIn u (a ++ removeLast u) = false.
Proof.
  intros Hu. induction s as [|c s IH]; intros Ho.
  - rewrite occursIn_nil in Ho. apply prefix_empty in Ho. congruence.
  - rewrite occursIn_cons in Ho.
    destruct (String.prefix u (String c s)) eqn:Hp.
    + apply prefix_inv in Hp as [b Hb]. exists "", b. split; [assumption|].
      apply occursIn_short. pose proof (length_removeLast u Hu). simpl. lia.
    + simpl in Ho. destruct (IH Ho) as [a [b [-> Hclear]]].
      exists (String c a), b. split; [reflexivity|].
      change (String c a ++ removeLast u) with (String c (a ++ removeLast u)).
      rewrite occursIn_cons, Hclear, orb_false_r.
      change (String c (a ++ u ++ b)) with (String c a ++ u ++ b) in Hp.
      rewrite prefix_clear in Hp; [exact Hp|].
      pose proof (length_removeLast u Hu). simpl. lia.
Qed.

Lemma split_exists (u : string) :
  u <> "" ->
  forall s, exists pieces, joinWith u pieces = s /\ wellSplit u u pieces.
Proof.
  intros Hu s.
  remember (String.length s) as n eqn:Hn. revert s Hn.
  induction n as [n IH] using lt_wf_ind. intros s Hn.
  destruct (occursIn u s) eqn:Ho.
  - destruct (first_occurrence u s Hu Ho) as [a [b [-> Hclear]]].
    destruct (IH (String.length b)) with (s := b) as [pieces [Hj Hw]];
      [|reflexivity|].
    { subst n. rewrite !length_app. destruct u; [congruence | simpl; lia]. }
    destruct pieces as [|b' rest].
    + exists [a; ""]. cbn [joinWith] in *. subst b.
      split; [reflexivity|]. cbn [wellSplit]. split; [assumption|].
      rewrite occursIn_nil. destruct u; [congruence | reflexivity].
    + exists (a :: b' :: rest). subst b. split; [reflexivity|].
      cbn [wellSplit]. split; assumption.
  - exists [s]. split; [reflexivity | exact Ho].
Qed.

(** *** Local references, dotted or not *)

Lemma endsWithChar_app c (x : string) :
  endsWithChar c (x ++ String c "") = true.
Proof.
  induction x as [|a x IH]; cbn [append endsWithChar].
  - apply Ascii.eqb_refl.
  - destruct (x ++ String c "") eqn:E; [destruct x; discriminate | exact IH].
Qed.

Lemma endsWithChar_inv c (a : string) :
  endsWithChar c a = true -> exists x, a = x ++ String c "".
Proof.
  induction a as [|d a IH]; [discriminate|]. cbn [endsWithChar].
  destruct a as [|d' a'].
  - intros H. apply Ascii.eqb_eq in H. subst. now exists "".
  - intros H. destruct (IH H) as [x Hx]. exists (String d x).
    cbn [append]. now rewrite <- Hx.
Qed.

Lemma removeLast_snoc (x : string) c : removeLast (x ++ String c "") = x.
Proof.
  induction x as [|a x IH]; [reflexivity|].
  cbn [append removeLast].
  destruct (x ++ String c "") eqn:E; [destruct x; discriminate|].
  now rewrite IH.
Qed.

Lemma removeLast_dotted (p : string) :
  p <> "" -> removeLast (String "." p) = String "." (removeLast p).
Proof. destruct p; [congruence | reflexivity]. Qed.

(** The pattern of [restoreMediaUrls] matches nowhere inside a piece that
    is clear of the path. *)
Lemma optional_clear (p : string) (dotted : bool) (a b x y : string) c p' :
  p = String c p' -> c <> "."%char ->
  occursIn p (a ++ removeLast (reference dotted p)) = false ->
  (dotted = false -> endsWithChar "." a = false) ->
  a = x ++ y -> y <> "" ->
  matchHere (Opt "." :: literal p) (y ++ reference dotted p ++ b) = None.
Proof.
  intros Hp Hc Hclear Hdot Ha Hy.
  assert (Hne : p <> "") by (subst p; discriminate).
  assert (Hlen : String.length p
                 <= S (String.length (removeLast (reference dotted p)))).
  { destruct dotted; cbn [reference].
    - rewrite removeLast_dotted by assumption. cbn [String.length].
      pose proof (length_removeLast p Hne). lia.
    - pose proof (length_removeLast p Hne). lia. }
  assert (Hplain : forall x' y', a = x' ++ y' -> y' <> "" ->
            String.prefix p (y' ++ reference dotted p ++ b) = false).
  { intros x' y' Hxy Hy'.
    exact (literal_clear p (reference dotted p) a b x' y' Hlen Hclear
             Hxy Hy'). }
  rewrite matchHere_optional, (Hplain x y Ha Hy).
  destruct (String.prefix (String "." p) (y ++ reference dotted p ++ b))
    eqn:Hd; [|reflexivity].
  exfalso. apply prefix_inv in Hd as [t Ht].
  destruct y as [|d y']; [congruence|].
  cbn [append] in Ht. injection Ht as Hd Hrest. subst d.
  destruct y' as [|d' y''].
  - (* the piece ends with the dot *)
    cbn [append] in Hrest. destruct dotted; cbn [reference] in Hrest.
    + subst p. injection Hrest as Hc' _. congruence.
    + rewrite Ha in Hdot. rewrite endsWithChar_app in Hdot.
      specialize (Hdot eq_refl). discriminate.
  - assert (Hpre : String.prefix p (String d' y'' ++ reference dotted p ++ b)
                   = true).
    { rewrite Hrest. apply prefix_refl_app. }
    rewrite (Hplain (x ++ String "." "") (String d' y'')) in Hpre;
      [discriminate | | discriminate].
    rewrite Ha, app_assoc. reflexivity.
Qed.

Lemma optional_last (p : string) (a x y : string) :
  occursIn p a = false -> a = x ++ y ->
  matchHere (Opt "." :: literal p) y = None.
Proof.
  intros Hclear Ha.
  rewrite matchHere_optional, (literal_last p a x y Hclear Ha).
  destruct (String.prefix (String "." p) y) eqn:Hd; [|reflexivity].
  exfalso. apply prefix_inv in Hd as [t ->].
  assert (Ho : occursIn p (String "." (p ++ t)) = true).
  { rewrite occursIn_cons.
    rewrite (occursIn_prefix p (p ++ t) (prefix_refl_app p t)).
    apply orb_true_r. }
  change (String "." p ++ t) with (String "." (p ++ t)) in Ha.
  apply (occursIn_app_l p x) in Ho. congruence.
Qed.

Lemma optional_at (p : string) (dotted : bool) (b : string) c p' :
  p = String c p' -> c <> "."%char ->
  matchHere (Opt "." :: literal p) (reference dotted p ++ b) =
  Some (String.length (reference dotted p)).
Proof.
  intros Hp Hc. rewrite matchHere_optional.
  destruct dotted; cbn [reference].
  - now rewrite prefix_refl_app.
  - rewrite prefix_refl_app.
    destruct (String.prefix (String "." p) (p ++ b)) eqn:Hd; [|reflexivity].
    exfalso. apply prefix_inv in Hd as [t Ht]. subst p.
    cbn [append] in Ht. injection Ht as Hc' _. congruence.
Qed.

(** The global replacement of the pattern of [restoreMediaUrls] in a
    content cut at its local references. *)
Lemma replace_refs (p template : string) c p' :
  p = String c p' -> c <> "."%char ->
  forall parts last before,
  clearRefs p parts last ->
  replaceFrom (Opt "." :: literal p) template before 0
              (joinRefs p parts last) =
  substRefs p template before parts last.
Proof.
  intros Hp Hc parts last.
  induction parts as [|[a dotted] rest IH]; intros before Hclear.
  - cbn [joinRefs substRefs clearRefs] in *.
    apply replaceFrom_none. intros x y Hxy.
    exact (optional_last p last x y Hclear Hxy).
  - destruct Hclear as [Ha [Hdot Hrest]].
    cbn [joinRefs substRefs].
    rewrite replaceFrom_first.
    + rewrite IH by assumption. reflexivity.
    + destruct dotted; cbn [reference]; [discriminate | subst p; discriminate].
    + intros x y Hxy Hy.
      exact (optional_clear p dotted a _ x y c p' Hp Hc Ha Hdot Hxy Hy).
    + exact (optional_at p dotted _ c p' Hp Hc).
Qed.

(** A replacement text without [$] takes the place of every reference. *)
Lemma substRefs_dollarFree (p template before : string) parts last :
  dollarFree template = true ->
  substRefs p template before parts last =
  joinWith template (map fst parts ++ [last]).
Proof.
  intros Hd. revert before.
  induction parts as [|[a dotted] rest IH]; intros before; [reflexivity|].
  cbn [substRefs map fst List.app]. rewrite IH.
  rewrite GetSubstitution_dollarFree by assumption.
  cbn [joinWith]. destruct (map fst rest ++ [last])%list eqn:E;
    [destruct (map fst rest); discriminate | reflexivity].
Qed.

(** Every content is cut in that way. *)
Lemma refs_exist (p : string) :
  p <> "" ->
  forall s, exists parts last,
    joinRefs p parts last = s /\ clearRefs p parts last.
Proof.
  intros Hp s.
  remember (String.length s) as n eqn:Hn. revert s Hn.
  induction n as [n IH] using lt_wf_ind. intros s Hn.
  destruct (occursIn p s) eqn:Ho.
  - destruct (first_occurrence p s Hp Ho) as [a [b [-> Hclear]]].
    destruct (IH (String.length b)) with (s := b) as [parts [last [Hj Hw]]];
      [|reflexivity|].
    { subst n. rewrite !length_app. destruct p; [congruence | simpl; lia]. }
    destruct (endsWithChar "." a) eqn:Hdot.
    + apply endsWithChar_inv in Hdot as [x ->].
      exists ((x, true) :: parts), last. split.
      * cbn [joinRefs reference]. rewrite Hj, app_assoc. reflexivity.
      * cbn [clearRefs reference]. split; [|split; [discriminate | exact Hw]].
        rewrite removeLast_dotted by assumption.
        rewrite app_assoc in Hclear. exact Hclear.
    + exists ((a, false) :: parts), last. split.
      * cbn [joinRefs reference]. now rewrite Hj.
      * cbn [clearRefs reference]. split; [exact Hclear|]. split; auto.
  - exists [], s. split; [reflexivity | exact Ho].
Qed.

End RegExpFacts.
(** * The claims about the classifier *)

Module ClassifierClaims.
Import JS WpExport AlistFacts ClassifierFacts SortFacts.

(** C2. Exclusivity of the classifier. For a metadata bag (its keys unique,
    as in every JavaScript object) and any list of plugin descriptors, each
    key of the bag is in exactly one of three places: dropped, one named
    group, or the ungrouped remainder. No key is in two groups, and a
    reserved key (skip list or skip prefix) is in no group and not in the
    remainder. A key other than [__proto__] (which an assignment to a
    plain object does not store) is dropped exactly when its value is
    empty, or it is reserved, or no descriptor matches it, it has no
    leading token and it does not look like plugin metadata. *)
Theorem classifier_exclusive (entries : JsObject) (plugins : list Plugin)
                             (key : string) (value : JsValue) :
  NoDup (keys entries) -> In (key, value) entries ->
  let c := groupMetaByPlugin entries plugins in
  let sorted := sortedPlugins plugins in
  (dropped c key
   \/ ((exists! s, inGroup c key s) /\ ~ inRemaining c key)
   \/ (inRemaining c key /\ forall s, ~ inGroup c key s))
  /\ (forall s1 s2, inGroup c key s1 -> inGroup c key s2 -> s1 = s2)
  /\ (reserved key = true -> dropped c key)
  /\ (key <> "__proto__" ->
      (dropped c key <->
       isEmpty value = true \/ reserved key = true \/
       (firstMatch sorted key = None /\ autoPrefix key = None /\
        looksLikePluginMeta key = false))).
Proof.
  intros Hnd Hin c sorted.
  pose proof (inGroup_iff entries plugins key value Hnd Hin) as Hgroup.
  pose proof (inRemaining_iff entries plugins key value Hnd Hin) as Hrem.
  cbv zeta in Hgroup, Hrem. fold c sorted in Hgroup, Hrem.
  clearbody c sorted.
  assert (Hel : eligible key value = false <->
                isEmpty value = true \/ reserved key = true).
  { unfold eligible. destruct (isEmpty value), (reserved key); simpl;
      intuition discriminate. }
  unfold dropped, unique.
  destruct (String.eqb_spec key "__proto__") as [Hk|Hk].
  { (* the key that an assignment does not store *)
    assert (Hno : forall s, ~ inGroup c key s).
    { intros s. rewrite Hgroup.
      intros [_ [[Hk' _]|[prefix [_ [Ha _]]]]]; [now apply Hk'|].
      subst key. vm_compute in Ha. discriminate Ha. }
    assert (Hnr : ~ inRemaining c key).
    { rewrite Hrem. intros [_ [_ [_ Hl]]].
      subst key. vm_compute in Hl. discriminate Hl. }
    split; [|split; [|split]].
    - left. auto.
    - intros s1 s2 H1. destruct (Hno _ H1).
    - auto.
    - intros Hk'. now destruct Hk'. }
  assert (Hgroup' : forall s, inGroup c key s <->
            eligible key value = true /\
            ((exists p, firstMatch sorted key = Some p /\ s = slug p) \/
             (exists prefix, firstMatch sorted key = None /\
                autoPrefix key = Some prefix /\ s = slugOfPrefix prefix))).
  { intros s. rewrite Hgroup. tauto. }
  clear Hgroup. rename Hgroup' into Hgroup.
  destruct (eligible key value) eqn:He.
  - assert (Hne : ~ (isEmpty value = true \/ reserved key = true)).
    { intros H. apply Hel in H. discriminate. }
    destruct (firstMatch sorted key) as [p|] eqn:Hf.
    + (* claimed by [p] *)
      assert (Hp : forall s, inGroup c key s <-> s = slug p).
      { intros s. rewrite Hgroup. split.
        - intros [_ [[q [[= <-] Hs]]|[x [[=] _]]]]. assumption.
        - intros ->. split; [reflexivity|]. left. eauto. }
      assert (Hnr : ~ inRemaining c key).
      { rewrite Hrem. intros [_ [[=] _]]. }
      split; [|split; [|split]].
      * right. left. split; [|assumption].
        exists (slug p). split; [now apply Hp|].
        intros s Hs. symmetry. now apply Hp.
      * intros s1 s2 H1 H2. apply Hp in H1, H2. congruence.
      * tauto.
      * intros _. split.
        -- intros [Hno _]. exfalso. apply (Hno (slug p)). now apply Hp.
        -- intros [H|[H|[[=] _]]]; tauto.
    + destruct (autoPrefix key) as [prefix|] eqn:Ha.
      * (* discovered under its leading token *)
        assert (Hp : forall s, inGroup c key s <-> s = slugOfPrefix prefix).
        { intros s. rewrite Hgroup. split.
          - intros [_ [[q [[=] _]]|[x [_ [[= <-] Hs]]]]]. assumption.
          - intros ->. split; [reflexivity|]. right. eauto. }
        assert (Hnr : ~ inRemaining c key).
        { rewrite Hrem. intros [_ [_ [[=] _]]]. }
        split; [|split; [|split]].
        -- right. left. split; [|assumption].
           exists (slugOfPrefix prefix). split; [now apply Hp|].
           intros s Hs. symmetry. now apply Hp.
        -- intros s1 s2 H1 H2. apply Hp in H1, H2. congruence.
        -- tauto.
        -- intros _. split.
           ++ intros [Hno _]. exfalso. apply (Hno (slugOfPrefix prefix)).
              now apply Hp.
           ++ intros [H|[H|[_ [[=] _]]]]; tauto.
      * assert (Hno : forall s, ~ inGroup c key s).
        { intros s. rewrite Hgroup.
          intros [_ [[q [[=] _]]|[x [_ [[=] _]]]]]. }
        destruct (looksLikePluginMeta key) eqn:Hl.
        -- (* kept in the remainder *)
           assert (Hyes : inRemaining c key) by (apply Hrem; auto).
           split; [|split; [|split]].
           ++ right. right. auto.
           ++ intros s1 s2 H1. destruct (Hno _ H1).
           ++ tauto.
           ++ intros _. split; [tauto|]. intros [H|[H|[_ [_ [=]]]]]; tauto.
        -- assert (Hnr : ~ inRemaining c key).
           { rewrite Hrem. intros [_ [_ [_ [=]]]]. }
           split; [|split; [|split]].
           ++ left. auto.
           ++ intros s1 s2 H1. destruct (Hno _ H1).
           ++ tauto.
           ++ intros _. split; auto 6.
  - assert (Hno : forall s, ~ inGroup c key s).
    { intros s. rewrite Hgroup. intros [[=] _]. }
    assert (Hnr : ~ inRemaining c key).
    { rewrite Hrem. intros [[=] _]. }
    split; [|split; [|split]].
    + left. auto.
    + intros s1 s2 H1. destruct (Hno _ H1).
    + auto.
    + intros _. split; [|auto]. intros _.
      destruct (proj1 Hel eq_refl); auto.
Qed.

Lemma rankMathBag_NoDup : NoDup (keys rankMathBag).
Proof.
  repeat constructor; simpl; intuition discriminate.
Defined.

(** The theorem at the scenario bag: the reserved key [_edit_lock] is
    dropped. *)
Lemma classifier_exclusive_witness :
  NoDup (keys rankMathBag) /\
  In ("_edit_lock", JStr "123") rankMathBag /\
  dropped (groupMetaByPlugin rankMathBag [rankMath]) "_edit_lock".
Proof.
  split; [exact rankMathBag_NoDup|].
  assert (Hin : In ("_edit_lock", JStr "123") rankMathBag)
    by (simpl; auto).
  split; [exact Hin|].
  exact (proj1 (proj2 (proj2
           (classifier_exclusive rankMathBag [rankMath] "_edit_lock"
              (JStr "123") rankMathBag_NoDup Hin))) eq_refl).
Defined.

Lemma matchesPrefix_z prefix :
  matchesPrefix "z" prefix = true <-> prefix = "z".
Proof.
  assert (H : matchesPrefix "z" prefix = String.eqb "z" prefix).
  { destruct prefix as [|c [|c' r]]; [reflexivity | |];
      destruct c as [[] [] [] [] [] [] [] []]; reflexivity. }
  rewrite H, String.eqb_eq. split; congruence.
Qed.

Lemma matchesPlugin_z p : matchesPlugin "z" p = true <-> In "z" (prefixes p).
Proof.
  unfold matchesPlugin. rewrite existsb_exists. split.
  - intros [x [Hx Hm]]. apply matchesPrefix_z in Hm. now subst.
  - intros H. exists "z". split; [assumption | reflexivity].
Qed.

Lemma emptyValueBag_NoDup : NoDup (keys emptyValueBag).
Proof.
  repeat constructor; simpl; intuition discriminate.
Qed.

(** C3. The emptiness predicate holds exactly for [null], [undefined], the
    empty string, the empty array and the empty object, and fails for [0]
    and [false]. In the bag [{"x": "", "y": [], "z": 0}], whatever the
    descriptors, [x] and [y] are dropped as empty, and [z] is classified
    as not empty: it passes the emptiness test. What becomes of it then is
    for the prefix rules: it is in a group exactly when some descriptor
    lists the prefix [z], and never in the remainder. *)
Theorem isEmpty_and_zero_key :
  (forall v, isEmpty v = true <->
             v = JNull \/ v = JUndefined \/ v = JStr "" \/ v = JArr [] \/
             v = JObj [])
  /\ isEmpty (JNum 0) = false
  /\ isEmpty (JBool false) = false
  /\ forall plugins,
       let c := groupMetaByPlugin emptyValueBag plugins in
       dropped c "x" /\ dropped c "y"
       /\ eligible "z" (JNum 0) = true
       /\ ~ inRemaining c "z"
       /\ ((exists s, inGroup c "z" s) <->
           exists p, In p plugins /\ In "z" (prefixes p))
       /\ (dropped c "z" <->
           ~ exists p, In p plugins /\ In "z" (prefixes p)).
Proof.
  split; [|split; [reflexivity | split; [reflexivity|]]].
  - intros v. destruct v as [| |b|n|s|items|props]; simpl.
    + tauto.
    + tauto.
    + split; [discriminate|]. intros [H|[H|[H|[H|H]]]]; discriminate.
    + split; [discriminate|]. intros [H|[H|[H|[H|H]]]]; discriminate.
    + rewrite String.eqb_eq. split.
      * intros ->. tauto.
      * intros [H|[H|[H|[H|H]]]]; try discriminate. now injection H.
    + destruct items; simpl.
      * tauto.
      * split; [discriminate|]. intros [H|[H|[H|[H|H]]]]; discriminate.
    + destruct props; simpl.
      * tauto.
      * split; [discriminate|]. intros [H|[H|[H|[H|H]]]]; discriminate.
  - intros plugins c.
    assert (Hx : In ("x", JStr "") emptyValueBag) by (simpl; auto).
    assert (Hy : In ("y", JArr []) emptyValueBag) by (simpl; auto).
    assert (Hz : In ("z", JNum 0) emptyValueBag) by (simpl; auto 6).
    pose proof (fun k v H => inGroup_iff emptyValueBag plugins k v
                               emptyValueBag_NoDup H) as Hg.
    pose proof (fun k v H => inRemaining_iff emptyValueBag plugins k v
                               emptyValueBag_NoDup H) as Hr.
    cbv zeta in Hg, Hr. fold c in Hg, Hr.
    assert (Hfm : firstMatch (sortedPlugins plugins) "z" = None <->
                  ~ exists p, In p plugins /\ In "z" (prefixes p)).
    { rewrite firstMatch_none. split.
      - intros H [p [Hp Hpz]].
        apply (Permutation_in _ (sortedPlugins_perm plugins)) in Hp.
        apply matchesPlugin_z in Hpz. rewrite (H p Hp) in Hpz. discriminate.
      - intros H p Hp.
        apply (Permutation_in _ (Permutation_sym (sortedPlugins_perm plugins)))
          in Hp.
        destruct (matchesPlugin "z" p) eqn:Hm; [|reflexivity].
        exfalso. apply H. exists p. split; [assumption|].
        now apply matchesPlugin_z. }
    assert (Hzr : ~ inRemaining c "z").
    { rewrite (Hr _ _ Hz). intros [_ [_ [_ H]]]. discriminate. }
    assert (Hzg : (exists s, inGroup c "z" s) <->
                  exists p, In p plugins /\ In "z" (prefixes p)).
    { split.
      - intros [s Hs]. apply (Hg _ _ Hz) in Hs.
        destruct Hs as [_ [[_ [p [Hf _]]]|[prefix [_ [Ha _]]]]]; [|discriminate].
        apply find_some in Hf as [Hp Hm].
        apply (Permutation_in _ (Permutation_sym (sortedPlugins_perm plugins)))
          in Hp.
        exists p. split; [assumption | now apply matchesPlugin_z].
      - intros H.
        destruct (firstMatch (sortedPlugins plugins) "z") as [p|] eqn:Hf.
        + exists (slug p). apply (Hg _ _ Hz). split; [reflexivity|].
          left. split; [discriminate | eauto].
        + exfalso. now apply Hfm. }
    repeat split.
    + intros s Hs. apply (Hg _ _ Hx) in Hs as [He _]. discriminate.
    + rewrite (Hr _ _ Hx). intros [He _]. discriminate.
    + intros s Hs. apply (Hg _ _ Hy) in Hs as [He _]. discriminate.
    + rewrite (Hr _ _ Hy). intros [He _]. discriminate.
    + assumption.
    + apply Hzg.
    + apply Hzg.
    + intros [Hno _] H. apply Hzg in H as [s Hs]. exact (Hno s Hs).
    + intros s Hs. apply H. apply Hzg. eauto.
    + assumption.
Qed.

(** With no descriptor at all the prefix rules keep no key of that bag:
    [z] has no prefix to be grouped under. *)
Lemma zero_key_dropped :
  let c := groupMetaByPlugin emptyValueBag [] in
  dropped c "x" /\ dropped c "y" /\ dropped c "z".
Proof.
  assert (H : forall k, dropped (groupMetaByPlugin emptyValueBag []) k).
  { intros k. split.
    - intros s [grp [Hget _]]. discriminate.
    - intros [r [Hr _]]. discriminate. }
  cbv zeta. auto.
Qed.

(** C4. The descriptors are tried in descending order of their longest
    prefix: the sorted list is a permutation of the input in that order, and
    an eligible key that some descriptor matches goes to a matching
    descriptor whose longest prefix is at least as long as that of every
    other matching descriptor: the key is in no other group, and it is in
    the group of that descriptor unless it is the key [__proto__], which
    an assignment does not store. In particular,
    with one descriptor whose only prefix is [seo] and another whose only
    prefix is [seo_pro], in either input order, a non-empty [seo_pro_title]
    is in the group of the [seo_pro] descriptor and not in that of [seo]. *)
Theorem longest_prefix_first :
  (forall plugins,
      Permutation plugins (sortedPlugins plugins) /\
      StronglySorted longestFirst (sortedPlugins plugins))
  /\ (forall (entries : JsObject) plugins key value q,
        NoDup (keys entries) -> In (key, value) entries ->
        eligible key value = true ->
        In q plugins -> matchesPlugin key q = true ->
        let c := groupMetaByPlugin entries plugins in
        exists p, In p plugins /\ matchesPlugin key p = true /\
                  longestFirst p q /\
                  (key <> "__proto__" -> inGroup c key (slug p)) /\
                  forall s, inGroup c key s -> s = slug p)
  /\ (forall (entries : JsObject) (a b : Plugin) value plugins,
        prefixes a = ["seo"] -> prefixes b = ["seo_pro"] ->
        slug a <> slug b ->
        plugins = [a; b] \/ plugins = [b; a] ->
        NoDup (keys entries) -> In ("seo_pro_title", value) entries ->
        isEmpty value = false ->
        let c := groupMetaByPlugin entries plugins in
        inGroup c "seo_pro_title" (slug b) /\
        ~ inGroup c "seo_pro_title" (slug a)).
Proof.
  split; [|split].
  - intros plugins. split;
      [apply sortedPlugins_perm | apply sortedPlugins_sorted].
  - intros entries plugins key value q Hnd Hin He Hq Hm c.
    pose proof (inGroup_iff entries plugins key value Hnd Hin) as Hg.
    cbv zeta in Hg. fold c in Hg.
    destruct (firstMatch (sortedPlugins plugins) key) as [p|] eqn:Hf.
    + destruct (find_sorted _ _ _ (sortedPlugins_sorted plugins) Hf)
        as [Hp [Hmp Hall]].
      exists p. split; [|split; [assumption|split; [|split]]].
      * apply (Permutation_in _ (Permutation_sym (sortedPlugins_perm plugins))).
        assumption.
      * apply Hall; [|assumption].
        now apply (Permutation_in _ (sortedPlugins_perm plugins)).
      * intros Hk. apply Hg. split; [assumption|]. left. eauto.
      * intros s Hs. apply Hg in Hs.
        destruct Hs as [_ [[_ [p' [[= <-] Hs]]]|[x [[=] _]]]]. assumption.
    + exfalso. rewrite firstMatch_none in Hf.
      rewrite (Hf q) in Hm; [discriminate|].
      now apply (Permutation_in _ (sortedPlugins_perm plugins)).
  - intros entries a b value plugins Ha Hb Hab Hpl Hnd Hin Hv c.
    pose proof (inGroup_iff entries plugins "seo_pro_title" value Hnd Hin)
      as Hg.
    cbv zeta in Hg. fold c in Hg.
    assert (He : eligible "seo_pro_title" value = true).
    { unfold eligible. now rewrite Hv. }
    assert (Hs : sortedPlugins plugins = [b; a]).
    { unfold sortedPlugins, Array_sort, movesBehind, byLongestPrefix,
        maxPrefixLength.
      destruct Hpl as [-> | ->]; simpl; unfold movesBehind, byLongestPrefix,
        maxPrefixLength; rewrite Ha, Hb; reflexivity. }
    assert (Hf : firstMatch (sortedPlugins plugins) "seo_pro_title" = Some b).
    { rewrite Hs. unfold firstMatch, matchesPlugin. simpl.
      rewrite Hb. reflexivity. }
    split.
    + apply Hg. split; [assumption|]. left. split; [discriminate | eauto].
    + intros H. apply Hg in H.
      destruct H as [_ [[_ [p [Hp Hsl]]]|[x [Hn _]]]]; congruence.
Qed.

Lemma seoBag_NoDup : NoDup (keys seoBag).
Proof.
  repeat constructor; simpl; intuition discriminate.
Qed.

(** The scenario of the theorem, with the generic descriptor listed first. *)
Lemma longest_prefix_first_witness :
  let c := groupMetaByPlugin seoBag [seo; seoPro] in
  inGroup c "seo_pro_title" "seo-pro" /\ ~ inGroup c "seo_pro_title" "seo".
Proof.
  apply (proj2 (proj2 longest_prefix_first) seoBag seo seoPro (JStr "b")).
  - reflexivity.
  - reflexivity.
  - discriminate.
  - now left.
  - exact seoBag_NoDup.
  - simpl. auto.
  - reflexivity.
Defined.

End ClassifierClaims.
(** * The claims about the media handler *)

Module MediaFacts.
Import JS Text RegExp MediaHandler Content StringFacts RegExpFacts.

Lemma hex_length (bytes : list N) :
  String.length (MD5.hex bytes) = 2 * List.length bytes.
Proof.
  induction bytes as [|b t IH]; [reflexivity|].
  cbn [MD5.hex List.length]. unfold MD5.hexByte. cbn [append String.length].
  rewrite IH. lia.
Qed.

(** The hex digest has 32 characters. *)
Lemma md5Hex_length (s : string) : String.length (MD5.md5Hex s) = 32.
Proof.
  unfold MD5.md5Hex. rewrite hex_length. unfold MD5.digest, MD5.wordBytes.
  reflexivity.
Qed.

Lemma substring_length (n : nat) (s : string) :
  n <= String.length s -> String.length (substring 0 n s) = n.
Proof.
  revert s. induction n as [|n IH]; intros s Hn.
  - now destruct s.
  - destruct s as [|c s]; simpl in *; [lia|]. rewrite IH; [reflexivity | lia].
Qed.

Lemma hash8_length (url : string) :
  String.length (substring 0 8 (MD5.md5Hex url)) = 8.
Proof. apply substring_length. rewrite md5Hex_length. lia. Qed.

Lemma replaceWith_literal (u template content : string) :
  replaceWith (escapeRegExp u) template content =
  Some (replaceAll (literal u) template content).
Proof. unfold replaceWith. now rewrite parsePattern_escapeRegExp. Qed.

Lemma replaceWith_restore (f template content : string) :
  replaceWith ("\.?\/media\/" ++ escapeRegExp f) template content =
  Some (replaceAll (Opt "." :: literal ("/media/" ++ f)) template content).
Proof. unfold replaceWith. now rewrite parsePattern_restore. Qed.

Lemma replaceMediaUrls_total content mapping :
  exists r, replaceMediaUrls content mapping = Some r.
Proof.
  revert content. induction mapping as [|[u f] rest IH]; intros content.
  - now exists content.
  - cbn [replaceMediaUrls]. rewrite replaceWith_literal. apply IH.
Qed.

Lemma restoreMediaUrls_total content mapping :
  exists r, restoreMediaUrls content mapping = Some r.
Proof.
  revert content. induction mapping as [|[f u] rest IH]; intros content.
  - now exists content.
  - cbn [restoreMediaUrls]. rewrite replaceWith_restore. apply IH.
Qed.

Lemma replaceMediaUrls_pieces (u f : string) pieces :
  u <> "" -> wellSplit u u pieces ->
  replaceMediaUrls (joinWith u pieces) [(u, f)] =
  Some (joinSubst u ("./media/" ++ f) "" pieces).
Proof.
  intros Hu Hw. cbn [replaceMediaUrls]. rewrite replaceWith_literal.
  unfold replaceAll. now rewrite replace_literal_pieces.
Qed.

Lemma restoreMediaUrls_pieces (f u : string) pieces :
  wellSplit ("/media/" ++ f) ("./media/" ++ f) pieces ->
  restoreMediaUrls (joinWith ("./media/" ++ f) pieces) [(f, u)] =
  Some (joinSubst ("./media/" ++ f) u "" pieces).
Proof.
  intros Hw. cbn [restoreMediaUrls]. rewrite replaceWith_restore.
  unfold replaceAll.
  change ("./media/" ++ f) with (String "." ("/media/" ++ f)) in *.
  rewrite replace_dotted_pieces; [reflexivity | discriminate | assumption].
Qed.

Lemma restoreMediaUrls_refs (f u : string) parts last :
  clearRefs ("/media/" ++ f) parts last ->
  restoreMediaUrls (joinRefs ("/media/" ++ f) parts last) [(f, u)] =
  Some (substRefs ("/media/" ++ f) u "" parts last).
Proof.
  intros Hc. cbn [restoreMediaUrls]. rewrite replaceWith_restore.
  unfold replaceAll.
  rewrite (replace_refs ("/media/" ++ f) u "/" ("media/" ++ f));
    [reflexivity | reflexivity | discriminate | assumption].
Qed.

Lemma replaceMediaUrls_cons content u f rest :
  replaceMediaUrls content ((u, f) :: rest) =
  match replaceMediaUrls content [(u, f)] with
  | Some result => replaceMediaUrls result rest
  | None => None
  end.
Proof.
  cbn [replaceMediaUrls].
  now destruct (replaceWith (escapeRegExp u) ("./media/" ++ f) content).
Qed.

Lemma restoreMediaUrls_cons content f u rest :
  restoreMediaUrls content ((f, u) :: rest) =
  match restoreMediaUrls content [(f, u)] with
  | Some result => restoreMediaUrls result rest
  | None => None
  end.
Proof.
  cbn [restoreMediaUrls].
  now destruct (replaceWith ("\.?\/media\/" ++ escapeRegExp f) u content).
Qed.

(** *** Contents as segments *)

Lemma joinWith_cons_app sep (text piece : string) pieces :
  joinWith sep ((text ++ piece) :: pieces) =
  text ++ joinWith sep (piece :: pieces).
Proof.
  destruct pieces as [|p ps]; cbn [joinWith]; [reflexivity|].
  now rewrite app_assoc.
Qed.

Lemma cut_nonempty isSep segs : cut isSep segs <> [].
Proof.
  destruct segs as [|seg rest]; cbn [cut]; [discriminate|].
  destruct (isSep seg); [discriminate|].
  destruct (cut isSep rest); discriminate.
Qed.

(** A pass that turns the separating segments into [sep'] and leaves the
    others alone gives the pieces joined by [sep']. *)
Lemma render_map_cut isSep (g : Segment -> Segment) (sep' : string) segs :
  (forall seg, isSep seg = true -> renderSegment (g seg) = sep') ->
  (forall seg, isSep seg = false -> g seg = seg) ->
  render (map g segs) = joinWith sep' (cut isSep segs).
Proof.
  intros Hsep Hother. induction segs as [|seg rest IH]; [reflexivity|].
  cbn [map render cut]. rewrite IH.
  pose proof (cut_nonempty isSep rest) as Hne.
  destruct (isSep seg) eqn:Hs.
  - rewrite (Hsep _ Hs). destruct (cut isSep rest) as [|p ps];
      [congruence | reflexivity].
  - rewrite (Hother _ Hs). destruct (cut isSep rest) as [|p ps];
      [congruence|]. now rewrite joinWith_cons_app.
Qed.

Lemma render_cut isSep (sep : string) segs :
  (forall seg, isSep seg = true -> renderSegment seg = sep) ->
  render segs = joinWith sep (cut isSep segs).
Proof.
  intros Hsep.
  rewrite <- (render_map_cut isSep (fun seg => seg) sep segs Hsep);
    [now rewrite map_id | reflexivity].
Qed.

Lemma sameEntry_eq u f u' f' :
  sameEntry u f u' f' = true -> u' = u /\ f' = f.
Proof.
  unfold sameEntry. intros H. apply andb_true_iff in H as [Hu Hf].
  apply String.eqb_eq in Hu, Hf. now subst.
Qed.

Lemma isRemote_render u f seg :
  isRemote u f seg = true -> renderSegment seg = u.
Proof.
  destruct seg as [text|u' f'|u' f']; cbn [isRemote]; try discriminate.
  intros H. apply sameEntry_eq in H as [-> _]. reflexivity.
Qed.

Lemma isLocal_render u f seg :
  isLocal u f seg = true -> renderSegment seg = "./media/" ++ f.
Proof.
  destruct seg as [text|u' f'|u' f']; cbn [isLocal]; try discriminate.
  intros H. apply sameEntry_eq in H as [_ ->]. reflexivity.
Qed.

(** One pass of [replaceMediaUrls] over a content where the URL occurs at
    its references only. *)
Lemma replaceWith_localize u f segs :
  u <> "" -> dollarFree f = true ->
  wellSplit u u (cut (isRemote u f) segs) ->
  replaceWith (escapeRegExp u) ("./media/" ++ f) (render segs) =
  Some (render (map (localize u f) segs)).
Proof.
  intros Hu Hf Hw. rewrite replaceWith_literal. unfold replaceAll.
  rewrite (render_cut (isRemote u f) u segs (isRemote_render u f)).
  rewrite replace_literal_pieces by assumption.
  rewrite joinSubst_dollarFree by (now rewrite dollarFree_app, Hf).
  rewrite <- (render_map_cut (isRemote u f) (localize u f)); [reflexivity | |].
  - intros seg Hs. unfold localize. now rewrite Hs.
  - intros seg Hs. unfold localize. now rewrite Hs.
Qed.

(** One pass of [restoreMediaUrls] over a content where the local path
    occurs at its references only. *)
Lemma replaceWith_globalize u f segs :
  dollarFree u = true ->
  wellSplit ("/media/" ++ f) ("./media/" ++ f) (cut (isLocal u f) segs) ->
  replaceWith ("\.?\/media\/" ++ escapeRegExp f) u (render segs) =
  Some (render (map (globalize u f) segs)).
Proof.
  intros Hu Hw. rewrite replaceWith_restore. unfold replaceAll.
  rewrite (render_cut (isLocal u f) ("./media/" ++ f) segs
             (isLocal_render u f)).
  change ("./media/" ++ f) with (String "." ("/media/" ++ f)) in *.
  rewrite replace_dotted_pieces; [|discriminate | assumption].
  rewrite joinSubst_dollarFree by assumption.
  rewrite <- (render_map_cut (isLocal u f) (globalize u f)); [reflexivity | |].
  - intros seg Hs. unfold globalize. now rewrite Hs.
  - intros seg Hs. unfold globalize. now rewrite Hs.
Qed.

Lemma replaceMediaUrls_localizeAll mapping segs :
  rewritable mapping segs ->
  replaceMediaUrls (render segs) mapping =
  Some (render (localizeAll mapping segs)).
Proof.
  revert segs. induction mapping as [|[u f] rest IH]; intros segs Hr;
    [reflexivity|].
  destruct Hr as [Hu [Hf [Hw Hrest]]].
  cbn [replaceMediaUrls localizeAll].
  rewrite replaceWith_localize by assumption. now apply IH.
Qed.

Lemma restoreMediaUrls_globalizeAll mapping segs :
  restorable mapping segs ->
  restoreMediaUrls (render segs) (inverse mapping) =
  Some (render (globalizeAll mapping segs)).
Proof.
  revert segs. induction mapping as [|[u f] rest IH]; intros segs Hr;
    [reflexivity|].
  destruct Hr as [Hu [Hw Hrest]].
  cbn [inverse map fst snd restoreMediaUrls globalizeAll].
  rewrite replaceWith_globalize by assumption. now apply IH.
Qed.

(** The passes, segment by segment. *)
Lemma localizeAll_map mapping segs :
  localizeAll mapping segs =
  map (fun seg => fold_left (fun s e => localize (fst e) (snd e) s)
                            mapping seg) segs.
Proof.
  revert segs. induction mapping as [|[u f] rest IH]; intros segs.
  - cbn [localizeAll fold_left]. now rewrite map_id.
  - cbn [localizeAll fold_left fst snd]. rewrite IH, map_map. reflexivity.
Qed.

Lemma globalizeAll_map mapping segs :
  globalizeAll mapping segs =
  map (fun seg => fold_left (fun s e => globalize (fst e) (snd e) s)
                            mapping seg) segs.
Proof.
  revert segs. induction mapping as [|[u f] rest IH]; intros segs.
  - cbn [globalizeAll fold_left]. now rewrite map_id.
  - cbn [globalizeAll fold_left fst snd]. rewrite IH, map_map. reflexivity.
Qed.

Lemma localize_fixes (mapping : Mapping) seg :
  (forall u f, localize u f seg = seg) ->
  fold_left (fun s e => localize (fst e) (snd e) s) mapping seg = seg.
Proof.
  intros H. induction mapping as [|[u f] rest IH]; [reflexivity|].
  cbn [fold_left fst snd]. now rewrite H.
Qed.

Lemma globalize_fixes (mapping : Mapping) seg :
  (forall u f, globalize u f seg = seg) ->
  fold_left (fun s e => globalize (fst e) (snd e) s) mapping seg = seg.
Proof.
  intros H. induction mapping as [|[u f] rest IH]; [reflexivity|].
  cbn [fold_left fst snd]. now rewrite H.
Qed.

(** A reference goes to its local form in the pass of its entry, and comes
    back in the pass of the same entry. *)
Lemma globalize_localize_segment (mapping : Mapping) seg :
  isOriginal seg = true ->
  fold_left (fun s e => globalize (fst e) (snd e) s) mapping
    (fold_left (fun s e => localize (fst e) (snd e) s) mapping seg) = seg.
Proof.
  destruct seg as [text|u f|u f]; [| |discriminate]; intros _.
  - rewrite localize_fixes by reflexivity.
    now rewrite globalize_fixes by reflexivity.
  - induction mapping as [|[u' f'] rest IH]; [reflexivity|].
    cbn [fold_left fst snd]. unfold localize at 2. cbn [isRemote].
    destruct (sameEntry u' f' u f) eqn:Hs.
    + apply sameEntry_eq in Hs as [-> ->].
      rewrite localize_fixes by reflexivity.
      unfold globalize at 2. cbn [isLocal].
      assert (Hrefl : sameEntry u' f' u' f' = true).
      { unfold sameEntry. now rewrite !String.eqb_refl. }
      rewrite Hrefl. now rewrite globalize_fixes by reflexivity.
    + assert (Hg : globalize u' f'
                     (fold_left (fun s e => localize (fst e) (snd e) s)
                                rest (Remote u f)) =
                   fold_left (fun s e => localize (fst e) (snd e) s)
                             rest (Remote u f)).
      { clear IH. generalize rest. intros l.
        assert (Hcases :
                  fold_left (fun s e => localize (fst e) (snd e) s) l
                            (Remote u f) = Remote u f \/
                  fold_left (fun s e => localize (fst e) (snd e) s) l
                            (Remote u f) = Local u f).
        { induction l as [|[u2 f2] l IHl]; [now left|].
          cbn [fold_left fst snd]. unfold localize at 2 4. cbn [isRemote].
          destruct (sameEntry u2 f2 u f) eqn:Hs2; [|exact IHl].
          apply sameEntry_eq in Hs2 as [-> ->]. right.
          now rewrite localize_fixes by reflexivity. }
        destruct Hcases as [-> | ->]; unfold globalize; cbn [isLocal];
          [reflexivity|]. now rewrite Hs. }
      rewrite Hg. exact IH.
Qed.

Lemma globalizeAll_localizeAll mapping segs :
  forallb isOriginal segs = true ->
  globalizeAll mapping (localizeAll mapping segs) = segs.
Proof.
  intros Ho. rewrite localizeAll_map, globalizeAll_map, map_map.
  rewrite <- (map_id segs) at 2. apply map_ext_in. intros seg Hin.
  apply globalize_localize_segment.
  rewrite forallb_forall in Ho. now apply Ho.
Qed.

End MediaFacts.

Module MediaClaims.
Import JS Text RegExp MediaHandler Content StringFacts RegExpFacts MediaFacts.

(** [generateFilename] is a function of the URL, and for two URLs that
    parse and share the basename of their paths the file names are equal
    exactly when the MD5 digests of the two URLs begin with the same eight
    hex digits: the names of distinct URLs differ unless those 32 bits
    collide. *)
Theorem generateFilename_distinct (URL_new : string -> Result URL)
                                  (u1 u2 b : string) :
  urlBasename URL_new u1 = Some b -> urlBasename URL_new u2 = Some b ->
  (u1 = u2 -> generateFilename URL_new u1 = generateFilename URL_new u2) /\
  (generateFilename URL_new u1 = generateFilename URL_new u2 <->
   substring 0 8 (MD5.md5Hex u1) = substring 0 8 (MD5.md5Hex u2)).
Proof.
  unfold urlBasename, generateFilename, generateFilename_body, tryCatch.
  intros H1 H2. split; [now intros ->|].
  destruct (URL_new u1) as [o1|]; [|discriminate].
  destruct (URL_new u2) as [o2|]; [|discriminate].
  injection H1 as H1. injection H2 as H2. rewrite H1, H2.
  set (ext := if String.eqb (Path.extname b) "" then ".jpg"
              else Path.extname b).
  set (safe := substring 0 50 (cleanName (removeFirst ext b))).
  pose proof (hash8_length u1) as Hl1. pose proof (hash8_length u2) as Hl2.
  set (h1 := substring 0 8 (MD5.md5Hex u1)) in *.
  set (h2 := substring 0 8 (MD5.md5Hex u2)) in *.
  clearbody h1 h2 safe ext. split.
  - intros H. injection H as H. apply app_inv_head in H. injection H as H.
    apply (app_inv_length _ _ ext ext); [congruence | assumption].
  - now intros ->.
Qed.

(** Two URLs with the same basename and different hash prefixes get
    different names. *)
Lemma generateFilename_distinct_witness :
  urlBasename URL_http "https://example.com/a/photo.jpg" = Some "photo.jpg" /\
  urlBasename URL_http "https://example.com/b/photo.jpg" = Some "photo.jpg" /\
  generateFilename URL_http "https://example.com/a/photo.jpg" <>
  generateFilename URL_http "https://example.com/b/photo.jpg".
Proof.
  split; [reflexivity|]. split; [reflexivity|]. intros H.
  apply (proj2 (generateFilename_distinct URL_http
                  "https://example.com/a/photo.jpg"
                  "https://example.com/b/photo.jpg" "photo.jpg"
                  eq_refl eq_refl)) in H.
  vm_compute in H. discriminate H.
Defined.

(** C5. The names of distinct URLs with the same basename are not always
    distinct: the name keeps the first eight hex digits of the MD5 digest
    only, and the two URLs below, distinct and both with the basename
    [photo.jpg], get the same file name, although the hash is there, as
    the comment in the function says, to ensure uniqueness. *)
Lemma generateFilename_collision :
  photoA <> photoB /\
  urlBasename URL_http photoA = Some "photo.jpg" /\
  urlBasename URL_http photoB = Some "photo.jpg" /\
  generateFilename URL_http photoA = Ok "photo-b92f81e6.jpg" /\
  generateFilename URL_http photoB = Ok "photo-b92f81e6.jpg".
Proof.
  split; [discriminate|].
  split; [vm_compute; reflexivity|].
  split; [vm_compute; reflexivity|].
  split; vm_compute; reflexivity.
Qed.

(** C10. [generateFilename] returns a file name for every string, whatever
    the URL parser does with it: only [new URL] can throw in the [try]
    block, and the [catch] block cannot. When the parser throws, the name
    is [image-], the first 12 characters of the hex MD5 digest of the
    string, and [.jpg]; it has 22 characters and depends on the string
    only. *)
Theorem generateFilename_total (URL_new : string -> Result URL)
                               (url : string) :
  (exists name, generateFilename URL_new url = Ok name) /\
  (forall message, URL_new url = Throw message ->
     generateFilename URL_new url =
       Ok ("image-" ++ substring 0 12 (MD5.md5Hex url) ++ ".jpg") /\
     String.length ("image-" ++ substring 0 12 (MD5.md5Hex url) ++ ".jpg")
       = 22).
Proof.
  unfold generateFilename, generateFilename_body, generateFilename_handler,
    tryCatch.
  split.
  - destruct (URL_new url); eauto.
  - intros message ->. split; [reflexivity|].
    rewrite !length_app, substring_length; [reflexivity|].
    rewrite md5Hex_length. lia.
Qed.

(** A string that is not a URL. *)
Lemma generateFilename_total_witness :
  generateFilename URL_http "not a url" = Ok "image-d5038c8695ff.jpg".
Proof.
  destruct (proj2 (generateFilename_total URL_http "not a url")
              "Invalid URL" eq_refl) as [H _].
  rewrite H. vm_compute. reflexivity.
Defined.

(** C6, as amended. Take a content made of text and of references to
    entries of a mapping, all of them written as URLs, and suppose that the
    mapped URLs are not empty, that no URL and no file name of the mapping
    contains [$], and that every pass finds the text it looks for (the URL
    when rewriting, [/media/] and the file name when restoring) at the
    references of its entry only, in the content as the passes before it
    left it. Then rewriting puts every reference in its local form, and
    restoring with the inverse mapping gives the content back. *)
Theorem roundTrip_separated (mapping : Mapping) (segs : list Segment) :
  forallb isOriginal segs = true ->
  rewritable mapping segs ->
  restorable mapping (localizeAll mapping segs) ->
  replaceMediaUrls (render segs) mapping =
    Some (render (localizeAll mapping segs)) /\
  roundTrip (render segs) mapping = Some (render segs).
Proof.
  intros Ho Hr Hb.
  pose proof (replaceMediaUrls_localizeAll mapping segs Hr) as Hfwd.
  split; [exact Hfwd|].
  unfold roundTrip. rewrite Hfwd.
  rewrite (restoreMediaUrls_globalizeAll mapping _ Hb).
  now rewrite globalizeAll_localizeAll.
Qed.

(** A page with three images, two of them the same: both entries of the
    mapping are rewritten and restored. *)
Lemma roundTrip_separated_witness :
  replaceMediaUrls
    "<img src='http://x.org/a.jpg'><img src='http://x.org/b.png'><img src='http://x.org/a.jpg'>"
    galleryMapping =
  Some "<img src='./media/a-1f.jpg'><img src='./media/b-2e.png'><img src='./media/a-1f.jpg'>"
  /\
  roundTrip
    "<img src='http://x.org/a.jpg'><img src='http://x.org/b.png'><img src='http://x.org/a.jpg'>"
    galleryMapping =
  Some "<img src='http://x.org/a.jpg'><img src='http://x.org/b.png'><img src='http://x.org/a.jpg'>".
Proof.
  apply (roundTrip_separated galleryMapping gallery).
  - reflexivity.
  - cbn [rewritable galleryMapping].
    split; [discriminate|]. split; [reflexivity|].
    split; [vm_compute; repeat split|].
    split; [discriminate|]. split; [reflexivity|].
    split; [vm_compute; repeat split | exact I].
  - cbn [restorable galleryMapping localizeAll].
    split; [reflexivity|].
    split; [vm_compute; repeat split|].
    split; [reflexivity|].
    split; [vm_compute; repeat split | exact I].
Defined.

(** The case of one entry, on the content cut at the occurrences of its
    URL. *)
Lemma roundTrip_single (u f : string) (pieces : list string) :
  u <> "" -> dollarFree u = true -> dollarFree f = true ->
  wellSplit u u pieces ->
  wellSplit ("/media/" ++ f) ("./media/" ++ f) pieces ->
  replaceMediaUrls (joinWith u pieces) [(u, f)] =
    Some (joinWith ("./media/" ++ f) pieces) /\
  roundTrip (joinWith u pieces) [(u, f)] = Some (joinWith u pieces).
Proof.
  intros Hu Hdu Hdf Hw Hl.
  assert (Hr : replaceMediaUrls (joinWith u pieces) [(u, f)] =
               Some (joinWith ("./media/" ++ f) pieces)).
  { rewrite replaceMediaUrls_pieces by assumption.
    now rewrite joinSubst_dollarFree. }
  split; [assumption|].
  unfold roundTrip. rewrite Hr. cbn [inverse map fst snd].
  rewrite restoreMediaUrls_pieces by assumption.
  now rewrite joinSubst_dollarFree.
Qed.

(** C6, as the claim states it, fails on a content with two images whose
    file names begin alike: the pass that restores [a.jp] also rewrites
    the beginning of the local path of [a.jpg], and the second image comes
    back under the address of the first. *)
Lemma roundTrip_two_entries :
  let content :=
    "<img src='http://x.org/a.jp'><img src='http://y.org/b.jpg'>" in
  let mapping :=
    [("http://x.org/a.jp", "a.jp"); ("http://y.org/b.jpg", "a.jpg")] in
  replaceMediaUrls content mapping =
    Some "<img src='./media/a.jp'><img src='./media/a.jpg'>" /\
  roundTrip content mapping =
    Some "<img src='http://x.org/a.jp'><img src='http://x.org/a.jpg'>" /\
  roundTrip content mapping <> Some content.
Proof.
  cbv zeta.
  split; [vm_compute; reflexivity|].
  assert (H : roundTrip
                "<img src='http://x.org/a.jp'><img src='http://y.org/b.jpg'>"
                [("http://x.org/a.jp", "a.jp");
                 ("http://y.org/b.jpg", "a.jpg")] =
              Some "<img src='http://x.org/a.jp'><img src='http://x.org/a.jpg'>")
    by (vm_compute; reflexivity).
  split; [exact H|]. rewrite H. discriminate.
Qed.

(** A URL with [$$] does not come back either: the restoring replacement
    reads it as an escaped [$], and the content has one [$] less. *)
Example roundTrip_dollar :
  roundTrip dollarContent dollarMapping =
    Some "<img src='https://example.com/uploads/a$b.jpg'>".
Proof. vm_compute. reflexivity. Qed.

(** Nor does a content that already holds the local path: a link to
    [/media/a.jpg] is taken for a reference. *)
Example roundTrip_local_reference :
  roundTrip "<a href='/media/a.jpg'><img src='http://x.org/a.jpg'>"
            [("http://x.org/a.jpg", "a.jpg")] =
  Some "<a href='http://x.org/a.jpg'><img src='http://x.org/a.jpg'>".
Proof. vm_compute. reflexivity. Qed.

(** C7. Both rewriting functions match the mapped text as a literal string
    and replace every occurrence of it. The pattern that [replaceMediaUrls]
    builds from a URL has for atoms the characters of the URL, and the one
    of [restoreMediaUrls] an optional dot and the characters of [/media/]
    and the file name: escaping leaves no character with a special
    meaning, so the pattern text is always accepted, and both functions
    return for every content and mapping, one pass per entry. A literal
    pattern matches exactly where the text is a prefix. Every content is
    cut by a non-empty URL into pieces free of it, and the rewritten content
    is those pieces joined by the replacement text, expanded at each place.
    Likewise every content is cut at its local references, dotted or not,
    and the restored content has the replacement text, expanded, at the
    place of each. A replacement text without [$] is inserted unchanged. *)
Theorem rewriting_literal_and_global :
  (forall text, parsePattern (escapeRegExp text) = Some (literal text))
  /\ (forall filename,
        parsePattern ("\.?\/media\/" ++ escapeRegExp filename) =
        Some (Opt "." :: literal ("/media/" ++ filename)))
  /\ (forall text s,
        matchHere (literal text) s =
        if String.prefix text s then Some (String.length text) else None)
  /\ (forall content mapping,
        (exists r, replaceMediaUrls content mapping = Some r) /\
        (exists r, restoreMediaUrls content mapping = Some r))
  /\ (forall content a b rest,
        replaceMediaUrls content ((a, b) :: rest) =
        match replaceMediaUrls content [(a, b)] with
        | Some result => replaceMediaUrls result rest
        | None => None
        end /\
        restoreMediaUrls content ((a, b) :: rest) =
        match restoreMediaUrls content [(a, b)] with
        | Some result => restoreMediaUrls result rest
        | None => None
        end)
  /\ (forall url content, url <> "" ->
        exists pieces, joinWith url pieces = content /\
                       wellSplit url url pieces)
  /\ (forall url filename pieces,
        url <> "" -> wellSplit url url pieces ->
        replaceMediaUrls (joinWith url pieces) [(url, filename)] =
        Some (joinSubst url ("./media/" ++ filename) "" pieces))
  /\ (forall filename content,
        exists parts last,
          joinRefs ("/media/" ++ filename) parts last = content /\
          clearRefs ("/media/" ++ filename) parts last)
  /\ (forall filename url parts last,
        clearRefs ("/media/" ++ filename) parts last ->
        restoreMediaUrls (joinRefs ("/media/" ++ filename) parts last)
                         [(filename, url)] =
        Some (substRefs ("/media/" ++ filename) url "" parts last))
  /\ (forall sep template before pieces,
        dollarFree template = true ->
        joinSubst sep template before pieces = joinWith template pieces)
  /\ (forall path template before parts last,
        dollarFree template = true ->
        substRefs path template before parts last =
        joinWith template (map fst parts ++ [last])).
Proof.
  split; [exact parsePattern_escapeRegExp|].
  split; [exact parsePattern_restore|].
  split; [exact matchHere_literal|].
  split; [intros content mapping; split;
          [apply replaceMediaUrls_total | apply restoreMediaUrls_total]|].
  split; [intros content a b rest; split;
          [apply replaceMediaUrls_cons | apply restoreMediaUrls_cons]|].
  split; [intros url content Hu; now apply split_exists|].
  split; [intros url filename pieces; apply replaceMediaUrls_pieces|].
  split; [intros filename content; apply refs_exist; discriminate|].
  split; [intros filename url parts last; apply restoreMediaUrls_refs|].
  split; [intros sep template before pieces; apply joinSubst_dollarFree|].
  intros path template before parts last. apply substRefs_dollarFree.
Qed.

(** A URL full of pattern characters, three times in a content. *)
Lemma rewriting_literal_and_global_witness :
  replaceMediaUrls "a.b?c=(1) aXb?c=(1) a.b?c=(1)|a.b?c=(1)"
                   [("a.b?c=(1)", "f.png")] =
  Some "./media/f.png aXb?c=(1) ./media/f.png|./media/f.png".
Proof.
  destruct rewriting_literal_and_global
    as [_ [_ [_ [_ [_ [_ [Hreplace [_ [_ [Hplain _]]]]]]]]]].
  refine (eq_trans
            (Hreplace "a.b?c=(1)" "f.png" [""; " aXb?c=(1) "; "|"; ""] _ _) _).
  - discriminate.
  - cbn [wellSplit]. repeat split; reflexivity.
  - rewrite Hplain; reflexivity.
Defined.

(** A file name with a dot and a bracket, referred to with and without the
    leading dot; the name with another character in place of the dot is
    left alone. *)
Example restoreMediaUrls_both_forms :
  restoreMediaUrls
    "<img src='./media/a(1).jpg'><a href='/media/a(1).jpg'>/media/a(1)xjpg"
    [("a(1).jpg", "http://x.org/a.jpg")] =
  Some "<img src='http://x.org/a.jpg'><a href='http://x.org/a.jpg'>/media/a(1)xjpg".
Proof. vm_compute. reflexivity. Qed.

End MediaClaims.
(** * The claims about the import *)

Module ImportFacts.
Import JS MediaHandler WpImport.
Local Open Scope run_scope.

Section Only.
Variable ok : Event -> bool.

Lemma only_ret {A} (a : A) : only ok (ret a).
Proof.
  intros st. exists []. simpl. rewrite List.app_nil_r. auto.
Qed.

Lemma only_throw {A} (message : string) : only ok (@throw A message).
Proof.
  intros st. exists []. simpl. rewrite List.app_nil_r. auto.
Qed.

Lemma only_history : only ok history.
Proof.
  intros st. exists []. simpl. rewrite List.app_nil_r. auto.
Qed.

Lemma only_lift {A} (r : Result A) : only ok (lift r).
Proof. destruct r; [apply only_ret | apply only_throw]. Qed.

Lemma only_emit (e : Event) : ok e = true -> only ok (emit e).
Proof.
  intros He st. exists [e]. simpl. auto.
Qed.

Lemma only_bind {A B} (m : M A) (k : A -> M B) :
  only ok m -> (forall a, only ok (k a)) -> only ok (bind m k).
Proof.
  intros Hm Hk st. unfold bind.
  destruct (Hm st) as [added1 [Ht1 [Hf1 Hc1]]].
  destruct (m st) as [[a|message] st1]; simpl in *.
  - destruct (Hk a st1) as [added2 [Ht2 [Hf2 Hc2]]].
    exists (added1 ++ added2)%list. rewrite Ht2, Ht1, Hc2, Hc1, List.app_assoc.
    split; [reflexivity|]. split; [|reflexivity].
    apply Forall_app. auto.
  - exists added1. auto.
Qed.

Lemma only_catch {A} (m : M A) (handler : string -> M A) :
  only ok m -> (forall message, only ok (handler message)) ->
  only ok (catch m handler).
Proof.
  intros Hm Hh st. unfold catch.
  destruct (Hm st) as [added1 [Ht1 [Hf1 Hc1]]].
  destruct (m st) as [[a|message] st1]; simpl in *.
  - exists added1. auto.
  - destruct (Hh message st1) as [added2 [Ht2 [Hf2 Hc2]]].
    exists (added1 ++ added2)%list. rewrite Ht2, Ht1, Hc2, Hc1, List.app_assoc.
    split; [reflexivity|]. split; [|reflexivity].
    apply Forall_app. auto.
Qed.

Lemma only_if {A} (b : bool) (m1 m2 : M A) :
  only ok m1 -> only ok m2 -> only ok (if b then m1 else m2).
Proof. now destruct b. Qed.
End Only.

Create HintDb quiet.
#[local] Hint Resolve only_ret only_throw only_history only_lift
  only_bind only_catch only_if : quiet.

Section ReadOnly.
Variable env : Env.

Lemma readOnly_log level message : only readOnly (log level message).
Proof. now apply only_emit. Qed.

Lemma readOnly_pathExists path : only readOnly (pathExists env path).
Proof.
  unfold pathExists. apply only_bind; [now apply only_emit|].
  intros _. apply only_ret.
Qed.

Lemma readOnly_readFile path : only readOnly (readFile env path).
Proof.
  unfold readFile. apply only_bind; [now apply only_emit|].
  intros _. destruct (fs env path) as [[f|entries]|]; auto with quiet.
Qed.

Lemma readOnly_readJson path : only readOnly (readJson env path).
Proof.
  unfold readJson. apply only_bind; [now apply only_emit|].
  intros _. destruct (fs env path) as [[f|entries]|]; auto with quiet.
  destruct (json f); auto with quiet.
Qed.

Lemma readOnly_get endpoint body :
  only readOnly (request env "GET" endpoint body).
Proof.
  unfold request. apply only_bind; [apply only_history|].
  intros past. apply only_bind; [now apply only_emit|].
  intros _. destruct (server env past _); auto with quiet.
Qed.

Lemma readOnly_lookupExisting type metadata :
  only readOnly (lookupExisting env type metadata).
Proof.
  unfold lookupExisting, getBySlug.
  apply only_catch; [|auto with quiet].
  apply only_bind; [apply only_lift|]. intros slug.
  apply only_bind; [apply readOnly_get|]. intros data. apply only_lift.
Qed.
End ReadOnly.

#[local] Hint Resolve readOnly_log readOnly_pathExists readOnly_readFile
  readOnly_readJson readOnly_get readOnly_lookupExisting : quiet.

(** In a dry run [reconcile] reports and stops. *)
Lemma reconcile_dry env options slug type config contentDir metadata content
      existingItem :
  dryRun options = true ->
  reconcile env options slug type config contentDir metadata content
            existingItem =
  match decideAction (importMode config) existingItem with
  | Skip => ret (Skipped slug (skipReason existingItem))
  | action =>
      _ <- lift (itemData type metadata content) ;;
      log "dry-run"
          ("Would " ++ actionName action ++ " " ++ type ++ "/" ++ slug) ;;
      ret (WouldDo slug action)
  end.
Proof.
  intros Hdry. unfold reconcile. rewrite Hdry. reflexivity.
Qed.

(** In a dry run the media block of [importItem] is not entered. *)
Lemma importItem_dry env options slug type config :
  dryRun options = true ->
  importItem env options slug type config =
  (let contentDir := getContentDir (importDir config) type slug in
   log "verbose" ("Processing " ++ type ++ "/" ++ slug) ;;
   found <- jsonExists env (Path.join [contentDir; "metadata.json"]) ;;
   if negb found then throw ("metadata.json not found in " ++ contentDir)
   else
     metadata <- readJson env (Path.join [contentDir; "metadata.json"]) ;;
     content <-
       catch (readHtml env (Path.join [contentDir; "body.html"]))
             (fun _ =>
                log "verbose" "  No body.html found, using empty content" ;;
                ret EmptyString) ;;
     content' <- ret content ;;
     existingItem <- lookupExisting env type metadata ;;
     reconcile env options slug type config contentDir metadata content'
               existingItem).
Proof.
  intros Hdry. unfold importItem. rewrite Hdry, andb_false_r. reflexivity.
Qed.

Lemma readOnly_importItem env options slug type config :
  dryRun options = true ->
  only readOnly (importItem env options slug type config).
Proof.
  intros Hdry. rewrite (importItem_dry _ _ _ _ _ Hdry). cbv zeta.
  apply only_bind; [apply readOnly_log|]. intros _.
  apply only_bind; [apply readOnly_pathExists|]. intros found.
  apply only_if; [apply only_throw|].
  apply only_bind; [apply readOnly_readJson|]. intros metadata.
  apply only_bind.
  { apply only_catch; [apply readOnly_readFile|]. intros _.
    apply only_bind; [apply readOnly_log | intros _; apply only_ret]. }
  intros content. apply only_bind; [apply only_ret|]. intros content'.
  apply only_bind; [apply readOnly_lookupExisting|]. intros existingItem.
  rewrite (reconcile_dry _ _ _ _ _ _ _ _ _ Hdry).
  destruct (decideAction (importMode config) existingItem);
    try apply only_ret;
    (apply only_bind; [apply only_lift|]; intros _;
     apply only_bind; [apply readOnly_log | intros _; apply only_ret]).
Qed.

Lemma bind_Ok {A B} (m : M A) (k : A -> M B) st b st' :
  bind m k st = (Ok b, st') ->
  exists a st1, m st = (Ok a, st1) /\ k a st1 = (Ok b, st').
Proof.
  unfold bind. destruct (m st) as [[a|message] st1]; [eauto | discriminate].
Qed.

Lemma bind_emit {B} e (k : unit -> M B) st :
  bind (emit e) k st = k tt (mkRun (trace st ++ [e]) (mediaUploaded st)).
Proof. reflexivity. Qed.

Lemma bind_ret {A B} (a : A) (k : A -> M B) st : bind (ret a) k st = k a st.
Proof. reflexivity. Qed.

Lemma bind_assoc {A B C} (m : M A) (k : A -> M B) (k' : B -> M C) st :
  bind (bind m k) k' st = bind m (fun a => bind (k a) k') st.
Proof.
  unfold bind. destruct (m st) as [[a|message] st1]; reflexivity.
Qed.

Lemma bind_ext {A B} (m : M A) (k k' : A -> M B) st :
  (forall a st1, k a st1 = k' a st1) -> bind m k st = bind m k' st.
Proof.
  intros H. unfold bind. destruct (m st) as [[a|message] st1]; auto.
Qed.

(** In a dry run the script looks at two local files only, the metadata
    and the body of the item. *)
Lemma importItem_dry_frame env env' options slug type config st :
  dryRun options = true ->
  let contentDir := getContentDir (importDir config) type slug in
  server env' = server env ->
  fs env' (Path.join [contentDir; "metadata.json"]) =
    fs env (Path.join [contentDir; "metadata.json"]) ->
  fs env' (Path.join [contentDir; "body.html"]) =
    fs env (Path.join [contentDir; "body.html"]) ->
  importItem env' options slug type config st =
  importItem env options slug type config st.
Proof.
  intros Hdry contentDir Hserver Hmeta Hbody.
  rewrite !(importItem_dry _ _ _ _ _ Hdry). cbv zeta. fold contentDir.
  unfold jsonExists, pathExists, readJson, readHtml, readFile,
    lookupExisting, getBySlug, request.
  rewrite Hserver, Hmeta, Hbody.
  apply bind_ext; intros _ st1.
  apply bind_ext; intros found st2.
  destruct (negb found); [reflexivity|].
  apply bind_ext; intros metadata st3.
  apply bind_ext; intros content st4.
  apply bind_ext; intros content' st5.
  apply bind_ext; intros existingItem st6.
  rewrite !(reconcile_dry _ _ _ _ _ _ _ _ _ Hdry). reflexivity.
Qed.

(** A dry run that returns a result has either skipped the item or logged
    the action it would take, as its last event. *)
Lemma importItem_dry_report env options slug type config st result st' :
  dryRun options = true ->
  importItem env options slug type config st = (Ok result, st') ->
  (exists existingItem,
     decideAction (importMode config) existingItem = Skip /\
     result = Skipped slug (skipReason existingItem)) \/
  (exists existingItem past,
     decideAction (importMode config) existingItem <> Skip /\
     result = WouldDo slug (decideAction (importMode config) existingItem) /\
     trace st' =
       (past ++ [Log "dry-run"
                   ("Would "
                    ++ actionName
                         (decideAction (importMode config) existingItem)
                    ++ " " ++ type ++ "/" ++ slug)])%list).
Proof.
  intros Hdry. rewrite (importItem_dry _ _ _ _ _ Hdry). cbv zeta.
  intros H.
  apply bind_Ok in H as [_ [st1 [_ H]]].
  apply bind_Ok in H as [found [st2 [_ H]]].
  destruct (negb found); [discriminate|].
  apply bind_Ok in H as [metadata [st3 [_ H]]].
  apply bind_Ok in H as [content [st4 [_ H]]].
  apply bind_Ok in H as [content' [st5 [_ H]]].
  apply bind_Ok in H as [existingItem [st6 [_ H]]].
  rewrite (reconcile_dry _ _ _ _ _ _ _ _ _ Hdry) in H.
  destruct (decideAction (importMode config) existingItem) eqn:Hd.
  - right. exists existingItem, (trace st6). rewrite Hd.
    apply bind_Ok in H as [data [st7 [Hdata H]]].
    unfold lift in Hdata. destruct (itemData type metadata content');
      [|discriminate]. injection Hdata as _ <-.
    injection H as <- <-. split; [discriminate|]. split; reflexivity.
  - right. exists existingItem, (trace st6). rewrite Hd.
    apply bind_Ok in H as [data [st7 [Hdata H]]].
    unfold lift in Hdata. destruct (itemData type metadata content');
      [|discriminate]. injection Hdata as _ <-.
    injection H as <- <-. split; [discriminate|]. split; reflexivity.
  - left. exists existingItem. injection H as <- _. auto.
Qed.

(** The local reads of a dry run. *)
Lemma importItem_dry_reads env options slug type config st :
  dryRun options = true ->
  let contentDir := getContentDir (importDir config) type slug in
  let metadataPath := Path.join [contentDir; "metadata.json"] in
  let bodyPath := Path.join [contentDir; "body.html"] in
  forall f metadata,
    fs env metadataPath = Some (RegularFile f) -> json f = Some metadata ->
    exists later,
      trace (snd (importItem env options slug type config st)) =
      (trace st
       ++ [Log "verbose" ("Processing " ++ type ++ "/" ++ slug);
           Stat metadataPath; ReadFile metadataPath; ReadFile bodyPath]
       ++ later)%list.
Proof.
  intros Hdry contentDir metadataPath bodyPath f metadata Hf Hj.
  rewrite (importItem_dry _ _ _ _ _ Hdry). cbv zeta.
  fold contentDir metadataPath bodyPath.
  set (tail := fun content : string =>
         content' <- ret content ;;
         existingItem <- lookupExisting env type metadata ;;
         reconcile env options slug type config contentDir metadata content'
                   existingItem).
  assert (Htail : forall content, only readOnly (tail content)).
  { intros content. unfold tail.
    apply only_bind; [apply only_ret|]. intros content'.
    apply only_bind; [apply readOnly_lookupExisting|]. intros existingItem.
    rewrite (reconcile_dry _ _ _ _ _ _ _ _ _ Hdry).
    destruct (decideAction (importMode config) existingItem);
      try apply only_ret;
      (apply only_bind; [apply only_lift|]; intros _;
       apply only_bind; [apply readOnly_log | intros _; apply only_ret]). }
  subst metadataPath bodyPath.
  unfold log. rewrite bind_emit.
  unfold jsonExists, pathExists. rewrite bind_assoc, bind_emit, bind_ret.
  rewrite Hf. cbn [negb].
  unfold readJson. rewrite bind_assoc, bind_emit, Hf, Hj, bind_ret.
  cbn [trace mediaUploaded].
  unfold readHtml, readFile. fold (tail).
  match goal with
  | |- context [bind (catch ?m ?h) tail ?s] =>
      assert (Hbody : exists content added,
                 bind (catch m h) tail s =
                 tail content
                   (mkRun (trace s ++ ReadFile
                             (Path.join [contentDir; "body.html"]) :: added)
                          (mediaUploaded s)))
  end.
  { unfold bind, catch, emit, throw, ret, log.
    destruct (fs env (Path.join [contentDir; "body.html"]))
      as [[b|entries]|]; cbn [trace mediaUploaded].
    - exists (text b), []. reflexivity.
    - eexists _, [_]. rewrite <- List.app_assoc. reflexivity.
    - eexists _, [_]. rewrite <- List.app_assoc. reflexivity. }
  destruct Hbody as [content [added Hbody]]. rewrite Hbody.
  match goal with
  | |- context [tail content ?s] =>
      destruct (Htail content s) as [later [Ht _]]
  end.
  exists (added ++ later)%list. rewrite Ht. cbn [trace].
  rewrite <- !List.app_assoc. reflexivity.
Qed.

(** The result of [reconcile], whatever the run does: a skip with its
    reason, the plan of a dry run, or the executed action. *)
Lemma reconcile_result env options slug type config contentDir metadata
      content existingItem st r st' :
  reconcile env options slug type config contentDir metadata content
            existingItem st = (Ok r, st') ->
  let action := decideAction (importMode config) existingItem in
  (action = Skip /\ r = Skipped slug (skipReason existingItem) /\ st' = st)
  \/ (action <> Skip /\ dryRun options = true /\ r = WouldDo slug action)
  \/ (action <> Skip /\ dryRun options = false /\
      exists id extensions, r = Done slug action id extensions).
Proof.
  intros H action. unfold reconcile in H. fold action in H.
  assert (Hrun : action <> Skip ->
            (data <- lift (itemData type metadata content) ;;
             if dryRun options then
               log "dry-run"
                   ("Would " ++ actionName action ++ " " ++ type ++ "/"
                    ++ slug) ;;
               ret (WouldDo slug action)
             else execute env options slug type contentDir action existingItem
                          data) st = (Ok r, st') ->
            (action <> Skip /\ dryRun options = true /\
             r = WouldDo slug action)
            \/ (action <> Skip /\ dryRun options = false /\
                exists id extensions, r = Done slug action id extensions)).
  { intros Ha Hr. apply bind_Ok in Hr as [data [st1 [_ Hr]]].
    destruct (dryRun options).
    - left. injection Hr as <- _. auto.
    - right. unfold execute in Hr.
      apply bind_Ok in Hr as [result [st2 [_ Hr]]].
      apply bind_Ok in Hr as [id [st3 [_ Hr]]].
      apply bind_Ok in Hr as [_ [st4 [_ Hr]]].
      apply bind_Ok in Hr as [extensions [st5 [_ Hr]]].
      injection Hr as <- _. eauto. }
  destruct action eqn:Ha.
  - right. apply Hrun; [discriminate | exact H].
  - right. apply Hrun; [discriminate | exact H].
  - left. injection H as <- <-. auto.
Qed.


(** The lookup never fails: a failed request leaves [null]. *)
Lemma lookupExisting_total env type metadata st :
  exists existingItem, fst (lookupExisting env type metadata st)
                       = Ok existingItem.
Proof.
  unfold lookupExisting, catch.
  destruct ((slug <- lift (getProp metadata "slug") ;;
             getBySlug env (collectionOf type) slug) st) as [[a|message] st1].
  - exists a. reflexivity.
  - exists JNull. reflexivity.
Qed.

(** The request of [request], answered by the backend. *)
Lemma request_eq env method endpoint body st :
  request env method endpoint body st =
  let e := HttpRequest method endpoint body in
  let st' := mkRun (trace st ++ [e]) (mediaUploaded st) in
  match server env (trace st) e with
  | Accepted data => (Ok data, st')
  | Rejected message => (Throw message, st')
  end.
Proof.
  unfold request, bind, history, emit. cbv zeta.
  destruct (server env (trace st) (HttpRequest method endpoint body));
    reflexivity.
Qed.

Lemma pushExtensionMeta_eq env type postId metaToImport importedExtensions st :
  pushExtensionMeta env type postId metaToImport importedExtensions st =
  (Ok tt,
   mkRun (trace st
          ++ pushed env type postId metaToImport importedExtensions
                    (trace st))
         (mediaUploaded st)).
Proof.
  unfold pushExtensionMeta, pushed, combinedPush, narrowPush, catch, bind at 1.
  rewrite request_eq. cbv zeta.
  destruct (server env (trace st) _) as [data | message].
  - unfold log, emit. cbn [trace mediaUploaded].
    rewrite <- List.app_assoc. reflexivity.
  - unfold bind at 1. rewrite request_eq. cbv zeta. cbn [trace mediaUploaded].
    destruct (server env (trace st ++ _) _) as [data' | message'];
      unfold log, emit; cbn [trace mediaUploaded];
      rewrite <- !List.app_assoc; reflexivity.
Qed.


(** The loop over the group files of an item that are all readable. *)
Lemma readExtensions_merge env contentDir files datas :
  Forall2 (fun file data =>
             includes nonExtensionFiles file = false /\
             exists f, fs env (Path.join [contentDir; file])
                       = Some (RegularFile f) /\ json f = Some data)
          files datas ->
  forall metaToImport importedExtensions st,
  readExtensions env contentDir files metaToImport importedExtensions st =
  (Ok (fold_left (fun acc data => Object_assign acc (ownEntries data))
                 datas metaToImport,
       (importedExtensions ++ map (removeFirst ".json") files)%list),
   mkRun (trace st
          ++ map (fun file => ReadFile (Path.join [contentDir; file])) files)
         (mediaUploaded st)).
Proof.
  induction 1 as [|file data files datas [Hfile [f [Hf Hj]]] _ IH];
    intros metaToImport importedExtensions st.
  - cbn [readExtensions fold_left map]. unfold ret.
    rewrite !List.app_nil_r. destruct st; reflexivity.
  - cbn [readExtensions fold_left map]. rewrite Hfile.
    unfold readJson. rewrite bind_assoc, bind_emit, Hf, Hj, bind_ret.
    rewrite IH. cbn [trace mediaUploaded].
    rewrite <- !List.app_assoc. reflexivity.
Qed.

(** [importExtensionMeta] on a real run: the list of groups it returns is
    the one read from the files, whatever the backend answers. *)
Lemma importExtensionMeta_eq env contentDir postId type st metaToImport
      importedExtensions st1 :
  readExtensionMeta env contentDir st
    = (Ok (metaToImport, importedExtensions), st1) ->
  importExtensionMeta env contentDir postId type false st =
  (Ok importedExtensions,
   if Nat.eqb (List.length (keys metaToImport)) 0 then st1
   else mkRun (trace st1
               ++ pushed env type postId metaToImport importedExtensions
                         (trace st1))
              (mediaUploaded st1)).
Proof.
  intros Hread. unfold importExtensionMeta, bind at 1. rewrite Hread.
  cbn [fst snd].
  destruct (Nat.eqb (List.length (keys metaToImport)) 0); [reflexivity|].
  unfold bind. rewrite pushExtensionMeta_eq. reflexivity.
Qed.

End ImportFacts.

(** ** The import of one item *)

Module ImportClaims.
Import JS Text MediaHandler WpImport ImportFacts.
Local Open Scope run_scope.


(** The post of the example does not exist on the backend: it is created
    under [sync] and [create], and skipped under [update]. *)
Example reconciler_table_hello :
  fst (importItem helloEnv (mkOptions false false false) "hello" "posts"
                  (mkConfig "export" "update") start)
  = Ok (Skipped "hello" "not found (mode=update)") /\
  fst (importItem helloEnv (mkOptions false true false) "hello" "posts"
                  (mkConfig "export" "create") start)
  = Ok (WouldDo "hello" Create).
Proof. split; vm_compute; reflexivity. Qed.

(** C8. On a real run the group files of the item are merged, in the order
    of the listing, into one object, and that object is pushed in one
    combined update of the item ([all_meta]). When the backend rejects it,
    the same object is pushed again through the standard [meta] field;
    when that is rejected too, a warning with the message of the backend
    is logged. The push itself never fails, so after a create or update
    that the backend accepted the item is reported as done, with the
    identifier the backend gave and the groups read from the files,
    whatever became of the push. *)
Theorem metadata_push_degrades :
  (forall env contentDir files datas,
     Forall2 (fun file data =>
                includes nonExtensionFiles file = false /\
                exists f, fs env (Path.join [contentDir; file])
                          = Some (RegularFile f) /\ json f = Some data)
             files datas ->
     forall st,
       fst (readExtensions env contentDir files [] [] st) =
       Ok (fold_left (fun acc data => Object_assign acc (ownEntries data))
                     datas [],
           map (removeFirst ".json") files))
  /\ (forall env type postId metaToImport importedExtensions st,
        let first := combinedPush type postId metaToImport in
        let second := narrowPush type postId metaToImport in
        pushExtensionMeta env type postId metaToImport importedExtensions st
        = (Ok tt,
           mkRun
             (trace st
              ++ match server env (trace st) first with
                 | Accepted _ =>
                     [first;
                      Log "verbose"
                          ("  Imported extension meta: "
                           ++ joinWith ", " importedExtensions)]
                 | Rejected _ =>
                     first :: second ::
                     match server env (trace st ++ [first]) second with
                     | Accepted _ =>
                         [Log "verbose" "  Imported meta via standard API"]
                     | Rejected message =>
                         [Log "warning"
                              ("  Could not import meta: " ++ message)]
                     end
                 end)
             (mediaUploaded st)))
  /\ (forall env options slug type contentDir action existingItem data st
             result st1 id metaToImport importedExtensions st3,
        dryRun options = false ->
        (match action with
         | Create => create env (collectionOf type) data
         | _ =>
             existingId <- lift (getProp existingItem "id") ;;
             update env (collectionOf type) existingId data
         end) st = (Ok result, st1) ->
        getProp result "id" = Ok id ->
        let success :=
          Log "success"
              ((match action with Create => "Created " | _ => "Updated " end)
               ++ type ++ "/" ++ slug ++ " (ID: " ++ jsToString id ++ ")") in
        readExtensionMeta env contentDir
          (mkRun (trace st1 ++ [success]) (mediaUploaded st1))
          = (Ok (metaToImport, importedExtensions), st3) ->
        execute env options slug type contentDir action existingItem data st
        = (Ok (Done slug action id importedExtensions),
           if Nat.eqb (List.length (keys metaToImport)) 0 then st3
           else snd (pushExtensionMeta env type id metaToImport
                                       importedExtensions st3))).
Proof.
  split; [|split].
  - intros env contentDir files datas Hfiles st.
    rewrite (readExtensions_merge _ _ _ _ Hfiles). reflexivity.
  - intros env type postId metaToImport importedExtensions st.
    cbv zeta. rewrite pushExtensionMeta_eq. reflexivity.
  - intros env options slug type contentDir action existingItem data st
           result st1 id metaToImport importedExtensions st3
           Hreal Hcontent Hid success Hread.
    unfold execute, bind at 1. rewrite Hcontent, Hid.
    unfold lift. rewrite bind_ret. unfold log. rewrite bind_emit.
    unfold bind. rewrite Hreal.
    fold success. rewrite (importExtensionMeta_eq _ _ _ _ _ _ _ _ Hread).
    rewrite pushExtensionMeta_eq. reflexivity.
Qed.

(** The post of the example is created with identifier 7; the backend
    rejects both pushes of its metadata, and the run ends on the warning,
    the result being that of the creation. *)
Lemma metadata_push_degrades_witness :
  let run := execute helloEnv (mkOptions true false false) "hello" "posts"
                     "export/posts/hello" Create JNull (JObj []) start in
  fst run = Ok (Done "hello" Create (JNum 7) ["rank-math"]) /\
  skipn 7 (trace (snd run)) =
  [HttpRequest "PUT" "/posts/7"
     (JObj [("all_meta", JObj [("rank_math_title", JStr "T");
                               ("a_b", JNum 1)])]);
   HttpRequest "PUT" "/posts/7"
     (JObj [("meta", JObj [("rank_math_title", JStr "T");
                           ("a_b", JNum 1)])]);
   Log "warning"
       "  Could not import meta: API Error 400: rest_invalid_param"].
Proof.
  cbv zeta.
  rewrite (proj2 (proj2 metadata_push_degrades)
             helloEnv (mkOptions true false false) "hello" "posts"
             "export/posts/hello" Create JNull (JObj []) start
             (JObj [("id", JNum 7)])
             (snd (create helloEnv "/posts" (JObj []) start))
             (JNum 7)
             [("rank_math_title", JStr "T"); ("a_b", JNum 1)]
             ["rank-math"]
             (snd (readExtensionMeta helloEnv "export/posts/hello"
                     (mkRun (trace (snd (create helloEnv "/posts" (JObj [])
                                                start))
                             ++ [Log "success"
                                     "Created posts/hello (ID: 7)"])
                            0)))
             eq_refl eq_refl eq_refl eq_refl).
  split; vm_compute; reflexivity.
Defined.

(** C9, as amended. In a dry run [importItem] makes no request but [GET]s
    and uploads nothing: every event it adds leaves the backend as it was,
    and the upload counter keeps its value. It still reads the item: once
    the metadata file is there and parses, the run starts with the look at
    it, its reading and the reading of the body. When it returns a result,
    that is a skip or the planned action, and the planned action is the
    last line logged, as [Would create] or [Would update], and it is
    printed. The media of the
    item have no part in it: the run is the same under any file system that
    agrees on the metadata and the body, whatever the media directory and
    the mapping file hold. *)
Theorem dry_run_reads_and_plans env options slug type config st :
  dryRun options = true ->
  let contentDir := getContentDir (importDir config) type slug in
  let metadataPath := Path.join [contentDir; "metadata.json"] in
  let bodyPath := Path.join [contentDir; "body.html"] in
  let run := importItem env options slug type config st in
  (exists added,
     trace (snd run) = (trace st ++ added)%list /\
     Forall (fun e => isMutation e = false) added /\
     mediaUploaded (snd run) = mediaUploaded st)
  /\ (forall f metadata,
        fs env metadataPath = Some (RegularFile f) ->
        json f = Some metadata ->
        exists later,
          trace (snd run) =
          (trace st
           ++ [Log "verbose" ("Processing " ++ type ++ "/" ++ slug);
               Stat metadataPath; ReadFile metadataPath; ReadFile bodyPath]
           ++ later)%list)
  /\ (forall r, fst run = Ok r ->
        (exists existingItem,
           decideAction (importMode config) existingItem = Skip /\
           r = Skipped slug (skipReason existingItem)) \/
        (exists existingItem past,
           let action := decideAction (importMode config) existingItem in
           let report :=
             Log "dry-run"
                 ("Would " ++ actionName action ++ " " ++ type ++ "/"
                  ++ slug) in
           action <> Skip /\
           r = WouldDo slug action /\
           trace (snd run) = (past ++ [report])%list /\
           printed options report = true))
  /\ (forall env',
        server env' = server env ->
        fs env' metadataPath = fs env metadataPath ->
        fs env' bodyPath = fs env bodyPath ->
        importItem env' options slug type config st = run).
Proof.
  intros Hdry contentDir metadataPath bodyPath run.
  split; [|split; [|split]].
  - destruct (readOnly_importItem env options slug type config Hdry st)
      as [added [Htrace [Hadded Hcount]]].
    exists added. split; [exact Htrace|]. split; [|exact Hcount].
    apply Forall_impl with (2 := Hadded). intros e He.
    unfold readOnly in He. now apply negb_true_iff in He.
  - intros f metadata Hf Hj.
    exact (importItem_dry_reads env options slug type config st Hdry
             f metadata Hf Hj).
  - intros r Hr. subst run.
    destruct (importItem env options slug type config st) as [res st'] eqn:E.
    cbn [fst snd] in *. subst res.
    destruct (importItem_dry_report _ _ _ _ _ _ _ _ Hdry E)
      as [Hskip | [existingItem [past [Ha [Hr Ht]]]]]; [now left|].
    right. exists existingItem, past. cbv zeta. auto.
  - intros env' Hserver Hmeta Hbody.
    exact (importItem_dry_frame env env' options slug type config st Hdry
             Hserver Hmeta Hbody).
Qed.

(** The dry run of the example: four events for the local reads, the lookup
    and the plan. *)
Lemma dry_run_reads_and_plans_witness :
  exists later,
    trace (snd (importItem helloEnv (mkOptions true true false) "hello"
                           "posts" helloConfig start)) =
    ([Log "verbose" "Processing posts/hello";
      Stat "export/posts/hello/metadata.json";
      ReadFile "export/posts/hello/metadata.json";
      ReadFile "export/posts/hello/body.html"] ++ later)%list.
Proof.
  pose proof (proj1 (proj2 (dry_run_reads_and_plans
                              helloEnv (mkOptions true true false) "hello"
                              "posts" helloConfig start eq_refl))
                (mkFile "{...}"
                   (Some (JObj [("slug", JStr "hello");
                                ("title", JStr "Hello");
                                ("status", JStr "publish")])))
                (JObj [("slug", JStr "hello"); ("title", JStr "Hello");
                       ("status", JStr "publish")])) as H.
  specialize (H ltac:(vm_compute; reflexivity) eq_refl).
  exact H.
Defined.

(** C9, as the claim states it, fails on the post of the example. A real
    run uploads its image; the dry run returns the plan to create the post
    and prints it, and nothing of what it does or logs is about the media:
    it does not look at the media directory or the mapping file, and
    reports no upload that would take place. *)
Lemma dry_run_reports_no_media :
  let contentDir := "export/posts/hello" in
  let real := importItem helloEnv (mkOptions true false false) "hello"
                         "posts" helloConfig start in
  let dry := importItem helloEnv (mkOptions true true false) "hello"
                        "posts" helloConfig start in
  filter (aboutMedia contentDir) (trace (snd real)) =
    [Stat "export/posts/hello/media-mapping.json";
     ReadFile "export/posts/hello/media-mapping.json";
     Log "verbose" "  Uploading 1 media files...";
     Stat "export/posts/hello/media";
     ReadDir "export/posts/hello/media";
     ReadFile "export/posts/hello/media/a-1.jpg";
     MediaUpload "export/posts/hello/media/a-1.jpg";
     Log "verbose" "    Uploaded: a-1.jpg"] /\
  mediaUploaded (snd real) = 1 /\
  fst dry = Ok (WouldDo "hello" Create) /\
  trace (snd dry) =
    [Log "verbose" "Processing posts/hello";
     Stat "export/posts/hello/metadata.json";
     ReadFile "export/posts/hello/metadata.json";
     ReadFile "export/posts/hello/body.html";
     HttpRequest "GET" "/posts?slug=hello" JUndefined;
     Log "dry-run" "Would create posts/hello"] /\
  filter (printed (mkOptions true true false)) (trace (snd dry)) =
    [Log "dry-run" "Would create posts/hello"] /\
  filter (aboutMedia contentDir) (trace (snd dry)) = [].
Proof.
  cbv zeta.
  split; [vm_compute; reflexivity|].
  split; [vm_compute; reflexivity|].
  split; [vm_compute; reflexivity|].
  split; [vm_compute; reflexivity|].
  split; vm_compute; reflexivity.
Qed.

End ImportClaims.

(** * Further properties of the scripts *)

(** ** The configuration *)

Module ConfigFacts.
Import JS MediaHandler WpImport WpConfig AlistFacts.

Lemma orElse_nonempty a b : b <> "" -> orElse a b <> "".
Proof.
  intros Hb. unfold orElse. destruct a as [s|]; [|assumption].
  destruct (String.eqb_spec s ""); assumption.
Qed.

Lemma orElse_empty a : orElse a "" = "" <-> a = None \/ a = Some "".
Proof.
  unfold orElse. destruct a as [s|]; [|tauto].
  destruct (String.eqb_spec s "") as [->|Hs].
  - tauto.
  - split; [contradiction|]. intros [H|H]; [discriminate | congruence].
Qed.

Lemma dropLastSlash_empty s : dropLastSlash s = "" <-> s = "" \/ s = "/".
Proof.
  destruct s as [|c t]; cbn [dropLastSlash].
  - tauto.
  - destruct t as [|d t'].
    + destruct (Ascii.eqb_spec c "/") as [->|Hc].
      * tauto.
      * split; [discriminate|]. intros [H|H]; [discriminate | congruence].
    + split; [discriminate|]. intros [H|H]; discriminate.
Qed.

(** What [dropLastSlash] takes away. *)
Lemma dropLastSlash_spec s :
  (endsWithChar "/" s = true /\ s = dropLastSlash s ++ "/") \/
  (endsWithChar "/" s = false /\ s = dropLastSlash s).
Proof.
  induction s as [|c t IH]; [now right|].
  cbn [dropLastSlash endsWithChar]. destruct t as [|d t'].
  - destruct (Ascii.eqb_spec c "/") as [->|Hc]; [now left | now right].
  - destruct IH as [[He Ht]|[He Ht]]; [left | right]; split; try assumption;
      cbn [append]; now rewrite <- Ht.
Qed.

Lemma chosenUrl_nonempty cli env : chosenUrl cli env <> "".
Proof.
  unfold chosenUrl. apply orElse_nonempty, orElse_nonempty. discriminate.
Qed.

Lemma validateConfig_ok config :
  validateConfig config = Ok tt <->
  url config <> "" /\ user config <> "" /\ appPassword config <> "" /\
  In (contentType config) validTypes /\
  In (postStatus config) validStatuses /\
  In (importMode config) validModes.
Proof.
  unfold validateConfig. rewrite <- !includes_in.
  destruct (String.eqb_spec (url config) "") as [Hu|Hu];
    [split; [discriminate | tauto]|].
  destruct (String.eqb_spec (user config) "") as [Hn|Hn];
    [split; [discriminate | tauto]|].
  destruct (String.eqb_spec (appPassword config) "") as [Hp|Hp];
    [split; [discriminate | tauto]|].
  cbn [orb].
  destruct (includes validTypes (contentType config));
    [|split; [discriminate | intuition discriminate]].
  destruct (includes validStatuses (postStatus config));
    [|split; [discriminate | intuition discriminate]].
  destruct (includes validModes (importMode config));
    [|split; [discriminate | intuition discriminate]].
  cbn [negb]. tauto.
Qed.

End ConfigFacts.

Module ConfigProperties.
Import JS MediaHandler WpImport WpConfig AlistFacts ConfigFacts.

(** X1. The configuration that [getConfig] builds passes [validateConfig]
    exactly when the chosen URL is not the single slash (the only one that
    normalisation empties), a password comes from the options or the
    environment, and the content type, status and mode, where given, are
    among the valid ones. The user name never stands in the way: it
    defaults to [admin]. With no password the check fails on the
    credentials, and a URL that is only a slash fails as a missing URL. *)
Theorem getConfig_validates defaultDir env cli :
  let config := getConfig defaultDir env cli in
  let password :=
    orElse (cliPassword cli) (orElse (WP_REMOTE_APP_PASSWORD env) "") in
  (validateConfig config = Ok tt <->
   chosenUrl cli env <> "/" /\ password <> "" /\
   In (orElse (cliType cli) "all") validTypes /\
   In (orElse (cliStatus cli) "publish") validStatuses /\
   In (orElse (cliMode cli) "sync") validModes)
  /\ user config <> ""
  /\ (chosenUrl cli env = "/" ->
      validateConfig config =
      Throw "WordPress URL is required. Set WP_REMOTE_URL in .env or use --url option.")
  /\ (chosenUrl cli env <> "/" -> password = "" ->
      validateConfig config =
      Throw "WordPress credentials are required. Set WP_REMOTE_USER and WP_REMOTE_APP_PASSWORD in .env.").
Proof.
  intros config password.
  assert (Huser : user config <> "").
  { cbn [config getConfig user].
    apply orElse_nonempty, orElse_nonempty. discriminate. }
  assert (Hurl : url config = "" <-> chosenUrl cli env = "/").
  { cbn [config getConfig url]. rewrite dropLastSlash_empty.
    pose proof (chosenUrl_nonempty cli env). tauto. }
  split; [|split; [exact Huser | split]].
  - rewrite validateConfig_ok. cbn [config getConfig appPassword contentType
      postStatus importMode]. fold password. tauto.
  - intros Hslash. unfold validateConfig.
    apply Hurl in Hslash. rewrite Hslash. reflexivity.
  - intros Hslash Hpw. unfold validateConfig.
    destruct (String.eqb_spec (url config) "") as [Hu|Hu];
      [apply Hurl in Hu; contradiction|].
    cbn [config getConfig appPassword]. fold password. rewrite Hpw.
    cbn [String.eqb]. now rewrite orb_true_r.
Qed.

(** X2. Once [validateConfig] has passed, the reason of a skipped item
    names the mode the run was given: [exists (mode=create)] comes under
    [create] only and [not found (mode=update)] under [update] only, and
    [sync] never skips. A mode that [validateConfig] would refuse skips
    every item. *)
Theorem validated_mode_skip_reason config existingItem :
  validateConfig config = Ok tt ->
  (decideAction (importMode config) existingItem = Skip ->
   skipReason existingItem =
   (if truthy existingItem then "exists" else "not found")
   ++ " (mode=" ++ importMode config ++ ")")
  /\ (importMode config = "sync" ->
      decideAction (importMode config) existingItem <> Skip)
  /\ (forall mode item, ~ In mode validModes -> decideAction mode item = Skip).
Proof.
  intros Hok. apply validateConfig_ok in Hok.
  destruct Hok as [_ [_ [_ [_ [_ Hmode]]]]].
  split; [|split].
  - unfold decideAction, skipReason.
    destruct Hmode as [<- | [<- | [<- | []]]];
      destruct (truthy existingItem); cbn; intros H;
      try discriminate; reflexivity.
  - intros ->. unfold decideAction. destruct (truthy existingItem); cbn;
      discriminate.
  - intros mode item Hno. unfold decideAction.
    destruct (String.eqb_spec mode "create") as [->|_];
      [exfalso; apply Hno; cbn; auto|].
    destruct (String.eqb_spec mode "update") as [->|_];
      [exfalso; apply Hno; cbn; auto|].
    destruct (String.eqb_spec mode "sync") as [->|_];
      [exfalso; apply Hno; cbn; auto|].
    reflexivity.
Qed.

(** The configuration of a run with a password and [--mode update]. *)
Lemma validated_mode_skip_reason_witness :
  skipReason JNull = "not found (mode=update)".
Proof.
  apply (proj1 (validated_mode_skip_reason
                  (getConfig "/work/export" (mkProcessEnv None None None)
                     (mkCliOptions None None (Some "secret") None None None
                                   None (Some "update") false))
                  JNull eq_refl)).
  reflexivity.
Defined.

End ConfigProperties.

(** ** Directory and file names *)

Module NameFacts.
Import JS Text MediaHandler WpImport Shapes StringFacts RegExpFacts.

Lemma startsHyphen_match {A} (t : string) (a b : A) :
  match t with
  | String "-" _ => a
  | _ => b
  end = if startsHyphen t then a else b.
Proof.
  destruct t as [|c t']; [reflexivity|].
  destruct c as [[] [] [] [] [] [] [] []]; reflexivity.
Qed.

Lemma collapseHyphens_cons c t :
  collapseHyphens (String c t) =
  if Ascii.eqb c "-" && startsHyphen t then collapseHyphens t
  else String c (collapseHyphens t).
Proof.
  cbn [collapseHyphens]. rewrite startsHyphen_match.
  destruct (Ascii.eqb c "-"), (startsHyphen t); reflexivity.
Qed.

Lemma trimHyphens_eq s :
  trimHyphens s =
  match s with
  | EmptyString => EmptyString
  | String c t =>
      if Ascii.eqb c "-" then dropLastHyphen t else dropLastHyphen s
  end.
Proof.
  destruct s as [|c t]; [reflexivity|].
  destruct c as [[] [] [] [] [] [] [] []]; reflexivity.
Qed.

Lemma dropLastHyphen_cons c t :
  dropLastHyphen (String c t) =
  match t with
  | EmptyString => if Ascii.eqb c "-" then EmptyString else String c EmptyString
  | _ => String c (dropLastHyphen t)
  end.
Proof. destruct t; reflexivity. Qed.

Lemma isNameChar_hyphen : isNameChar "-" = true.
Proof. reflexivity. Qed.

Lemma allChars_hyphenate s : allChars isNameChar (hyphenate s) = true.
Proof.
  induction s as [|c t IH]; [reflexivity|].
  cbn [hyphenate allChars]. rewrite IH, andb_true_r.
  unfold isNameChar at 1.
  destruct (isLower c || isDigit c || Ascii.eqb c "-") eqn:E; [exact E|].
  reflexivity.
Qed.

Lemma allChars_collapse p s :
  allChars p s = true -> allChars p (collapseHyphens s) = true.
Proof.
  induction s as [|c t IH]; [reflexivity|].
  cbn [allChars]. intros H. apply andb_true_iff in H as [Hc Ht].
  rewrite collapseHyphens_cons.
  destruct (Ascii.eqb c "-" && startsHyphen t); [now apply IH|].
  cbn [allChars]. rewrite Hc. now apply IH.
Qed.

Lemma startsHyphen_collapse s :
  startsHyphen (collapseHyphens s) = startsHyphen s.
Proof.
  induction s as [|c t IH]; [reflexivity|].
  rewrite collapseHyphens_cons.
  destruct (Ascii.eqb c "-") eqn:Hc; cbn [andb].
  - destruct (startsHyphen t) eqn:Ht.
    + rewrite IH. cbn [startsHyphen]. now rewrite Hc.
    + cbn [startsHyphen]. reflexivity.
  - cbn [startsHyphen]. reflexivity.
Qed.

Lemma noDoubleHyphen_collapse s : noDoubleHyphen (collapseHyphens s) = true.
Proof.
  induction s as [|c t IH]; [reflexivity|].
  rewrite collapseHyphens_cons.
  destruct (Ascii.eqb c "-" && startsHyphen t) eqn:E; [exact IH|].
  cbn [noDoubleHyphen]. rewrite startsHyphen_collapse, E, IH. reflexivity.
Qed.

Lemma allChars_dropLast p s :
  allChars p s = true -> allChars p (dropLastHyphen s) = true.
Proof.
  induction s as [|c t IH]; [reflexivity|].
  cbn [allChars]. intros H. apply andb_true_iff in H as [Hc Ht].
  rewrite dropLastHyphen_cons. destruct t as [|d t'].
  - destruct (Ascii.eqb c "-"); cbn [allChars]; [reflexivity|].
    now rewrite Hc.
  - cbn [allChars]. rewrite Hc. now apply IH.
Qed.

Lemma startsHyphen_dropLast s :
  noDoubleHyphen s = true -> startsHyphen s = false ->
  startsHyphen (dropLastHyphen s) = false.
Proof.
  destruct s as [|c t]; [reflexivity|]. intros _ Hs.
  rewrite dropLastHyphen_cons. cbn [startsHyphen] in Hs.
  destruct t; [now rewrite Hs | exact Hs].
Qed.

Lemma noDoubleHyphen_tail c t :
  noDoubleHyphen (String c t) = true -> noDoubleHyphen t = true.
Proof. cbn [noDoubleHyphen]. intros H. now apply andb_true_iff in H. Qed.

Lemma startsHyphen_dropLast_eq s :
  dropLastHyphen s <> "" -> startsHyphen (dropLastHyphen s) = startsHyphen s.
Proof.
  destruct s as [|c t]; [reflexivity|]. rewrite dropLastHyphen_cons.
  destruct t; [|reflexivity].
  destruct (Ascii.eqb c "-"); [congruence | reflexivity].
Qed.

Lemma noDoubleHyphen_dropLast s :
  noDoubleHyphen s = true -> noDoubleHyphen (dropLastHyphen s) = true.
Proof.
  induction s as [|c t IH]; [reflexivity|]. intros H.
  pose proof (noDoubleHyphen_tail _ _ H) as Ht.
  rewrite dropLastHyphen_cons. destruct t as [|d t'].
  - destruct (Ascii.eqb c "-"); [reflexivity | exact H].
  - cbn [noDoubleHyphen] in H |- *. rewrite (IH Ht), andb_true_r.
    apply andb_true_iff in H as [H _].
    destruct (Ascii.eqb c "-"); [|reflexivity]. cbn [andb] in *.
    destruct (string_dec (dropLastHyphen (String d t')) "") as [->|Hne];
      [reflexivity|].
    now rewrite startsHyphen_dropLast_eq.
Qed.

Lemma endsWithChar_cons c d t :
  endsWithChar c (String d t) =
  match t with
  | EmptyString => Ascii.eqb d c
  | _ => endsWithChar c t
  end.
Proof. reflexivity. Qed.

(** After one hyphen is dropped from the end of a text without doubled
    hyphens, none is left there. *)
Lemma endsWithChar_dropLast s :
  noDoubleHyphen s = true -> endsWithChar "-" (dropLastHyphen s) = false.
Proof.
  induction s as [|c t IH]; [reflexivity|]. intros H.
  pose proof (noDoubleHyphen_tail _ _ H) as Ht.
  rewrite dropLastHyphen_cons. destruct t as [|d t'].
  - destruct (Ascii.eqb c "-") eqn:Hc; [reflexivity|].
    cbn [endsWithChar]. exact Hc.
  - rewrite endsWithChar_cons.
    destruct (dropLastHyphen (String d t')) as [|e r] eqn:Hd.
    + (* the tail was the single hyphen *)
      rewrite dropLastHyphen_cons in Hd. destruct t' as [|d' t''].
      * destruct (Ascii.eqb d "-") eqn:Hdh; [|discriminate].
        cbn [noDoubleHyphen startsHyphen] in H. rewrite Hdh in H.
        destruct (Ascii.eqb c "-"); [discriminate | reflexivity].
      * discriminate.
    + now apply IH.
Qed.

Lemma isSafeName_cleaned s :
  allChars isNameChar s = true -> noDoubleHyphen s = true ->
  isSafeName (trimHyphens s) = true.
Proof.
  intros Ha Hn. rewrite trimHyphens_eq. destruct s as [|c t]; [reflexivity|].
  pose proof (noDoubleHyphen_tail _ _ Hn) as Ht.
  assert (Hat : allChars isNameChar t = true).
  { cbn [allChars] in Ha. now apply andb_true_iff in Ha. }
  unfold isSafeName. destruct (Ascii.eqb c "-") eqn:Hc.
  - rewrite (allChars_dropLast _ _ Hat), (endsWithChar_dropLast _ Ht),
      (noDoubleHyphen_dropLast _ Ht).
    rewrite startsHyphen_dropLast; [reflexivity | assumption|].
    cbn [noDoubleHyphen] in Hn. rewrite Hc in Hn. cbn [andb] in Hn.
    apply andb_true_iff in Hn as [Hn _]. now apply negb_true_iff in Hn.
  - rewrite (allChars_dropLast _ _ Ha), (endsWithChar_dropLast _ Hn),
      (noDoubleHyphen_dropLast _ Hn).
    rewrite startsHyphen_dropLast; [reflexivity | assumption|].
    cbn [startsHyphen]. exact Hc.
Qed.

Lemma isSafeName_cleanName s : isSafeName (cleanName s) = true.
Proof.
  unfold cleanName. apply isSafeName_cleaned.
  - apply allChars_collapse, allChars_hyphenate.
  - apply noDoubleHyphen_collapse.
Qed.

(** *** Lengths *)

Lemma length_toLowerCase s : String.length (toLowerCase s) = String.length s.
Proof. induction s; cbn; congruence. Qed.

Lemma length_hyphenate s : String.length (hyphenate s) = String.length s.
Proof. induction s; cbn; congruence. Qed.

Lemma length_collapse s :
  String.length (collapseHyphens s) <= String.length s.
Proof.
  induction s as [|c t IH]; [reflexivity|]. rewrite collapseHyphens_cons.
  destruct (Ascii.eqb c "-" && startsHyphen t); cbn [String.length]; lia.
Qed.

Lemma length_dropLast s : String.length (dropLastHyphen s) <= String.length s.
Proof.
  induction s as [|c t IH]; [reflexivity|]. rewrite dropLastHyphen_cons.
  destruct t as [|d t'].
  - destruct (Ascii.eqb c "-"); cbn [String.length]; lia.
  - cbn [String.length] in *. lia.
Qed.

Lemma length_trim s : String.length (trimHyphens s) <= String.length s.
Proof.
  rewrite trimHyphens_eq. destruct s as [|c t]; [reflexivity|].
  destruct (Ascii.eqb c "-").
  - pose proof (length_dropLast t). cbn [String.length]. lia.
  - apply length_dropLast.
Qed.

Lemma length_cleanName s : String.length (cleanName s) <= String.length s.
Proof.
  unfold cleanName.
  pose proof (length_trim (collapseHyphens (hyphenate (toLowerCase s)))).
  pose proof (length_collapse (hyphenate (toLowerCase s))).
  rewrite length_hyphenate, length_toLowerCase in *. lia.
Qed.

(** *** Names that are safe already *)

Lemma lowerChar_nameChar c : isNameChar c = true -> lowerChar c = c.
Proof.
  destruct c as [[] [] [] [] [] [] [] []]; intros H; try reflexivity;
    discriminate H.
Qed.

Lemma lowerChar_idem c : lowerChar (lowerChar c) = lowerChar c.
Proof. destruct c as [[] [] [] [] [] [] [] []]; reflexivity. Qed.

Lemma toLowerCase_idem s : toLowerCase (toLowerCase s) = toLowerCase s.
Proof.
  induction s as [|c t IH]; [reflexivity|].
  cbn [toLowerCase]. now rewrite lowerChar_idem, IH.
Qed.

Lemma toLowerCase_safe s :
  allChars isNameChar s = true -> toLowerCase s = s.
Proof.
  induction s as [|c t IH]; [reflexivity|]. cbn [allChars toLowerCase].
  intros H. apply andb_true_iff in H as [Hc Ht].
  now rewrite (lowerChar_nameChar c Hc), IH.
Qed.

Lemma hyphenate_safe s : allChars isNameChar s = true -> hyphenate s = s.
Proof.
  induction s as [|c t IH]; [reflexivity|]. cbn [allChars hyphenate].
  intros H. apply andb_true_iff in H as [Hc Ht]. rewrite (IH Ht).
  unfold isNameChar in Hc. now rewrite Hc.
Qed.

Lemma collapseHyphens_safe s :
  noDoubleHyphen s = true -> collapseHyphens s = s.
Proof.
  induction s as [|c t IH]; [reflexivity|]. intros H.
  rewrite collapseHyphens_cons, (IH (noDoubleHyphen_tail _ _ H)).
  cbn [noDoubleHyphen] in H. apply andb_true_iff in H as [H _].
  apply negb_true_iff in H. now rewrite H.
Qed.

Lemma dropLastHyphen_safe s :
  endsWithChar "-" s = false -> dropLastHyphen s = s.
Proof.
  induction s as [|c t IH]; [reflexivity|].
  rewrite endsWithChar_cons, dropLastHyphen_cons. destruct t as [|d t'].
  - intros H. now rewrite H.
  - intros H. now rewrite (IH H).
Qed.

Lemma cleanName_safe s : isSafeName s = true -> cleanName s = s.
Proof.
  unfold isSafeName. intros H.
  apply andb_true_iff in H as [H Hn].
  apply andb_true_iff in H as [H He].
  apply andb_true_iff in H as [Ha Hs].
  apply negb_true_iff in He, Hs.
  unfold cleanName.
  rewrite (toLowerCase_safe s Ha), (hyphenate_safe s Ha),
    (collapseHyphens_safe s Hn), trimHyphens_eq.
  destruct s as [|c t]; [reflexivity|].
  cbn [startsHyphen] in Hs. rewrite Hs. now apply dropLastHyphen_safe.
Qed.

(** *** The letters and digits of a name *)

Lemma keep_collapse s :
  keep notHyphen (collapseHyphens s) = keep notHyphen s.
Proof.
  induction s as [|c t IH]; [reflexivity|].
  rewrite collapseHyphens_cons. unfold notHyphen at 2. cbn [keep].
  destruct (Ascii.eqb c "-") eqn:Hc; cbn [andb negb].
  - destruct (startsHyphen t); [exact IH|].
    cbn [keep]. unfold notHyphen at 1. now rewrite Hc.
  - cbn [keep]. unfold notHyphen at 1. rewrite Hc. cbn [negb].
    now rewrite IH.
Qed.

Lemma keep_dropLast s :
  keep notHyphen (dropLastHyphen s) = keep notHyphen s.
Proof.
  induction s as [|c t IH]; [reflexivity|].
  rewrite dropLastHyphen_cons. destruct t as [|d t'].
  - cbn [keep]. unfold notHyphen.
    destruct (Ascii.eqb c "-") eqn:Hc; cbn [negb keep]; [reflexivity|].
    unfold notHyphen. now rewrite Hc.
  - cbn [keep] in *. now rewrite IH.
Qed.

Lemma keep_trim s : keep notHyphen (trimHyphens s) = keep notHyphen s.
Proof.
  rewrite trimHyphens_eq. destruct s as [|c t]; [reflexivity|].
  destruct (Ascii.eqb c "-") eqn:Hc; rewrite keep_dropLast; [|reflexivity].
  cbn [keep]. unfold notHyphen at 2. now rewrite Hc.
Qed.

Lemma isAlnum_lower c :
  notHyphen (if isLower (lowerChar c) || isDigit (lowerChar c)
                || Ascii.eqb (lowerChar c) "-"
             then lowerChar c else "-"%char) = isAlnum c.
Proof. destruct c as [[] [] [] [] [] [] [] []]; reflexivity. Qed.

Lemma keep_hyphenate s :
  keep notHyphen (hyphenate (toLowerCase s)) = toLowerCase (keep isAlnum s).
Proof.
  induction s as [|c t IH]; [reflexivity|].
  cbn [toLowerCase hyphenate keep]. rewrite isAlnum_lower, IH.
  destruct (isAlnum c) eqn:Hc; [|reflexivity].
  cbn [toLowerCase]. f_equal.
  revert Hc. clear. destruct c as [[] [] [] [] [] [] [] []]; intros H;
    try reflexivity; discriminate H.
Qed.

Lemma keep_cleanName s :
  keep notHyphen (cleanName s) = toLowerCase (keep isAlnum s).
Proof.
  unfold cleanName. now rewrite keep_trim, keep_collapse, keep_hyphenate.
Qed.

Lemma keep_all p s : allChars p s = true -> keep p s = s.
Proof.
  induction s as [|c t IH]; [reflexivity|]. cbn [allChars keep].
  intros H. apply andb_true_iff in H as [Hc Ht]. now rewrite Hc, IH.
Qed.

Lemma keep_none p s :
  keep p s = "" <-> allChars (fun c => negb (p c)) s = true.
Proof.
  induction s as [|c t IH]; [cbn; tauto|]. cbn [keep allChars].
  destruct (p c); cbn [negb andb]; [split; discriminate | exact IH].
Qed.

Lemma toLowerCase_empty s : toLowerCase s = "" <-> s = "".
Proof. destruct s; cbn; split; congruence. Qed.

(** A safe name made of hyphens only is empty. *)
Lemma isSafeName_hyphens s :
  isSafeName s = true -> keep notHyphen s = "" -> s = "".
Proof.
  destruct s as [|c t]; [reflexivity|]. unfold isSafeName.
  intros H Hk. apply andb_true_iff in H as [H _].
  apply andb_true_iff in H as [H _]. apply andb_true_iff in H as [_ Hs].
  cbn [startsHyphen] in Hs. apply negb_true_iff in Hs.
  cbn [keep] in Hk. unfold notHyphen at 1 in Hk. rewrite Hs in Hk.
  discriminate.
Qed.

Lemma noSlash_nameChars s : allChars isNameChar s = true -> noSlash s = true.
Proof.
  unfold noSlash. induction s as [|c t IH]; [reflexivity|]. cbn [allChars].
  intros H. apply andb_true_iff in H as [Hc Ht]. rewrite (IH Ht), andb_true_r.
  revert Hc. clear. destruct c as [[] [] [] [] [] [] [] []]; intros H;
    try reflexivity; discriminate H.
Qed.

Lemma isLowerAlnum_lower c : isLowerAlnum (lowerChar c) = isAlnum c.
Proof. destruct c as [[] [] [] [] [] [] [] []]; reflexivity. Qed.

Lemma keep_lower s :
  keep isLowerAlnum (toLowerCase s) = toLowerCase (keep isAlnum s).
Proof.
  induction s as [|c t IH]; [reflexivity|]. cbn [toLowerCase keep].
  rewrite isLowerAlnum_lower. destruct (isAlnum c); cbn [toLowerCase];
    now rewrite IH.
Qed.

Lemma allChars_lower s :
  allChars (fun c => negb (isLowerAlnum c)) (toLowerCase s) =
  allChars (fun c => negb (isAlnum c)) s.
Proof.
  induction s as [|c t IH]; [reflexivity|]. cbn [toLowerCase allChars].
  now rewrite isLowerAlnum_lower, IH.
Qed.

End NameFacts.

Module NameProperties.
Import JS Text MediaHandler WpImport Shapes StringFacts NameFacts.

(** X3. The directory name that [safeDirName] makes of any slug consists
    of lower-case letters, digits and hyphens, with no hyphen at either end
    and no two hyphens in a row; in particular it holds no slash, so it
    adds at most one segment to the path of the type's directory. The name
    is never longer than the lower-case form of the slug. *)
Theorem safeDirName_shape (slug : string) :
  isSafeName (safeDirName slug) = true /\
  noSlash (safeDirName slug) = true /\
  String.length (safeDirName slug) <= String.length (toLowerCase slug).
Proof.
  pose proof (isSafeName_cleanName slug) as H.
  split; [exact H|]. split.
  - apply noSlash_nameChars. unfold isSafeName in H.
    apply andb_true_iff in H as [H _]. apply andb_true_iff in H as [H _].
    now apply andb_true_iff in H as [H _].
  - rewrite length_toLowerCase. apply length_cleanName.
Qed.

(** X4. The names that [safeDirName] leaves unchanged are exactly the safe
    ones. Hence it is idempotent, the directory of an item is found again
    from the directory name itself (what the import does with the names it
    lists), and slugs that differ in letter case only share a directory. *)
Theorem safeDirName_fixed_points :
  (forall s, isSafeName s = true <-> safeDirName s = s)
  /\ (forall slug, safeDirName (safeDirName slug) = safeDirName slug)
  /\ (forall baseDir type slug,
        getContentDir baseDir type (safeDirName slug) =
        getContentDir baseDir type slug)
  /\ (forall slug, safeDirName (toLowerCase slug) = safeDirName slug).
Proof.
  assert (Hfix : forall s, isSafeName s = true <-> safeDirName s = s).
  { intros s. split; [apply cleanName_safe|].
    intros H. rewrite <- H. apply isSafeName_cleanName. }
  assert (Hidem : forall slug,
            safeDirName (safeDirName slug) = safeDirName slug).
  { intros slug. apply Hfix, isSafeName_cleanName. }
  split; [exact Hfix|]. split; [exact Hidem|]. split.
  - intros baseDir type slug. unfold getContentDir. now rewrite Hidem.
  - intros slug. unfold safeDirName, cleanName.
    now rewrite toLowerCase_idem.
Qed.

(** X5. [safeDirName] keeps the characters [a] to [z] and [0] to [9] of
    the lower-case form of the slug, in order; everything else becomes a
    hyphen or goes. So the name is empty exactly when the lower-case form
    of the slug has none of these characters. *)
Theorem safeDirName_letters (slug : string) :
  keep notHyphen (safeDirName slug)
    = keep isLowerAlnum (toLowerCase slug) /\
  (safeDirName slug = "" <->
   allChars (fun c => negb (isLowerAlnum c)) (toLowerCase slug) = true).
Proof.
  rewrite keep_lower, allChars_lower.
  pose proof (keep_cleanName slug) as Hk. split; [exact Hk|].
  rewrite <- keep_none. unfold safeDirName. split.
  - intros H. rewrite H in Hk. cbn [keep] in Hk. symmetry in Hk.
    exact (proj1 (toLowerCase_empty _) Hk).
  - intros H. rewrite H in Hk.
    apply isSafeName_hyphens; [apply isSafeName_cleanName | exact Hk].
Qed.

End NameProperties.

(** ** Generated file names *)

Module FilenameFacts.
Import JS Text MediaHandler Shapes StringFacts NameFacts MediaFacts.

Lemma allChars_str p (l : list ascii) :
  allChars p (Path.str l) = forallb p l.
Proof.
  unfold Path.str. induction l as [|c t IH]; [reflexivity|].
  cbn [string_of_list_ascii allChars forallb]. now rewrite IH.
Qed.

Lemma forallb_chars p (s : string) :
  forallb p (Path.chars s) = allChars p s.
Proof.
  unfold Path.chars. induction s as [|c t IH]; [reflexivity|].
  cbn [list_ascii_of_string allChars forallb]. now rewrite IH.
Qed.

Lemma forallb_rev {A} (p : A -> bool) l : forallb p (rev l) = forallb p l.
Proof.
  induction l as [|a t IH]; [reflexivity|]. cbn [rev forallb].
  rewrite forallb_app, IH. cbn [forallb]. rewrite andb_true_r.
  apply andb_comm.
Qed.

Lemma forallb_takeWhile (q p : ascii -> bool) l :
  forallb p l = true -> forallb p (Path.takeWhile q l) = true.
Proof.
  induction l as [|c t IH]; [reflexivity|]. cbn [forallb Path.takeWhile].
  intros H. apply andb_true_iff in H as [Hc Ht].
  destruct (q c); [|reflexivity]. cbn [forallb]. now rewrite Hc, IH.
Qed.

Lemma forallb_dropWhile (q p : ascii -> bool) l :
  forallb p l = true -> forallb p (Path.dropWhile q l) = true.
Proof.
  induction l as [|c t IH]; [reflexivity|]. cbn [forallb Path.dropWhile].
  intros H. destruct (q c); [|exact H].
  apply andb_true_iff in H as [_ Ht]. now apply IH.
Qed.

Lemma takeWhile_all (p : ascii -> bool) l :
  forallb p (Path.takeWhile p l) = true.
Proof.
  induction l as [|c t IH]; [reflexivity|]. cbn [Path.takeWhile].
  destruct (p c) eqn:Hc; [|reflexivity]. cbn [forallb]. now rewrite Hc, IH.
Qed.

(** A base name holds no slash. *)
Lemma noSlash_basename path : noSlash (Path.basename path) = true.
Proof.
  unfold noSlash, Path.basename. rewrite allChars_str, forallb_rev.
  apply (takeWhile_all (fun c => negb (Path.isSlash c))).
Qed.

(** The extension is made of characters of the base name. *)
Lemma allChars_extname p path :
  allChars p (Path.basename path) = true ->
  allChars p (Path.extname path) = true.
Proof.
  intros H. unfold Path.extname.
  assert (Hc : forallb p (rev (Path.chars (Path.basename path))) = true).
  { now rewrite forallb_rev, forallb_chars. }
  set (component := rev (Path.chars (Path.basename path))) in *.
  pose proof (forallb_dropWhile (fun c => negb (Path.isDot c)) p component Hc)
    as Hd.
  pose proof (forallb_takeWhile (fun c => negb (Path.isDot c)) p component Hc)
    as Ht.
  destruct (Path.dropWhile (fun c => negb (Path.isDot c)) component)
    as [|dot [|x rest]]; [reflexivity | reflexivity|].
  destruct (String.eqb (Path.basename path) ".."); [reflexivity|].
  rewrite allChars_str. cbn [forallb] in Hd |- *.
  apply andb_true_iff in Hd as [Hdot _]. now rewrite Hdot, forallb_rev.
Qed.

Lemma allChars_app p (a b : string) :
  allChars p (a ++ b) = allChars p a && allChars p b.
Proof.
  induction a as [|c a IH]; [reflexivity|]. cbn [append allChars].
  now rewrite IH, andb_assoc.
Qed.

Lemma allChars_substring p n m s :
  allChars p s = true -> allChars p (substring n m s) = true.
Proof.
  revert n m. induction s as [|c t IH]; intros n m H.
  - now destruct n, m.
  - cbn [allChars] in H. apply andb_true_iff in H as [Hc Ht].
    destruct n as [|n]; cbn [substring].
    + destruct m as [|m]; [reflexivity|]. cbn [allChars].
      now rewrite Hc, IH.
    + now apply IH.
Qed.

Lemma length_substring_le n m s : String.length (substring n m s) <= m.
Proof.
  revert n m. induction s as [|c t IH]; intros n m.
  - destruct n, m; cbn; lia.
  - destruct n as [|n]; cbn [substring].
    + destruct m as [|m]; [cbn; lia|]. cbn [String.length].
      specialize (IH 0 m). lia.
    + apply IH.
Qed.

(** *** The digits of the digest *)

Lemma land_byte (w : N) : (N.land w 255 < 256)%N.
Proof.
  change 255%N with (N.ones 8). rewrite N.land_ones.
  apply N.mod_lt. discriminate.
Qed.

Lemma hexDigit_hex (n : N) : (n < 16)%N -> isHexChar (MD5.hexDigit n) = true.
Proof.
  intros H. destruct n as [|p]; [reflexivity|].
  do 4 (try destruct p as [p|p|]); try reflexivity; lia.
Qed.

Lemma hexByte_hex (b : N) :
  (b < 256)%N -> allChars isHexChar (MD5.hexByte b) = true.
Proof.
  intros H. unfold MD5.hexByte. cbn [allChars].
  rewrite !hexDigit_hex; [reflexivity | |].
  - apply N.mod_lt. discriminate.
  - apply N.Div0.div_lt_upper_bound. exact H.
Qed.

Lemma hex_hex (bytes : list N) :
  Forall (fun b => (b < 256)%N) bytes ->
  allChars isHexChar (MD5.hex bytes) = true.
Proof.
  induction 1 as [|b t Hb _ IH]; [reflexivity|].
  cbn [MD5.hex]. now rewrite allChars_app, hexByte_hex, IH.
Qed.

Lemma wordBytes_bytes w : Forall (fun b => (b < 256)%N) (MD5.wordBytes w).
Proof. unfold MD5.wordBytes. repeat constructor; apply land_byte. Qed.

Lemma md5Hex_hex s : allChars isHexChar (MD5.md5Hex s) = true.
Proof.
  unfold MD5.md5Hex, MD5.digest. apply hex_hex.
  repeat (apply Forall_app; split); apply wordBytes_bytes.
Qed.

Lemma noSlash_hex s : allChars isHexChar s = true -> noSlash s = true.
Proof.
  unfold noSlash. induction s as [|c t IH]; [reflexivity|]. cbn [allChars].
  intros H. apply andb_true_iff in H as [Hc Ht]. rewrite (IH Ht), andb_true_r.
  revert Hc. clear. destruct c as [[] [] [] [] [] [] [] []]; intros H;
    try reflexivity; discriminate H.
Qed.

End FilenameFacts.

Module FilenameProperties.
Import JS Text MediaHandler Shapes StringFacts NameFacts MediaFacts
       FilenameFacts.

(** X6. Whatever the URL and whatever the parser makes of it, the name
    that [generateFilename] returns holds no slash and has at least nine
    characters: joined to the media directory it names a direct child of
    that directory, never the directory itself or its parent. When the URL
    parses, the name is a stem of at most 50 lower-case letters, digits and
    hyphens, a hyphen, the first eight hex digits of the MD5 digest of the
    URL, and the extension of the base name of the path (with its dot, as
    the URL has it) or [.jpg] when there is none. *)
Theorem generateFilename_component (URL_new : string -> Result URL)
                                   (url : string) :
  (exists name,
     generateFilename URL_new url = Ok name /\
     noSlash name = true /\ 9 <= String.length name)
  /\ (forall urlObj, URL_new url = Ok urlObj ->
      exists stem hash ext,
        generateFilename URL_new url = Ok (stem ++ "-" ++ hash ++ ext) /\
        String.length stem <= 50 /\ allChars isNameChar stem = true /\
        String.length hash = 8 /\ allChars isHexChar hash = true /\
        (ext = ".jpg" \/
         (ext <> "" /\
          ext = Path.extname (Path.basename (pathname urlObj)))) /\
        hash = substring 0 8 (MD5.md5Hex url)).
Proof.
  assert (Hparsed : forall urlObj, URL_new url = Ok urlObj ->
      exists stem hash ext,
        generateFilename URL_new url = Ok (stem ++ "-" ++ hash ++ ext) /\
        String.length stem <= 50 /\ allChars isNameChar stem = true /\
        String.length hash = 8 /\ allChars isHexChar hash = true /\
        (ext = ".jpg" \/
         (ext <> "" /\
          ext = Path.extname (Path.basename (pathname urlObj)))) /\
        hash = substring 0 8 (MD5.md5Hex url)).
  { intros urlObj Hu.
    unfold generateFilename, generateFilename_body, tryCatch. rewrite Hu.
    cbv zeta.
    set (originalName := Path.basename (pathname urlObj)).
    set (ext := if String.eqb (Path.extname originalName) "" then ".jpg"
                else Path.extname originalName).
    exists (substring 0 50 (cleanName (removeFirst ext originalName))),
           (substring 0 8 (MD5.md5Hex url)), ext.
    split; [reflexivity|]. split; [apply length_substring_le|].
    split.
    { apply allChars_substring.
      pose proof (isSafeName_cleanName (removeFirst ext originalName)) as H.
      unfold isSafeName in H. apply andb_true_iff in H as [H _].
      apply andb_true_iff in H as [H _].
      now apply andb_true_iff in H as [H _]. }
    split; [apply hash8_length|].
    split; [apply allChars_substring, md5Hex_hex|].
    split; [|reflexivity].
    subst ext. destruct (String.eqb_spec (Path.extname originalName) "");
      [now left | right; split; [assumption | reflexivity]]. }
  split; [|exact Hparsed].
  destruct (URL_new url) as [urlObj|message] eqn:Hu.
  - destruct (Hparsed urlObj eq_refl)
      as [stem [hash [ext [Hname [_ [Hstem [Hlen [Hhash [Hext _]]]]]]]]].
    exists (stem ++ "-" ++ hash ++ ext). split; [exact Hname|]. split.
    + unfold noSlash in *. rewrite !allChars_app.
      fold (noSlash stem) (noSlash hash) (noSlash ext).
      rewrite (noSlash_nameChars stem Hstem), (noSlash_hex hash Hhash).
      cbn [allChars andb]. destruct Hext as [->|[_ ->]]; [reflexivity|].
      apply (allChars_extname (fun c => negb (Ascii.eqb c "/"))).
      apply noSlash_basename.
    + rewrite !length_app, Hlen. cbn [String.length]. lia.
  - exists ("image-" ++ substring 0 12 (MD5.md5Hex url) ++ ".jpg").
    split.
    + unfold generateFilename, generateFilename_body, tryCatch.
      now rewrite Hu.
    + split.
      * unfold noSlash. rewrite !allChars_app.
        fold (noSlash (substring 0 12 (MD5.md5Hex url))).
        rewrite (noSlash_hex _ (allChars_substring _ 0 12 _ (md5Hex_hex url))).
        reflexivity.
      * rewrite !length_app. cbn [String.length]. lia.
Qed.

End FilenameProperties.

(** ** Names on export and names on import *)

Module UploadFilterFacts.
Import JS Text MediaHandler WpImport Shapes StringFacts NameFacts MediaFacts
       FilenameFacts.

(** The string read backwards. *)
Lemma reversed_app (a b : string) :
  Path.str (rev (Path.chars (a ++ b))) =
  Path.str (rev (Path.chars b)) ++ Path.str (rev (Path.chars a)).
Proof.
  unfold Path.str, Path.chars.
  assert (Hc : forall x y, list_ascii_of_string (x ++ y) =
                           (list_ascii_of_string x ++ list_ascii_of_string y)%list).
  { intros x y. induction x as [|c x IH]; [reflexivity|].
    cbn [append list_ascii_of_string]. now rewrite IH. }
  assert (Hs : forall l m, string_of_list_ascii (l ++ m) =
                           string_of_list_ascii l ++ string_of_list_ascii m).
  { intros l m. induction l as [|c l IH]; [reflexivity|].
    cbn [List.app string_of_list_ascii append]. now rewrite IH. }
  now rewrite Hc, rev_app_distr, Hs.
Qed.

Lemma reversed_inj (a b : string) :
  Path.str (rev (Path.chars a)) = Path.str (rev (Path.chars b)) -> a = b.
Proof.
  unfold Path.str, Path.chars. intros H.
  apply (f_equal list_ascii_of_string) in H.
  rewrite !list_ascii_of_string_of_list_ascii in H.
  apply (f_equal (@rev ascii)) in H. rewrite !rev_involutive in H.
  apply (f_equal string_of_list_ascii) in H.
  now rewrite !string_of_list_ascii_of_string in H.
Qed.

Lemma noDot_reversed (a : string) :
  noDot (Path.str (rev (Path.chars a))) = noDot a.
Proof.
  unfold noDot. now rewrite allChars_str, forallb_rev, forallb_chars.
Qed.

(** Two texts without dot, each followed by a dot: the first is at the
    start of the second only when they are the same text. *)
Lemma prefix_to_dot (a b rest : string) :
  noDot a = true -> noDot b = true ->
  String.prefix (a ++ ".") (b ++ String "." rest) = String.eqb a b.
Proof.
  unfold noDot. revert b.
  induction a as [|c a IH]; intros b Ha Hb.
  - destruct b as [|d b]; cbn [append String.prefix String.eqb].
    + destruct (ascii_dec "." "."); [now destruct rest | contradiction].
    + cbn [allChars] in Hb. apply andb_true_iff in Hb as [Hd _].
      destruct (ascii_dec "." d) as [<-|_]; [discriminate Hd | reflexivity].
  - cbn [allChars] in Ha. apply andb_true_iff in Ha as [Hc Ha].
    destruct b as [|d b]; cbn [append String.prefix String.eqb].
    + destruct (ascii_dec c ".") as [->|_]; [discriminate Hc | reflexivity].
    + cbn [allChars] in Hb. apply andb_true_iff in Hb as [_ Hb].
      destruct (ascii_dec c d) as [->|Hn].
      * rewrite Ascii.eqb_refl. now apply IH.
      * apply Ascii.eqb_neq in Hn. now rewrite Hn.
Qed.

(** A name that ends with a dot and a text without dot has a given
    extension exactly when that text is the extension. *)
Lemma endsWith_extension (stem e x : string) :
  noDot e = true -> noDot x = true ->
  endsWith (stem ++ String "." e) (String "." x) = String.eqb e x.
Proof.
  intros He Hx. unfold endsWith.
  change (String "." x) with ("." ++ x).
  change (String "." e) with ("." ++ e).
  rewrite !reversed_app.
  change (Path.str (rev (Path.chars "."))) with ".".
  rewrite app_assoc. cbn [append].
  rewrite prefix_to_dot by now rewrite noDot_reversed.
  destruct (String.eqb_spec e x) as [->|Hn]; [apply String.eqb_refl|].
  apply String.eqb_neq. intros H. apply Hn. symmetry.
  now apply reversed_inj.
Qed.

Lemma dropWhile_head (q : ascii -> bool) l c t :
  Path.dropWhile q l = c :: t -> q c = false.
Proof.
  induction l as [|a l IH]; [discriminate|]. cbn [Path.dropWhile].
  destruct (q a) eqn:Ha; [exact IH|]. intros H. injection H as <- _.
  exact Ha.
Qed.

(** An extension is a dot and a text without dot. *)
Lemma extname_shape path :
  Path.extname path = "" \/
  exists e, Path.extname path = String "." e /\ noDot e = true.
Proof.
  unfold Path.extname.
  set (component := rev (Path.chars (Path.basename path))).
  destruct (Path.dropWhile (fun c => negb (Path.isDot c)) component)
    as [|dot [|x rest]] eqn:Hd; [now left | now left|].
  destruct (String.eqb (Path.basename path) ".."); [now left|]. right.
  apply dropWhile_head in Hd. apply negb_false_iff in Hd.
  unfold Path.isDot in Hd. apply Ascii.eqb_eq in Hd. subst dot.
  exists (Path.str (rev (Path.takeWhile (fun c => negb (Path.isDot c))
                                        component))).
  split; [reflexivity|].
  unfold noDot. rewrite allChars_str, forallb_rev.
  apply (takeWhile_all (fun c => negb (Path.isDot c))).
Qed.

Lemma chosenExtension_shape originalName :
  exists e, chosenExtension originalName = String "." e /\ noDot e = true.
Proof.
  unfold chosenExtension.
  destruct (extname_shape originalName) as [->|[e [He Hn]]].
  - exists "jpg". now split.
  - rewrite He. cbn [String.eqb]. now exists e.
Qed.

Lemma lowerChar_dot c : Ascii.eqb (lowerChar c) "." = Ascii.eqb c ".".
Proof. destruct c as [[] [] [] [] [] [] [] []]; reflexivity. Qed.

Lemma noDot_toLowerCase s : noDot (toLowerCase s) = noDot s.
Proof.
  unfold noDot. induction s as [|c t IH]; [reflexivity|].
  cbn [toLowerCase allChars]. now rewrite lowerChar_dot, IH.
Qed.

Lemma toLowerCase_app (a b : string) :
  toLowerCase (a ++ b) = toLowerCase a ++ toLowerCase b.
Proof.
  induction a as [|c a IH]; [reflexivity|].
  cbn [append toLowerCase]. now rewrite IH.
Qed.

(** The test of [uploadAllMedia] on a name with a known extension. *)
Lemma isMediaFile_extension (stem e : string) :
  noDot e = true ->
  isMediaFile (stem ++ String "." e) =
  existsb (String.eqb (toLowerCase e))
          ["jpg"; "jpeg"; "png"; "gif"; "webp"; "svg"; "pdf"].
Proof.
  intros He. unfold isMediaFile.
  change (String "." e) with ("." ++ e).
  rewrite !toLowerCase_app. change (toLowerCase ".") with ".".
  cbn [append existsb].
  rewrite !endsWith_extension by (reflexivity || now rewrite noDot_toLowerCase).
  reflexivity.
Qed.

End UploadFilterFacts.

Module UploadFilterProperties.
Import JS Text MediaHandler WpImport Shapes StringFacts NameFacts MediaFacts
       FilenameFacts UploadFilterFacts.

(** X7. A file that the export saved under the name [generateFilename]
    gave it is picked up by [uploadAllMedia] on import exactly when the
    extension in that name is, up to letter case, one of [.jpg], [.jpeg],
    [.png], [.gif], [.webp], [.svg] and [.pdf]. A URL without extension
    gets [.jpg] and passes, and so does every name made of a URL that does
    not parse; a file with any other extension is downloaded but never
    uploaded. *)
Theorem generated_name_uploaded (URL_new : string -> Result URL)
                                (url : string) :
  (forall urlObj name,
     URL_new url = Ok urlObj -> generateFilename URL_new url = Ok name ->
     isMediaFile name =
     existsb (String.eqb
                (toLowerCase
                   (chosenExtension (Path.basename (pathname urlObj)))))
             [".jpg"; ".jpeg"; ".png"; ".gif"; ".webp"; ".svg"; ".pdf"])
  /\ (forall urlObj name,
        URL_new url = Ok urlObj ->
        Path.extname (Path.basename (pathname urlObj)) = "" ->
        generateFilename URL_new url = Ok name -> isMediaFile name = true)
  /\ (forall message name,
        URL_new url = Throw message ->
        generateFilename URL_new url = Ok name -> isMediaFile name = true).
Proof.
  assert (Hparsed : forall urlObj name,
     URL_new url = Ok urlObj -> generateFilename URL_new url = Ok name ->
     isMediaFile name =
     existsb (String.eqb
                (toLowerCase
                   (chosenExtension (Path.basename (pathname urlObj)))))
             [".jpg"; ".jpeg"; ".png"; ".gif"; ".webp"; ".svg"; ".pdf"]).
  { intros urlObj name Hu.
    unfold generateFilename, generateFilename_body, tryCatch. rewrite Hu.
    cbv zeta. fold (chosenExtension (Path.basename (pathname urlObj))).
    destruct (chosenExtension_shape (Path.basename (pathname urlObj)))
      as [e [-> He]].
    set (stem := substring 0 50 _). set (hash := substring 0 8 _).
    clearbody stem hash.
    intros H. injection H as <-.
    change (stem ++ String "-" (hash ++ String "." e))
      with (stem ++ String "-" hash ++ String "." e).
    rewrite <- app_assoc, isMediaFile_extension by assumption.
    cbn [toLowerCase existsb String.eqb].
    change (lowerChar ".") with "."%char.
    now rewrite !Ascii.eqb_refl. }
  split; [exact Hparsed|]. split.
  - intros urlObj name Hu Hext Hname.
    rewrite (Hparsed urlObj name Hu Hname). unfold chosenExtension.
    now rewrite Hext.
  - intros message name Hu.
    unfold generateFilename, generateFilename_body, tryCatch,
      generateFilename_handler. rewrite Hu. cbv zeta.
    set (hash := substring 0 12 _). clearbody hash.
    intros H. injection H as <-.
    exact (isMediaFile_extension ("image-" ++ hash) "jpg" eq_refl).
Qed.

End UploadFilterProperties.

(** ** Runs of the import script *)

Module RunFacts.
Import JS MediaHandler WpImport WpImportMain ImportFacts.
Local Open Scope run_scope.

Section Extends.
Variable ok : Event -> bool.

Lemma extends_only {A} (m : M A) : only ok m -> extends ok m.
Proof.
  intros H st. destruct (H st) as [added [Ht [Hf Hc]]].
  exists added. rewrite Hc. auto.
Qed.

Lemma extends_ret {A} (a : A) : extends ok (ret a).
Proof. apply extends_only, only_ret. Qed.

Lemma extends_throw {A} (message : string) : extends ok (@throw A message).
Proof. apply extends_only, only_throw. Qed.

Lemma extends_history : extends ok history.
Proof. apply extends_only, only_history. Qed.

Lemma extends_lift {A} (r : Result A) : extends ok (lift r).
Proof. apply extends_only, only_lift. Qed.

Lemma extends_emit (e : Event) : ok e = true -> extends ok (emit e).
Proof. intros H. now apply extends_only, only_emit. Qed.

Lemma extends_count : extends ok countUpload.
Proof.
  intros st. exists []. cbn. rewrite List.app_nil_r. auto.
Qed.

Lemma extends_bind {A B} (m : M A) (k : A -> M B) :
  extends ok m -> (forall a, extends ok (k a)) -> extends ok (bind m k).
Proof.
  intros Hm Hk st. unfold bind.
  destruct (Hm st) as [added1 [Ht1 [Hf1 Hc1]]].
  destruct (m st) as [[a|message] st1]; cbn [fst snd] in *.
  - destruct (Hk a st1) as [added2 [Ht2 [Hf2 Hc2]]].
    exists (added1 ++ added2)%list. rewrite Ht2, Ht1, List.app_assoc.
    split; [reflexivity|]. split; [now apply Forall_app | lia].
  - exists added1. auto.
Qed.

Lemma extends_catch {A} (m : M A) (handler : string -> M A) :
  extends ok m -> (forall message, extends ok (handler message)) ->
  extends ok (catch m handler).
Proof.
  intros Hm Hh st. unfold catch.
  destruct (Hm st) as [added1 [Ht1 [Hf1 Hc1]]].
  destruct (m st) as [[a|message] st1]; cbn [fst snd] in *.
  - exists added1. auto.
  - destruct (Hh message st1) as [added2 [Ht2 [Hf2 Hc2]]].
    exists (added1 ++ added2)%list. rewrite Ht2, Ht1, List.app_assoc.
    split; [reflexivity|]. split; [now apply Forall_app | lia].
Qed.
End Extends.

(** One step of a proof that a computation only adds events. *)
Ltac grow_step :=
  first
    [ apply extends_ret | apply extends_throw | apply extends_history
    | apply extends_lift | apply extends_count
    | apply extends_emit; reflexivity
    | apply extends_bind; [|intro]
    | apply extends_catch; [|intro]
    | match goal with
      | |- extends _ (if ?b then _ else _) => destruct b
      | |- extends _ (match ?x with _ => _ end) => destruct x
      end ].

Ltac grow := repeat grow_step.

Section Grows.
Variable env : Env.
Variable options : Options.

Lemma grows_log level message : extends anything (log level message).
Proof. unfold log. grow. Qed.

Lemma grows_pathExists path : extends anything (pathExists env path).
Proof. unfold pathExists. grow. Qed.

Lemma grows_readFile path : extends anything (readFile env path).
Proof. unfold readFile. grow. Qed.

Lemma grows_readJson path : extends anything (readJson env path).
Proof. unfold readJson. grow. Qed.

Lemma grows_readdir path : extends anything (readdir env path).
Proof. unfold readdir. grow. Qed.

Lemma grows_listFiles path extension :
  extends anything (listFiles env path extension).
Proof.
  unfold listFiles. apply extends_bind; [apply grows_pathExists|]. intros b.
  destruct (negb b); [apply extends_ret|].
  apply extends_bind; [apply grows_readdir|]. intros e. apply extends_ret.
Qed.

Lemma grows_request method endpoint body :
  extends anything (request env method endpoint body).
Proof. unfold request. grow. Qed.

Lemma grows_uploadMedia path : extends anything (uploadMedia env path).
Proof.
  unfold uploadMedia. apply extends_bind; [apply grows_readFile|].
  intros _. grow.
Qed.

Lemma grows_loadMediaMapping path :
  extends anything (loadMediaMapping env path).
Proof.
  unfold loadMediaMapping. apply extends_bind; [apply grows_pathExists|].
  intros b. destruct (negb b); [apply extends_ret|].
  apply extends_bind; [apply grows_readJson|]. intros o. apply extends_lift.
Qed.

Lemma grows_uploadEach mediaDir files mapping :
  extends anything (uploadEach env mediaDir files mapping).
Proof.
  revert mapping. induction files as [|f rest IH]; intros mapping.
  - apply extends_ret.
  - cbn [uploadEach]. apply extends_bind; [|intros m; apply IH].
    apply extends_catch.
    + apply extends_bind; [apply grows_uploadMedia|]. intros u.
      apply extends_bind; [apply extends_lift|]. intros url.
      apply extends_bind; [apply grows_log|]. intros _.
      apply extends_bind; [apply extends_count|]. intros _.
      apply extends_ret.
    + intros message. apply extends_bind; [apply grows_log|]. intros _.
      apply extends_ret.
Qed.

Lemma grows_uploadAllMedia mediaDir :
  extends anything (uploadAllMedia env mediaDir).
Proof.
  unfold uploadAllMedia. apply extends_bind; [apply grows_pathExists|].
  intros b. destruct (negb b); [apply extends_ret|].
  apply extends_bind; [apply grows_readdir|]. intros e.
  apply grows_uploadEach.
Qed.

Lemma grows_uploadAndRestore contentDir content :
  extends anything (uploadAndRestore env contentDir content).
Proof.
  unfold uploadAndRestore. cbv zeta.
  apply extends_bind; [apply grows_loadMediaMapping|]. intros m.
  destruct (0 <? List.length m)%nat; [|apply extends_ret].
  apply extends_bind; [apply grows_log|]. intros _.
  apply extends_bind; [apply grows_uploadAllMedia|]. intros mm.
  destruct (0 <? List.length mm)%nat; [|apply extends_ret].
  destruct (restoreMediaUrls content mm);
    [apply extends_ret | apply extends_throw].
Qed.

Lemma grows_readExtensions contentDir files metaToImport names :
  extends anything (readExtensions env contentDir files metaToImport names).
Proof.
  revert metaToImport names.
  induction files as [|f rest IH]; intros metaToImport names.
  - apply extends_ret.
  - cbn [readExtensions]. destruct (includes nonExtensionFiles f);
      [apply IH|].
    apply extends_bind; [apply grows_readJson|]. intros d. apply IH.
Qed.

Lemma grows_readExtensionMeta contentDir :
  extends anything (readExtensionMeta env contentDir).
Proof.
  unfold readExtensionMeta.
  apply extends_bind; [apply grows_listFiles|]. intros files.
  apply extends_bind; [apply grows_readExtensions|]. intros merged.
  cbv zeta. apply extends_bind; [apply grows_pathExists|]. intros b.
  destruct b; [|apply extends_ret].
  apply extends_bind; [apply grows_readJson|]. intros d. apply extends_ret.
Qed.

Lemma grows_pushExtensionMeta type postId metaToImport names :
  extends anything (pushExtensionMeta env type postId metaToImport names).
Proof.
  unfold pushExtensionMeta. apply extends_catch.
  - apply extends_bind; [apply grows_request|]. intros _. apply grows_log.
  - intros _. apply extends_catch.
    + apply extends_bind; [apply grows_request|]. intros _. apply grows_log.
    + intros message. apply grows_log.
Qed.

Lemma grows_importExtensionMeta contentDir postId type dry :
  extends anything (importExtensionMeta env contentDir postId type dry).
Proof.
  unfold importExtensionMeta.
  apply extends_bind; [apply grows_readExtensionMeta|]. intros merged.
  cbv zeta. destruct (Nat.eqb _ 0); [apply extends_ret|].
  destruct dry.
  - apply extends_bind; [apply grows_log|]. intros _. apply extends_ret.
  - apply extends_bind; [apply grows_pushExtensionMeta|]. intros _.
    apply extends_ret.
Qed.

Lemma grows_lookupExisting type metadata :
  extends anything (lookupExisting env type metadata).
Proof.
  unfold lookupExisting, getBySlug. apply extends_catch.
  - apply extends_bind; [apply extends_lift|]. intros slug.
    apply extends_bind; [apply grows_request|]. intros d. apply extends_lift.
  - intros _. apply extends_ret.
Qed.

Lemma grows_execute slug type contentDir action existingItem data :
  extends anything
    (execute env options slug type contentDir action existingItem data).
Proof.
  unfold execute. apply extends_bind.
  - destruct action; unfold create, update;
      try apply grows_request;
      (apply extends_bind; [apply extends_lift|]; intros id;
       apply grows_request).
  - intros result. apply extends_bind; [apply extends_lift|]. intros id.
    apply extends_bind; [apply grows_log|]. intros _.
    apply extends_bind; [apply grows_importExtensionMeta|]. intros e.
    apply extends_ret.
Qed.

Lemma grows_reconcile slug type config contentDir metadata content
      existingItem :
  extends anything
    (reconcile env options slug type config contentDir metadata content
               existingItem).
Proof.
  unfold reconcile.
  assert (H : forall action,
    extends anything
      (data <- lift (itemData type metadata content) ;;
       if dryRun options then
         log "dry-run"
             ("Would " ++ actionName action ++ " " ++ type ++ "/" ++ slug) ;;
         ret (WouldDo slug action)
       else execute env options slug type contentDir action existingItem
                    data)).
  { intros action. apply extends_bind; [apply extends_lift|]. intros data.
    destruct (dryRun options); [|apply grows_execute].
    apply extends_bind; [apply grows_log|]. intros _. apply extends_ret. }
  destruct (decideAction (importMode config) existingItem);
    [apply H | apply H | apply extends_ret].
Qed.

Lemma grows_importItem slug type config :
  extends anything (importItem env options slug type config).
Proof.
  unfold importItem. cbv zeta.
  apply extends_bind; [apply grows_log|]. intros _.
  apply extends_bind; [apply grows_pathExists|]. intros found.
  destruct (negb found); [apply extends_throw|].
  apply extends_bind; [apply grows_readJson|]. intros metadata.
  apply extends_bind.
  { apply extends_catch; [apply grows_readFile|]. intros _.
    apply extends_bind; [apply grows_log|]. intros _. apply extends_ret. }
  intros content. apply extends_bind.
  { destruct (media options && negb (dryRun options));
      [apply grows_uploadAndRestore | apply extends_ret]. }
  intros content'.
  apply extends_bind; [apply grows_lookupExisting|]. intros existingItem.
  apply grows_reconcile.
Qed.
End Grows.

End RunFacts.

(** ** The import of one item, further *)

Module ItemFacts.
Import JS MediaHandler WpImport WpImportMain ImportFacts RunFacts.
Local Open Scope run_scope.

Lemma bind_Throw {A B} (m : M A) (k : A -> M B) st message st1 :
  m st = (Throw message, st1) -> bind m k st = (Throw message, st1).
Proof. intros H. unfold bind. now rewrite H. Qed.

Lemma bind_step {A B} (m : M A) (k : A -> M B) st a st1 :
  m st = (Ok a, st1) -> bind m k st = k a st1.
Proof. intros H. unfold bind. now rewrite H. Qed.

(** The body is read or taken for empty: that step never throws. *)
Lemma readBody_total env path st :
  exists content st1,
    catch (readHtml env path)
          (fun _ =>
             log "verbose" "  No body.html found, using empty content" ;;
             ret EmptyString) st = (Ok content, st1).
Proof.
  unfold catch. destruct (readHtml env path st) as [[content|message] st1].
  - now exists content, st1.
  - eexists _, _. reflexivity.
Qed.

(** The lookup when the backend rejects the request. *)
Lemma lookupExisting_rejected env type metadata slug st message :
  getProp metadata "slug" = Ok slug ->
  server env (trace st)
    (HttpRequest "GET"
       (collectionOf type ++ "?slug=" ++ encodeURIComponent (jsToString slug))
       JUndefined) = Rejected message ->
  lookupExisting env type metadata st =
  (Ok JNull,
   mkRun (trace st
          ++ [HttpRequest "GET"
                (collectionOf type ++ "?slug="
                 ++ encodeURIComponent (jsToString slug)) JUndefined])
         (mediaUploaded st)).
Proof.
  intros Hslug Hrej. unfold lookupExisting, getBySlug, catch.
  rewrite Hslug. unfold lift at 1. rewrite bind_ret.
  unfold bind at 1. rewrite request_eq. cbv zeta. rewrite Hrej.
  reflexivity.
Qed.

Lemma itemData_total type metadata content slug :
  getProp metadata "slug" = Ok slug ->
  exists data, itemData type metadata content = Ok data.
Proof.
  intros H. unfold itemData.
  destruct (getProp metadata "title") as [title|message] eqn:Ht; [eauto|].
  exfalso. destruct metadata; cbn [getProp] in *; try discriminate.
  destruct (alist_get "title" props); discriminate.
Qed.

(** With the media block out of the way and the metadata at hand,
    [importItem] comes to the lookup having touched nothing but the two
    files. *)
Lemma importItem_prepared env options slug type config st f metadata :
  media options && negb (dryRun options) = false ->
  let contentDir := getContentDir (importDir config) type slug in
  fs env (Path.join [contentDir; "metadata.json"]) = Some (RegularFile f) ->
  json f = Some metadata ->
  exists content st5,
    importItem env options slug type config st =
    (existingItem <- lookupExisting env type metadata ;;
     reconcile env options slug type config contentDir metadata content
               existingItem) st5 /\
    mediaUploaded st5 = mediaUploaded st.
Proof.
  intros Hmedia contentDir Hf Hj.
  unfold importItem. cbv zeta. fold contentDir. rewrite Hmedia.
  unfold log at 1. rewrite bind_emit.
  unfold jsonExists, pathExists. rewrite bind_assoc, bind_emit, bind_ret.
  rewrite Hf. cbn [negb].
  unfold readJson. rewrite bind_assoc, bind_emit, Hf, Hj, bind_ret.
  cbn [trace mediaUploaded].
  match goal with
  | |- context [bind (catch ?m ?h) ?k ?s] =>
      destruct (readBody_total env (Path.join [contentDir; "body.html"]) s)
        as [content [st4 Hbody]];
      assert (Hc : mediaUploaded st4 = mediaUploaded s)
  end.
  { revert Hbody. unfold catch, readHtml, readFile, bind, emit, log, throw,
      ret. cbn [trace mediaUploaded].
    destruct (fs env (Path.join [contentDir; "body.html"]))
      as [[b|entries]|]; intros H; injection H as _ <-; reflexivity. }
  exists content, st4. split.
  - rewrite (bind_step _ _ _ _ _ Hbody), bind_ret. reflexivity.
  - exact Hc.
Qed.

(** Two computations that start alike: the second adds to the state in
    which the first one ended if its continuation does. *)
Lemma bind_same {A B} (m : M A) (k k' : A -> M B) st r st1 :
  bind m k st = (Ok r, st1) ->
  (forall a s, k a s = (Ok r, st1) ->
     exists rest,
       trace (snd (k' a s)) = (trace st1 ++ rest)%list /\
       mediaUploaded st1 <= mediaUploaded (snd (k' a s))) ->
  exists rest,
    trace (snd (bind m k' st)) = (trace st1 ++ rest)%list /\
    mediaUploaded st1 <= mediaUploaded (snd (bind m k' st)).
Proof.
  unfold bind. destruct (m st) as [[a|message] s]; [|discriminate].
  intros H HQ. now apply HQ.
Qed.

(** The goals about an object built by additions, once the conditions
    are decided. *)
Ltac decided :=
  cbn [andb alist_get alist_set String.eqb Ascii.eqb Bool.eqb];
  repeat (split;
          [ first [ reflexivity
                  | intros _; reflexivity
                  | intros v Hv;
                    first [ discriminate Hv
                          | injection Hv as <-; split; reflexivity ] ] |]);
  intros k Hk; cbn in Hk; repeat destruct Hk as [<-|Hk];
  try contradiction; cbn; auto 20.

End ItemFacts.

Module ItemProperties.
Import JS MediaHandler WpImport WpImportMain ImportFacts RunFacts ItemFacts.
Local Open Scope run_scope.

(** X8. An item whose directory has no [metadata.json] fails before
    anything else happens: [importItem] throws [metadata.json not found in]
    and the directory, having only looked for the file; it reads nothing,
    uploads nothing and makes no request, in a real run as in a dry run and
    under every mode. *)
Theorem importItem_missing_metadata env options slug type config st :
  let contentDir := getContentDir (importDir config) type slug in
  let metadataPath := Path.join [contentDir; "metadata.json"] in
  fs env metadataPath = None ->
  importItem env options slug type config st =
  (Throw ("metadata.json not found in " ++ contentDir),
   mkRun (trace st
          ++ [Log "verbose" ("Processing " ++ type ++ "/" ++ slug);
              Stat metadataPath])
         (mediaUploaded st)).
Proof.
  intros contentDir metadataPath Hfs.
  unfold importItem. cbv zeta. fold contentDir. fold metadataPath.
  unfold log. rewrite bind_emit.
  unfold jsonExists, pathExists. rewrite bind_assoc, bind_emit, bind_ret.
  rewrite Hfs. cbn [negb]. unfold throw. cbn [trace mediaUploaded].
  now rewrite <- List.app_assoc.
Qed.

(** A directory that holds nothing. *)
Lemma importItem_missing_metadata_witness :
  fst (importItem (mkEnv (fun _ => None) helloServer)
                  (mkOptions true false false) "ghost" "posts" helloConfig
                  start)
  = Throw "metadata.json not found in export/posts/ghost".
Proof.
  exact (f_equal fst
           (importItem_missing_metadata
              (mkEnv (fun _ => None) helloServer)
              (mkOptions true false false) "ghost" "posts" helloConfig start
              eq_refl)).
Defined.

(** X9. A lookup that the backend rejects counts as an item that does not
    exist. Where the media block is not run (a dry run, or [--no-media]),
    the metadata file parses and holds a slug, and the backend rejects the
    lookup, mode [update] skips the item with [not found (mode=update)],
    and modes [sync] and [create] go for a creation: a dry run returns the
    plan to create, a real run sends the [POST]. *)
Theorem rejected_lookup_is_missing env options slug type dir st f metadata
        itemSlug message :
  media options && negb (dryRun options) = false ->
  let contentDir := getContentDir dir type slug in
  let lookup :=
    HttpRequest "GET"
      (collectionOf type ++ "?slug="
       ++ encodeURIComponent (jsToString itemSlug)) JUndefined in
  fs env (Path.join [contentDir; "metadata.json"]) = Some (RegularFile f) ->
  json f = Some metadata ->
  getProp metadata "slug" = Ok itemSlug ->
  (forall past, server env past lookup = Rejected message) ->
  fst (importItem env options slug type (mkConfig dir "update") st)
    = Ok (Skipped slug "not found (mode=update)")
  /\ (forall mode, mode = "sync" \/ mode = "create" ->
      let run := importItem env options slug type (mkConfig dir mode) st in
      if dryRun options then fst run = Ok (WouldDo slug Create)
      else exists data, In (HttpRequest "POST" (collectionOf type) data)
                           (trace (snd run))).
Proof.
  intros Hmedia contentDir lookup Hf Hj Hslug Hrej.
  assert (Hrun : forall mode,
    exists content st6,
      importItem env options slug type (mkConfig dir mode) st =
      reconcile env options slug type (mkConfig dir mode) contentDir
                metadata content JNull st6).
  { intros mode.
    destruct (importItem_prepared env options slug type (mkConfig dir mode)
                st f metadata Hmedia Hf Hj) as [content [st5 [Hrun _]]].
    exists content. eexists. rewrite Hrun.
    rewrite (bind_step _ _ _ _ _
               (lookupExisting_rejected env type metadata itemSlug st5
                  message Hslug (Hrej (trace st5)))).
    reflexivity. }
  split.
  - destruct (Hrun "update") as [content [st6 ->]]. reflexivity.
  - intros mode Hmode run. subst run.
    destruct (Hrun mode) as [content [st6 ->]].
    destruct (itemData_total type metadata content itemSlug Hslug)
      as [data Hdata].
    assert (Hd : decideAction mode JNull = Create)
      by (destruct Hmode as [-> | ->]; reflexivity).
    unfold reconcile. cbn [importMode]. rewrite Hd, Hdata.
    unfold lift. rewrite bind_ret.
    destruct (dryRun options); [reflexivity|].
    exists data. unfold execute, create.
    unfold bind at 1. rewrite request_eq. cbv zeta.
    match goal with
    | |- context [server env ?h ?e] => destruct (server env h e)
    end.
    + match goal with
      | |- In _ (trace (snd (?k ?a ?s))) =>
          assert (Hg : extends anything (k a)); [|destruct (Hg s)
            as [added [-> _]]]
      end.
      { intros a0. apply extends_bind; [apply extends_lift|]. intros id.
        apply extends_bind; [apply grows_log|]. intros _.
        apply extends_bind; [apply grows_importExtensionMeta|]. intros e.
        apply extends_ret. }
      cbn [trace]. apply in_or_app. left. apply in_or_app. right.
      now left.
    + cbn [snd trace]. apply in_or_app. right. now left.
Qed.

(** The post of the example, before a backend that answers no lookup. *)
Lemma rejected_lookup_is_missing_witness :
  fst (importItem (mkEnv helloFs (fun _ _ => Rejected "API Error 503: down"))
                  (mkOptions true true false) "hello" "posts"
                  (mkConfig "export" "sync") start)
  = Ok (WouldDo "hello" Create).
Proof.
  exact (proj2 (rejected_lookup_is_missing
                  (mkEnv helloFs (fun _ _ => Rejected "API Error 503: down"))
                  (mkOptions true true false) "hello" "posts" "export" start
                  (mkFile "{...}"
                     (Some (JObj [("slug", JStr "hello");
                                  ("title", JStr "Hello");
                                  ("status", JStr "publish")])))
                  (JObj [("slug", JStr "hello"); ("title", JStr "Hello");
                         ("status", JStr "publish")])
                  (JStr "hello") "API Error 503: down"
                  eq_refl eq_refl eq_refl eq_refl (fun _ => eq_refl))
           "sync" (or_introl eq_refl)).
Defined.

(** X10. The mode is consulted last. When [importItem] returns a skipped
    item, everything it did is what a run of the same item under any other
    mode does first: the events of that run begin with those of the
    skipped one, and its upload count is no smaller. So an item skipped in
    a real run has had its media uploaded all the same. *)
Theorem skipped_after_preparation env options slug type dir mode mode' st
        skippedSlug reason st1 :
  importItem env options slug type (mkConfig dir mode) st
    = (Ok (Skipped skippedSlug reason), st1) ->
  let other := importItem env options slug type (mkConfig dir mode') st in
  exists rest,
    trace (snd other) = (trace st1 ++ rest)%list /\
    mediaUploaded st1 <= mediaUploaded (snd other).
Proof.
  intros Hrun other. subst other. revert Hrun.
  unfold importItem. cbv zeta. cbn [importDir].
  intros H. apply (bind_same _ _ _ _ _ _ H). clear H. intros _ s1 H.
  apply (bind_same _ _ _ _ _ _ H). clear H. intros found s2 H.
  destruct (negb found); [discriminate|].
  apply (bind_same _ _ _ _ _ _ H). clear H. intros metadata s3 H.
  apply (bind_same _ _ _ _ _ _ H). clear H. intros content s4 H.
  apply (bind_same _ _ _ _ _ _ H). clear H. intros content' s5 H.
  apply (bind_same _ _ _ _ _ _ H). clear H. intros existingItem s6 H.
  apply reconcile_result in H. cbv zeta in H.
  destruct H as [[_ [_ ->]] | [[_ [_ H]] | [_ [_ [id [e H]]]]]];
    [|discriminate..].
  destruct (grows_reconcile env options slug type (mkConfig dir mode')
              (getContentDir dir type slug) metadata content' existingItem
              s6) as [added [Ht [_ Hc]]].
  exists added. split; assumption.
Qed.

(** The post of the example under [update]: it is skipped, its image is
    uploaded, and the run under [sync] starts with the same events. *)
Lemma skipped_after_preparation_witness :
  let skippedRun :=
    importItem helloEnv (mkOptions true false false) "hello" "posts"
               (mkConfig "export" "update") start in
  fst skippedRun = Ok (Skipped "hello" "not found (mode=update)") /\
  mediaUploaded (snd skippedRun) = 1 /\
  exists rest,
    trace (snd (importItem helloEnv (mkOptions true false false) "hello"
                           "posts" (mkConfig "export" "sync") start))
    = (trace (snd skippedRun) ++ rest)%list.
Proof.
  cbv zeta.
  split; [vm_compute; reflexivity|]. split; [vm_compute; reflexivity|].
  destruct (skipped_after_preparation helloEnv (mkOptions true false false)
              "hello" "posts" "export" "update" "sync" start "hello"
              "not found (mode=update)"
              (snd (importItem helloEnv (mkOptions true false false) "hello"
                               "posts" (mkConfig "export" "update") start)))
    as [rest [Hrest _]].
  - vm_compute. reflexivity.
  - exists rest. exact Hrest.
Defined.

(** X13. The object that [importItem] sends on create and update has
    [title], [status] and [slug] as the metadata has them, the content it
    was given, and [excerpt] and [template] with the empty string in place
    of a missing or falsy one. A post gets [format] when the metadata has a
    truthy one and [sticky] when it has one at all; a page gets [parent]
    and [menu_order] when they are truthy. [categories] and [tags] are
    sent only for a post, as the metadata has them, and, when they are not
    objects, exactly when they have a positive length (a non-empty array
    or string). Nothing else is sent: the identifier, dates, author and
    featured image of the metadata never are. *)
Theorem itemData_fields type metadata content data :
  itemData type metadata content = Ok data ->
  let prop := fieldOf metadata in
  let posts := String.eqb type "posts" in
  let pages := String.eqb type "pages" in
  exists fields,
    data = JObj fields /\
    alist_get "title" fields = Some (prop "title") /\
    alist_get "content" fields = Some (JStr content) /\
    alist_get "status" fields = Some (prop "status") /\
    alist_get "slug" fields = Some (prop "slug") /\
    alist_get "excerpt" fields = Some (js_or (prop "excerpt") (JStr "")) /\
    alist_get "template" fields = Some (js_or (prop "template") (JStr "")) /\
    alist_get "format" fields =
      (if posts && truthy (prop "format") then Some (prop "format")
       else None) /\
    alist_get "sticky" fields =
      (if posts && isDefined (prop "sticky") then Some (prop "sticky")
       else None) /\
    alist_get "parent" fields =
      (if pages && truthy (prop "parent") then Some (prop "parent")
       else None) /\
    alist_get "menu_order" fields =
      (if pages && truthy (prop "menu_order") then Some (prop "menu_order")
       else None) /\
    (forall v, alist_get "categories" fields = Some v ->
               type = "posts" /\ v = prop "categories") /\
    ((forall props, prop "categories" <> JObj props) ->
     alist_get "categories" fields =
       if posts && hasElements (prop "categories")
       then Some (prop "categories") else None) /\
    (forall v, alist_get "tags" fields = Some v ->
               type = "posts" /\ v = prop "tags") /\
    ((forall props, prop "tags" <> JObj props) ->
     alist_get "tags" fields =
       if posts && hasElements (prop "tags") then Some (prop "tags")
       else None) /\
    (forall k, In k (keys fields) ->
       In k ["title"; "content"; "status"; "slug"; "excerpt"; "template";
             "categories"; "tags"; "format"; "sticky"; "parent";
             "menu_order"]).
Proof.
  unfold itemData.
  destruct (getProp metadata "title") as [title|message] eqn:Ht;
    [|discriminate].
  intros H. injection H as <-. cbv beta zeta.
  assert (Htitle : fieldOf metadata "title" = title)
    by (unfold fieldOf; now rewrite Ht).
  rewrite Htitle. clear Ht Htitle.
  fold (fieldOf metadata "status") (fieldOf metadata "slug")
       (fieldOf metadata "excerpt") (fieldOf metadata "template")
       (fieldOf metadata "categories") (fieldOf metadata "tags")
       (fieldOf metadata "format") (fieldOf metadata "sticky")
       (fieldOf metadata "parent") (fieldOf metadata "menu_order").
  fold (isDefined (fieldOf metadata "sticky")).
  generalize (hasElements (fieldOf metadata "categories"))
             (hasElements (fieldOf metadata "tags"))
             (truthy (fieldOf metadata "format"))
             (isDefined (fieldOf metadata "sticky"))
             (truthy (fieldOf metadata "parent"))
             (truthy (fieldOf metadata "menu_order")).
  intros cc ct cf cs cp cm. eexists. split; [reflexivity|].
  destruct (String.eqb_spec type "posts") as [->|Hposts].
  - destruct cc, ct, cf, cs; decided.
  - generalize (String.eqb type "pages"). intros pages.
    destruct pages, cp, cm; decided.
Qed.

(** A sticky post in one category and with no tag. *)
Lemma itemData_fields_witness :
  exists fields,
    itemData "posts" stickyPost "<p>Hello</p>" = Ok (JObj fields) /\
    alist_get "categories" fields = Some (JArr [JNum 3]) /\
    alist_get "tags" fields = None /\
    alist_get "sticky" fields = Some (JBool false) /\
    alist_get "id" fields = None.
Proof.
  destruct (itemData_fields "posts" stickyPost "<p>Hello</p>" _ eq_refl)
    as (fields & Hdata & _ & _ & _ & _ & _ & _ & _ & Hsticky & _ & _
        & _ & Hcategories & _ & Htags & Hkeys).
  exists fields. split; [exact (f_equal Ok Hdata)|].
  split; [|split; [|split]].
  - apply Hcategories. discriminate.
  - apply Htags. discriminate.
  - exact Hsticky.
  - destruct (alist_get "id" fields) eqn:Hid; [exfalso | reflexivity].
    assert (Hin : In "id" (keys fields)).
    { clear - Hid. induction fields as [|[a b] t IH]; [discriminate|].
      cbn [alist_get] in Hid. destruct (String.eqb_spec "id" a) as [<-|_].
      - now left.
      - right. now apply IH. }
    apply Hkeys in Hin. cbn in Hin. intuition discriminate.
Defined.

End ItemProperties.

(** ** The merge of the metadata files *)

Module MergeFacts.
Import JS MediaHandler WpImport WpImportMain AlistFacts ImportFacts RunFacts
       ItemFacts.
Local Open Scope run_scope.

Lemma alist_get_app {V} k (l m : list (string * V)) :
  alist_get k (l ++ m) =
  match alist_get k l with
  | Some v => Some v
  | None => alist_get k m
  end.
Proof.
  induction l as [|[a b] t IH]; [reflexivity|]. cbn [List.app alist_get].
  destruct (String.eqb k a); [reflexivity | exact IH].
Qed.

(** [Object.assign]: for a key other than [__proto__], the last entry of
    the source under the key wins, and a key the source lacks keeps the
    value of the target. *)
Lemma alist_get_assign {V} k (target source : list (string * V)) :
  k <> "__proto__" ->
  alist_get k (Object_assign target source) =
  match alist_get k (rev source) with
  | Some v => Some v
  | None => alist_get k target
  end.
Proof.
  intros Hk. unfold Object_assign. revert target.
  induction source as [|[a b] s IH]; intros target; [reflexivity|].
  cbn [fold_left fst snd rev]. rewrite IH, alist_get_app, alist_get_obj_set.
  destruct (alist_get k (rev s)); [reflexivity|]. cbn [alist_get].
  destruct (String.eqb_spec k a) as [<-|_]; [|reflexivity].
  now destruct (String.eqb_spec k "__proto__").
Qed.

Lemma alist_get_merged k (datas : list JsValue) (target : JsObject) :
  k <> "__proto__" ->
  alist_get k (fold_left (fun acc data => Object_assign acc (ownEntries data))
                         datas target) =
  match lookupLast k (map ownEntries datas) with
  | Some v => Some v
  | None => alist_get k target
  end.
Proof.
  intros Hk. revert target. induction datas as [|d rest IH]; intros target;
    [reflexivity|].
  cbn [fold_left map lookupLast]. rewrite IH, alist_get_assign by assumption.
  destruct (lookupLast k (map ownEntries rest)); reflexivity.
Qed.

Lemma lookupLast_app k (l m : list JsObject) :
  lookupLast k (l ++ m) =
  match lookupLast k m with
  | Some v => Some v
  | None => lookupLast k l
  end.
Proof.
  induction l as [|s t IH]; cbn [List.app lookupLast].
  - now destruct (lookupLast k m).
  - rewrite IH. now destruct (lookupLast k m).
Qed.

(** The loop over the files of the listing: the reserved names are passed
    over without a read. *)
Lemma readExtensions_listing env contentDir files datas :
  Forall2 (fun file data => holdsJson env (Path.join [contentDir; file]) data)
          (filter (fun file => negb (includes nonExtensionFiles file)) files)
          datas ->
  forall metaToImport names st,
  readExtensions env contentDir files metaToImport names st =
  (Ok (fold_left (fun acc data => Object_assign acc (ownEntries data))
                 datas metaToImport,
       (names ++ map (removeFirst ".json")
                     (filter (fun file =>
                                negb (includes nonExtensionFiles file))
                             files))%list),
   mkRun (trace st
          ++ map (fun file => ReadFile (Path.join [contentDir; file]))
                 (filter (fun file => negb (includes nonExtensionFiles file))
                         files))
         (mediaUploaded st)).
Proof.
  revert datas. induction files as [|file rest IH]; intros datas H m names st.
  - cbn [filter] in H. inversion H; subst.
    cbn [readExtensions filter map fold_left]. unfold ret.
    rewrite !List.app_nil_r. now destruct st.
  - cbn [readExtensions filter] in *.
    destruct (includes nonExtensionFiles file); cbn [negb] in *.
    + now apply IH.
    + inversion H as [|f d fs' ds [x [Hf Hj]] Hrest]; subst.
      unfold readJson. rewrite bind_assoc, bind_emit, Hf, Hj, bind_ret.
      rewrite (IH ds Hrest). cbn [trace mediaUploaded map fold_left].
      rewrite <- !List.app_assoc. reflexivity.
Qed.

End MergeFacts.

Module MergeProperties.
Import JS MediaHandler WpImport WpImportMain AlistFacts ImportFacts RunFacts
       ItemFacts MergeFacts.
Local Open Scope run_scope.

(** X14. [importExtensionMeta] merges the group files of an item in the
    order of the directory listing and the remainder file [meta.json] last:
    under each key other than [__proto__] the merged object holds the value
    of the last file that has the key, so [meta.json] wins over every group
    file; the key [__proto__] is set aside, since assigning it does not
    store it as the other keys are stored. The files [metadata.json] and
    [media-mapping.json] are not read and give no group, and the groups
    are named after the files that were merged. *)
Theorem merge_last_file_wins env contentDir entries datas remainder st :
  fs env contentDir = Some (Directory entries) ->
  Forall2 (fun file data => holdsJson env (Path.join [contentDir; file]) data)
          (groupFiles entries) datas ->
  match fs env (Path.join [contentDir; "meta.json"]) with
  | None => remainder = []
  | Some (RegularFile f) =>
      exists data, json f = Some data /\ remainder = [data]
  | Some (Directory _) => False
  end ->
  exists merged st',
    readExtensionMeta env contentDir st
      = (Ok (merged, map (removeFirst ".json") (groupFiles entries)), st') /\
    (forall key,
       key <> "__proto__" ->
       alist_get key merged
       = lookupLast key (map ownEntries (datas ++ remainder))) /\
    trace st' =
      (trace st
       ++ Stat contentDir :: ReadDir contentDir
          :: map (fun file => ReadFile (Path.join [contentDir; file]))
                 (groupFiles entries)
       ++ Stat (Path.join [contentDir; "meta.json"])
          :: map (fun _ => ReadFile (Path.join [contentDir; "meta.json"]))
                 remainder)%list.
Proof.
  intros Hdir Hfiles Hmeta.
  unfold readExtensionMeta, listFiles, pathExists.
  rewrite !bind_assoc, bind_emit, bind_ret, Hdir. cbn [negb].
  unfold readdir. rewrite !bind_assoc, bind_emit, Hdir, !bind_ret.
  fold (groupFiles entries) in *.
  unfold bind at 1.
  rewrite (readExtensions_listing env contentDir _ datas Hfiles).
  fold (groupFiles entries). cbv zeta. cbn [fst snd List.app].
  rewrite bind_assoc, bind_emit, bind_ret. cbn [trace mediaUploaded].
  destruct (fs env (Path.join [contentDir; "meta.json"]))
    as [[f|dir]|] eqn:Hm.
  - destruct Hmeta as [data [Hj ->]].
    unfold readJson. rewrite bind_assoc, bind_emit, Hm, Hj, !bind_ret.
    unfold ret. eexists _, _. split; [reflexivity|]. split.
    + intros key Hk. rewrite alist_get_assign, alist_get_merged by assumption.
      rewrite map_app, lookupLast_app. cbn [map lookupLast alist_get].
      destruct (alist_get key (rev (ownEntries data))); [reflexivity|].
      now destruct (lookupLast key (map ownEntries datas)).
    + cbn [trace map]. rewrite <- !List.app_assoc. reflexivity.
  - destruct Hmeta.
  - subst remainder. unfold ret. eexists _, _.
    split; [reflexivity|]. split.
    + intros key Hk. rewrite alist_get_merged, List.app_nil_r by assumption.
      now destruct (lookupLast key (map ownEntries datas)).
    + cbn [trace map]. rewrite <- !List.app_assoc. reflexivity.
Qed.

(** The page of the example: [title] is in both group files and [desc] in
    a group file and in [meta.json]. *)
Lemma merge_last_file_wins_witness :
  exists merged,
    fst (readExtensionMeta (mkEnv aboutFs helloServer) "export/pages/about"
                           start)
      = Ok (merged, ["seo"; "acf"]) /\
    alist_get "title" merged = Some (JStr "C") /\
    alist_get "desc" merged = Some (JStr "D").
Proof.
  destruct (merge_last_file_wins
              (mkEnv aboutFs helloServer) "export/pages/about"
              [("metadata.json", true); ("seo.json", true);
               ("acf.json", true); ("meta.json", true); ("media", false)]
              [JObj [("title", JStr "A"); ("desc", JStr "B")];
               JObj [("title", JStr "C")]]
              [JObj [("desc", JStr "D")]] start)
    as [merged [st' [Hrun [Hget _]]]].
  - reflexivity.
  - repeat constructor; eexists; split; reflexivity.
  - cbn. eexists. split; reflexivity.
  - exists merged. rewrite Hrun, !Hget by discriminate. repeat split.
Defined.

End MergeProperties.

(** ** The upload of the media of an item *)

Module UploadFacts.
Import JS MediaHandler WpImport WpImportMain AlistFacts ImportFacts RunFacts
       ItemFacts.
Local Open Scope run_scope.

Ltac listed := repeat (apply Forall_cons; [eauto|]); apply Forall_nil.

Ltac run :=
  repeat (progress (unfold catch, uploadMedia, readFile, bind, emit,
                      history, log, countUpload, lift, ret, throw;
                    cbn [trace mediaUploaded];
                    rewrite <- ?List.app_assoc; cbn [List.app])).

(** One turn of the loop of [uploadAllMedia]. *)
Lemma upload_step env mediaDir filename (mapping : Mapping) st :
  exists mapping' st' added,
    catch
      (uploaded <- uploadMedia env (Path.join [mediaDir; filename]) ;;
       url <- lift (getProp uploaded "source_url") ;;
       log "verbose" ("    Uploaded: " ++ filename) ;;
       countUpload ;;
       ret (alist_set filename (jsToString url) mapping))
      (fun message =>
         log "verbose" ("    Failed: " ++ filename ++ " - " ++ message) ;;
         ret mapping) st = (Ok mapping', st') /\
    (forall k, In k (keys mapping') -> k = filename \/ In k (keys mapping)) /\
    trace st' = (trace st ++ added)%list /\
    uploadEvents (Path.join [mediaDir; filename]) added /\
    mediaUploaded st <= mediaUploaded st' <= S (mediaUploaded st).
Proof.
  set (path := Path.join [mediaDir; filename]).
  assert (Hdone : forall (m : Mapping) (later : list Event) n,
    Forall (fun e => e = MediaUpload path \/
                     exists message, e = Log "verbose" message) later ->
    mediaUploaded st <= n <= S (mediaUploaded st) ->
    (forall k, In k (keys m) -> k = filename \/ In k (keys mapping)) ->
    exists mapping' st' added,
      (Ok m, mkRun (trace st ++ ReadFile path :: later) n)
        = (Ok mapping', st') /\
      (forall k, In k (keys mapping') ->
                 k = filename \/ In k (keys mapping)) /\
      trace st' = (trace st ++ added)%list /\
      uploadEvents path added /\
      mediaUploaded st <= mediaUploaded st' <= S (mediaUploaded st)).
  { intros m later n Hl Hn Hk.
    exists m, (mkRun (trace st ++ ReadFile path :: later) n),
      (ReadFile path :: later).
    split; [reflexivity|]. split; [exact Hk|]. split; [reflexivity|].
    split; [now exists later | exact Hn]. }
  run. destruct (fs env path) as [[f|entries]|]; run.
  - destruct (server env _ (MediaUpload path)) as [data|message]; run.
    + destruct (getProp data "source_url") as [url|message]; run.
      * apply Hdone; [listed | lia|].
        intros k Hk. now apply in_keys_set in Hk.
      * apply Hdone; [listed | lia | auto].
    + apply Hdone; [listed | lia | auto].
  - apply Hdone; [listed | lia | auto].
  - apply Hdone; [listed | lia | auto].
Qed.

(** The loop: every file is tried, in order, and nothing else is
    uploaded. *)
Lemma uploadEach_spec env mediaDir files :
  forall (mapping : Mapping) st,
  exists mapping' st' added,
    uploadEach env mediaDir files mapping st = (Ok mapping', st') /\
    (forall k, In k (keys mapping') -> In k files \/ In k (keys mapping)) /\
    trace st' = (trace st ++ added)%list /\
    (forall f, In f files -> In (ReadFile (Path.join [mediaDir; f])) added) /\
    (forall p, In (MediaUpload p) added ->
               exists f, In f files /\ p = Path.join [mediaDir; f]) /\
    mediaUploaded st <= mediaUploaded st'
      <= mediaUploaded st + List.length files.
Proof.
  induction files as [|f rest IH]; intros mapping st.
  - exists mapping, st, []. cbn [uploadEach List.length].
    rewrite List.app_nil_r. unfold ret.
    repeat split; auto; try lia; intros x [].
  - cbn [uploadEach].
    destruct (upload_step env mediaDir f mapping st)
      as [m1 [st1 [added1 [Hstep [Hk1 [Ht1 [[later [-> Hl]] Hc1]]]]]]].
    rewrite (bind_step _ _ _ _ _ Hstep).
    destruct (IH m1 st1)
      as [m2 [st2 [added2 [Hrest [Hk2 [Ht2 [Hr2 [Hu2 Hc2]]]]]]]].
    exists m2, st2, ((ReadFile (Path.join [mediaDir; f]) :: later)
                     ++ added2)%list.
    split; [exact Hrest|]. split.
    { intros k Hk. destruct (Hk2 k Hk) as [H|H]; [left; now right|].
      destruct (Hk1 k H) as [->|H']; [left; now left | now right]. }
    split; [now rewrite Ht2, Ht1, List.app_assoc|]. split.
    { intros x [<-|Hx]; [now left|].
      apply in_or_app. right. now apply Hr2. }
    split.
    { intros p Hp. apply in_app_or in Hp as [[Hp|Hp]|Hp].
      - discriminate.
      - rewrite Forall_forall in Hl. destruct (Hl _ Hp) as [H|[m H]].
        + injection H as ->. exists f. split; [now left | reflexivity].
        + discriminate.
      - destruct (Hu2 p Hp) as [x [Hx ->]]. exists x.
        split; [now right | reflexivity]. }
    cbn [List.length]. lia.
Qed.

End UploadFacts.

Module UploadProperties.
Import JS MediaHandler WpImport WpImportMain AlistFacts ImportFacts RunFacts
       ItemFacts UploadFacts.
Local Open Scope run_scope.

(** X11. [uploadAllMedia] does not fail on a media directory that is
    missing or that lists its files: a missing directory gives the empty
    mapping after one look, and otherwise every listed name with a media
    extension is tried, a file that cannot be read or that the backend
    refuses being passed over. The mapping names only such
    files, nothing but them is uploaded, and the upload counter goes up by
    at most their number. *)
Theorem uploadAllMedia_robust env mediaDir st :
  (fs env mediaDir = None ->
   uploadAllMedia env mediaDir st =
   (Ok [], mkRun (trace st ++ [Stat mediaDir]) (mediaUploaded st)))
  /\ (forall entries,
        fs env mediaDir = Some (Directory entries) ->
        let mediaFiles := filter isMediaFile (map fst entries) in
        exists mapping st' added,
          uploadAllMedia env mediaDir st = (Ok mapping, st') /\
          (forall k, In k (keys mapping) -> In k mediaFiles) /\
          trace st' = (trace st ++ Stat mediaDir :: ReadDir mediaDir :: added)%list /\
          (forall f, In f mediaFiles ->
                     In (ReadFile (Path.join [mediaDir; f])) added) /\
          (forall p, In (MediaUpload p) added ->
                     exists f, In f mediaFiles /\
                               p = Path.join [mediaDir; f]) /\
          mediaUploaded st <= mediaUploaded st'
            <= mediaUploaded st + List.length mediaFiles).
Proof.
  split.
  - intros Hfs. unfold uploadAllMedia, pathExists.
    rewrite bind_assoc, bind_emit, bind_ret, Hfs. reflexivity.
  - intros entries Hfs mediaFiles.
    unfold uploadAllMedia, pathExists.
    rewrite bind_assoc, bind_emit, bind_ret, Hfs. cbn [negb].
    unfold readdir. rewrite bind_assoc, bind_emit, Hfs, bind_ret.
    cbn [trace mediaUploaded]. fold mediaFiles.
    match goal with
    | |- context [uploadEach env mediaDir mediaFiles [] ?s] =>
        destruct (uploadEach_spec env mediaDir mediaFiles [] s)
          as [m [st' [added [Hrun [Hk [Ht [Hr [Hu Hc]]]]]]]]
    end.
    exists m, st', added. split; [exact Hrun|]. split.
    { intros k Hin. destruct (Hk k Hin) as [H|[]]. exact H. }
    split.
    { rewrite Ht. cbn [trace]. rewrite <- !List.app_assoc. reflexivity. }
    split; [exact Hr|]. split; [exact Hu|]. exact Hc.
Qed.

(** X12. The media block of [importItem] uploads only when the item has a
    mapping file with at least one entry. Without the file, or with one
    that holds the empty object, it leaves the content as it is and does
    not even look at the media directory, whatever that holds. *)
Theorem no_mapping_no_upload env contentDir content st :
  let mappingPath := Path.join [contentDir; "media-mapping.json"] in
  (fs env mappingPath = None ->
   uploadAndRestore env contentDir content st =
   (Ok content, mkRun (trace st ++ [Stat mappingPath]) (mediaUploaded st)))
  /\ (forall f,
        fs env mappingPath = Some (RegularFile f) ->
        json f = Some (JObj []) ->
        uploadAndRestore env contentDir content st =
        (Ok content,
         mkRun (trace st ++ [Stat mappingPath; ReadFile mappingPath])
               (mediaUploaded st))).
Proof.
  intros mappingPath. split.
  - intros Hfs. unfold uploadAndRestore, loadMediaMapping, pathExists.
    cbv zeta. fold mappingPath.
    rewrite !bind_assoc, bind_emit, bind_ret, Hfs. reflexivity.
  - intros f Hfs Hj. unfold uploadAndRestore, loadMediaMapping, pathExists.
    cbv zeta. fold mappingPath.
    rewrite !bind_assoc, bind_emit, bind_ret, Hfs. cbn [negb].
    unfold readJson. rewrite !bind_assoc, bind_emit, Hfs, Hj, bind_ret.
    cbn [Object_entries ownEntries lift]. rewrite bind_ret.
    cbn [List.length Nat.ltb Nat.leb trace mediaUploaded].
    unfold ret. now rewrite <- List.app_assoc.
Qed.

End UploadProperties.

(** ** The loops of [main] *)

Module BatchFacts.
Import JS MediaHandler WpImport WpImportMain AlistFacts ImportFacts RunFacts.
Local Open Scope run_scope.

Lemma tally_total r c : total (tally r c) = S (total c).
Proof.
  unfold tally, total.
  destruct (_ || _); [cbn; lia|]. destruct (_ || _); cbn; lia.
Qed.

Lemma tally_grows r c :
  created c <= created (tally r c) /\ updated c <= updated (tally r c) /\
  skipped c <= skipped (tally r c) /\ failed (tally r c) = failed c.
Proof.
  unfold tally.
  destruct (_ || _); [cbn; lia|]. destruct (_ || _); cbn; lia.
Qed.

Lemma noteExtensions_incl r seen : incl seen (noteExtensions r seen).
Proof.
  destruct r as [| |slug action id found]; cbn [noteExtensions];
    try apply incl_refl.
  revert seen. induction found as [|ext rest IH]; intros seen;
    [apply incl_refl|].
  cbn [fold_left]. intros x Hx. apply IH, in_set_add. now right.
Qed.

(** The loop ends, whatever the items do, and counts each slug once. *)
Lemma importEach_counts env options type config slugs :
  forall counts seen st,
  exists counts' seen' st',
    importEach env options type config slugs counts seen st
      = (Ok (counts', seen'), st') /\
    total counts' = total counts + List.length slugs /\
    created counts <= created counts' /\
    updated counts <= updated counts' /\
    skipped counts <= skipped counts' /\
    failed counts <= failed counts' /\
    incl seen seen'.
Proof.
  induction slugs as [|slug rest IH]; intros counts seen st.
  - exists counts, seen, st. cbn [importEach List.length]. unfold ret.
    repeat split; try lia. apply incl_refl.
  - cbn [importEach]. unfold bind at 1. unfold catch. unfold bind at 1.
    destruct (importItem env options slug type config st) as [[r|msg] st1].
    + unfold ret at 1. cbn [fst snd].
      destruct (IH (tally r counts) (noteExtensions r seen) st1)
        as (c & s & st' & Hrun & Ht & Hc & Hu & Hs & Hf & Hi).
      exists c, s, st'. rewrite Hrun, Ht, tally_total.
      destruct (tally_grows r counts) as (Gc & Gu & Gs & Gf).
      cbn [List.length]. repeat split; try lia.
      intros x Hx. apply Hi, noteExtensions_incl, Hx.
    + unfold log. rewrite bind_emit. unfold ret at 1. cbn [fst snd].
      match goal with
      | |- context [importEach _ _ _ _ rest ?c ?s ?t] =>
          destruct (IH c s t)
            as (c' & s' & st' & Hrun & Ht & Hc & Hu & Hs & Hf & Hi)
      end.
      exists c', s', st'. rewrite Hrun, Ht. unfold oneFailed, total in *.
      cbn [created updated skipped failed List.length] in *.
      repeat split; try lia. exact Hi.
Qed.

Section DryLoops.
Variable env : Env.
Variable options : Options.
Hypothesis Hdry : dryRun options = true.

Lemma readOnly_readdir path : only readOnly (readdir env path).
Proof.
  unfold readdir. apply only_bind; [now apply only_emit|]. intros _.
  destruct (fs env path) as [[f|entries]|];
    [apply only_throw | apply only_ret | apply only_throw].
Qed.

Lemma readOnly_listSubdirs path : only readOnly (listSubdirs env path).
Proof.
  unfold listSubdirs.
  apply only_bind; [apply readOnly_pathExists|]. intros found.
  apply only_if; [apply only_ret|].
  apply only_bind; [apply readOnly_readdir | intros; apply only_ret].
Qed.

Lemma readOnly_importEach type config slugs :
  forall counts seen,
  only readOnly (importEach env options type config slugs counts seen).
Proof.
  induction slugs as [|slug rest IH]; intros counts seen;
    cbn [importEach]; [apply only_ret|].
  apply only_bind; [|intros next; apply IH].
  apply only_catch.
  - apply only_bind; [now apply readOnly_importItem|].
    intros r. apply only_ret.
  - intros message.
    apply only_bind; [apply readOnly_log | intros _; apply only_ret].
Qed.

Lemma readOnly_importType type config counts seen :
  only readOnly (importType env options type config counts seen).
Proof.
  unfold importType.
  apply only_bind; [apply readOnly_log|]. intros _.
  apply only_bind; [apply readOnly_listSubdirs|]. intros slugs.
  apply only_if.
  - apply only_bind; [apply readOnly_log | intros _; apply only_ret].
  - apply only_bind; [apply readOnly_log|]. intros _.
    apply readOnly_importEach.
Qed.

Lemma readOnly_importContent contentType config stats :
  only readOnly (importContent env options contentType config stats).
Proof.
  unfold importContent. apply only_bind.
  - apply only_if; [|apply only_ret].
    apply only_bind; [apply readOnly_importType|]. intros done.
    apply only_ret.
  - intros afterPosts. apply only_if; [|apply only_ret].
    apply only_bind; [apply readOnly_importType|]. intros done.
    apply only_ret.
Qed.

End DryLoops.

End BatchFacts.

Module BatchProperties.
Import JS MediaHandler WpImport WpImportMain AlistFacts ImportFacts RunFacts
       BatchFacts.
Local Open Scope run_scope.

(** X15. The block of [main] for one content type counts every
    subdirectory of the type's directory exactly once: whatever the items
    do, also when they throw, the block returns, the four counters
    [created], [updated], [skipped] and [failed] together grow by the
    number of subdirectories, none of them goes down, and no extension
    name seen before is lost. Regular files in the directory are not
    counted. *)
Theorem importType_counts_directories env options type config counts seen st
                                     entries :
  fs env (Path.join [importDir config; type]) = Some (Directory entries) ->
  exists counts' seen' st',
    importType env options type config counts seen st
      = (Ok (counts', seen'), st') /\
    total counts'
      = total counts
        + List.length (filter (fun entry => negb (snd entry)) entries) /\
    created counts <= created counts' /\
    updated counts <= updated counts' /\
    skipped counts <= skipped counts' /\
    failed counts <= failed counts' /\
    incl seen seen'.
Proof.
  intros Hdir. unfold importType, log, listSubdirs, pathExists, readdir.
  rewrite bind_emit, !bind_assoc, bind_emit, bind_ret, Hdir. cbn [negb].
  rewrite !bind_assoc, bind_emit, !bind_ret.
  rewrite length_map.
  destruct (filter (fun entry => negb (snd entry)) entries)
    as [|entry others] eqn:Hsub.
  - cbn [map List.length Nat.eqb]. rewrite bind_emit. unfold ret.
    eexists _, _, _. split; [reflexivity|].
    repeat split; try lia. apply incl_refl.
  - cbn [List.length Nat.eqb]. rewrite bind_emit.
    match goal with
    | |- context [importEach _ _ _ _ ?slugs ?c ?s ?t] =>
        destruct (importEach_counts env options type config slugs c s t)
          as (c' & s' & st' & Hrun & Ht & Hrest)
    end.
    exists c', s', st'. rewrite Hrun, Ht, length_map. cbn [List.length].
    split; [reflexivity|]. split; [reflexivity | exact Hrest].
Qed.

(** The directory of the example has one page and one stray file. *)
Lemma importType_counts_directories_witness :
  exists counts' seen' st',
    importType (mkEnv siteFs helloServer) (mkOptions true false false)
               "pages" helloConfig noCounts [] start
      = (Ok (counts', seen'), st') /\
    total counts' = 1.
Proof.
  destruct (importType_counts_directories
              (mkEnv siteFs helloServer) (mkOptions true false false)
              "pages" helloConfig noCounts [] start
              [("about", false); ("notes.txt", true)] eq_refl)
    as (c & s & st' & Hrun & Ht & _).
  exists c, s, st'. split; [exact Hrun | exact Ht].
Defined.

(** X16. In a dry run the two blocks of [main], over all posts and pages,
    change nothing: every request they send is a [GET], no media file is
    uploaded, and the counter of uploaded media stays as it was, also for
    items that fail. *)
Theorem dry_batch_changes_nothing env options contentType config stats st :
  dryRun options = true ->
  let run := importContent env options contentType config stats st in
  exists added,
    trace (snd run) = (trace st ++ added)%list /\
    Forall (fun e => isMutation e = false) added /\
    mediaUploaded (snd run) = mediaUploaded st.
Proof.
  intros Hdry run.
  destruct (readOnly_importContent env options Hdry contentType config stats
                                   st) as (added & Htrace & Hok & Hcount).
  exists added. split; [exact Htrace|]. split; [|exact Hcount].
  eapply Forall_impl; [|exact Hok].
  intros e He. unfold readOnly in He. now apply negb_true_iff in He.
Qed.

Lemma dry_batch_changes_nothing_witness :
  exists added,
    trace (snd (importContent helloEnv (mkOptions true true false) "all"
                              helloConfig (mkStats noCounts noCounts [])
                              start))
      = (trace start ++ added)%list /\
    Forall (fun e => isMutation e = false) added /\
    mediaUploaded
      (snd (importContent helloEnv (mkOptions true true false) "all"
                          helloConfig (mkStats noCounts noCounts []) start))
      = mediaUploaded start.
Proof.
  exact (dry_batch_changes_nothing helloEnv (mkOptions true true false) "all"
           helloConfig (mkStats noCounts noCounts []) start eq_refl).
Defined.

End BatchProperties.

(** ** The grouping of the site options *)

Module OptionFacts.
Import JS WpExport WpExportOptions AlistFacts SortFacts.

Lemma stored_assignOption p key value st k v s :
  (forall v' s', ~ stored (groupedOptions st) key v' s') ->
  stored (groupedOptions (assignOption p key value st)) k v s <->
  stored (groupedOptions st) k v s
  \/ (k = key /\ v = value /\ s = slug p /\ key <> "__proto__").
Proof.
  intros Hfresh. unfold stored, assignOption; cbn [groupedOptions].
  rewrite alist_get_update.
  destruct (String.eqb_spec s (slug p)) as [->|Hs].
  - destruct (alist_has (slug p) (groupedOptions st)) eqn:Hhas.
    + unfold alist_has in Hhas.
      destruct (alist_get (slug p) (groupedOptions st)) as [g0|] eqn:Hg;
        [|discriminate].
      cbn [option_map]. split.
      * intros [grp [[= <-] Hget]]. cbn [options] in Hget.
        rewrite alist_get_obj_set in Hget.
        destruct (String.eqb_spec k key) as [->|Hk]; cbn [andb] in Hget;
          [|left; eauto].
        destruct (String.eqb_spec key "__proto__") as [Hp|Hp];
          cbn [negb] in Hget; [left; eauto|].
        injection Hget as <-. right. auto.
      * intros [[grp [[= <-] Hget]]|[-> [-> [_ Hp]]]].
        -- eexists; split; [reflexivity|]. cbn [options].
           rewrite alist_get_obj_set.
           destruct (String.eqb_spec k key) as [->|Hk]; [|assumption].
           exfalso. apply (Hfresh v (slug p)). unfold stored. eauto.
        -- eexists; split; [reflexivity|]. cbn [options].
           rewrite alist_get_obj_set, String.eqb_refl.
           now destruct (String.eqb_spec key "__proto__").
    + apply alist_has_get in Hhas. rewrite alist_get_set, String.eqb_refl.
      cbn [option_map]. rewrite Hhas. split.
      * intros [grp [[= <-] Hget]]. cbn [options] in Hget.
        rewrite alist_get_obj_set in Hget. cbn [alist_get] in Hget.
        destruct (String.eqb_spec k key) as [->|Hk]; cbn [andb] in Hget;
          [|discriminate].
        destruct (String.eqb_spec key "__proto__") as [Hp|Hp];
          cbn [negb] in Hget; [discriminate|].
        injection Hget as <-. right. auto.
      * intros [[grp [[=] _]]|[-> [-> [_ Hp]]]].
        eexists; split; [reflexivity|]. cbn [options].
        rewrite alist_get_obj_set, String.eqb_refl.
        now destruct (String.eqb_spec key "__proto__").
  - destruct (alist_has (slug p) (groupedOptions st)).
    + split; [now left|]. intros [H|[_ [_ [H _]]]]; [assumption|contradiction].
    + rewrite alist_get_set.
      destruct (String.eqb_spec s (slug p)); [contradiction|].
      split; [now left|]. intros [H|[_ [_ [H _]]]]; [assumption|contradiction].
Qed.

Lemma assigned_assignOption p key value st k :
  In k (assignedOptions (assignOption p key value st)) <->
  k = key \/ In k (assignedOptions st).
Proof. unfold assignOption; cbn [assignedOptions]. apply in_set_add. Qed.

(** On a key not yet assigned, the loop over the sorted plugins stops at
    the first plugin with a matching prefix. *)
Lemma tryOwners_first key value ps st :
  ~ In key (assignedOptions st) ->
  tryOwners key value ps st =
  match firstOwner ps key with
  | Some p => assignOption p key value st
  | None => st
  end.
Proof.
  intros Hfresh. apply set_has_not_in in Hfresh. unfold firstOwner.
  induction ps as [|p rest IH]; cbn [tryOwners find]; [reflexivity|].
  destruct (ownsOption key p) eqn:Hm.
  - assert (H : set_has key (assignedOptions (assignOption p key value st))
                = true).
    { apply set_has_in, assigned_assignOption. now left. }
    now rewrite H.
  - now rewrite Hfresh.
Qed.

Lemma groupLoop_spec sorted entries :
  forall st,
  NoDup (keys entries) ->
  (forall k, In k (assignedOptions st) -> ~ In k (keys entries)) ->
  (forall k v s, stored (groupedOptions st) k v s ->
                 ~ In k (keys entries)) ->
  let st' := fold_left (groupOne sorted) entries st in
  forall k v s, stored (groupedOptions st') k v s <->
                stored (groupedOptions st) k v s
                \/ grouping sorted entries k v s.
Proof.
  induction entries as [|[key value] rest IH]; intros st Hnd Ha Hs.
  - cbn [fold_left]. intros k v s. unfold grouping. split; [now left|].
    intros [H|[[] _]]. assumption.
  - inversion Hnd as [|? ? Hnot Hnd']; subst.
    assert (Hfresh : ~ In key (assignedOptions st)).
    { intros H. apply (Ha _ H). now left. }
    assert (Hnew : forall v' s', ~ stored (groupedOptions st) key v' s').
    { intros v' s' H. apply (Hs _ _ _ H). now left. }
    cbn [fold_left]. cbv zeta.
    set (st1 := groupOne sorted st (key, value)).
    assert (Hst1 : st1 = if isEmpty value then st
                         else match firstOwner sorted key with
                              | Some p => assignOption p key value st
                              | None => st
                              end).
    { subst st1. unfold groupOne. destruct (isEmpty value); [reflexivity|].
      now apply tryOwners_first. }
    assert (Hh : forall k v s,
              stored (groupedOptions st1) k v s <->
              stored (groupedOptions st) k v s \/
              (k = key /\ v = value /\ isEmpty value = false /\
               key <> "__proto__" /\
               exists p, firstOwner sorted key = Some p /\ s = slug p)).
    { intros k v s. rewrite Hst1. destruct (isEmpty value).
      - split; [now left|]. intros [H|[_ [_ [[=] _]]]]. assumption.
      - destruct (firstOwner sorted key) as [p|].
        + rewrite (stored_assignOption _ _ _ _ _ _ _ Hnew). split.
          * intros [H|[-> [-> [-> Hp]]]]; [now left|]. right. eauto 8.
          * intros [H|[-> [-> [_ [Hp [q [[= <-] ->]]]]]]]; auto.
        + split; [now left|]. intros [H|[_ [_ [_ [_ [q [[=] _]]]]]]].
          assumption. }
    assert (Hk : forall k, In k (assignedOptions st1) ->
                           In k (assignedOptions st) \/ k = key).
    { intros k. rewrite Hst1. destruct (isEmpty value); [now left|].
      destruct (firstOwner sorted key); [|now left].
      rewrite assigned_assignOption. tauto. }
    specialize (IH st1 Hnd').
    assert (IH' := fun A B => IH A B).
    cbv zeta in IH'.
    intros k v s. rewrite IH'.
    + rewrite Hh. unfold grouping. cbn [In]. split.
      * intros [[H|[-> [-> [He Hp]]]]|[Hin H]].
        -- now left.
        -- right. split; [now left | auto].
        -- right. split; [now right | assumption].
      * intros [H|[[[= -> ->]|Hin] [He Hp]]].
        -- now left; left.
        -- left. right. auto.
        -- right. auto.
    + intros k' Hk' Hin. apply Hk in Hk' as [Hk'| ->].
      * apply (Ha _ Hk'). now right.
      * contradiction.
    + intros k' v' s' Hst Hin. apply Hh in Hst as [Hst|[-> _]].
      * apply (Hs _ _ _ Hst). now right.
      * contradiction.
Qed.

(** The loop from the empty map. *)
Lemma groupOptionsByPlugin_stored (allOptions : JsObject) plugins :
  NoDup (keys allOptions) ->
  forall key value s,
  stored (groupOptionsByPlugin allOptions plugins) key value s <->
  In (key, value) allOptions /\ isEmpty value = false /\
  key <> "__proto__" /\
  exists p, firstOwner (sortedPlugins plugins) key = Some p /\ s = slug p.
Proof.
  intros Hnd key value s. unfold groupOptionsByPlugin.
  pose proof (groupLoop_spec (sortedPlugins plugins) allOptions
                             (mkGrouping [] []) Hnd) as H.
  cbv zeta in H. rewrite H.
  - unfold grouping. split; [|now right].
    intros [[grp [[=] _]]|Hg]. exact Hg.
  - intros k [].
  - intros k v s' [grp [[=] _]].
Qed.

Lemma firstOwner_longest plugins key p :
  firstOwner (sortedPlugins plugins) key = Some p ->
  In p plugins /\ ownsOption key p = true /\
  forall q, In q plugins -> ownsOption key q = true -> longestFirst p q.
Proof.
  intros Hf.
  destruct (find_sorted (ownsOption key) (sortedPlugins plugins) p
                        (sortedPlugins_sorted plugins) Hf)
    as [Hin [Hm Hall]].
  pose proof (sortedPlugins_perm plugins) as Hperm.
  split; [eapply Permutation_in; [symmetry; exact Hperm | exact Hin]|].
  split; [exact Hm|].
  intros q Hq Hmq. apply Hall; [|exact Hmq].
  eapply Permutation_in; [exact Hperm | exact Hq].
Qed.

Lemma firstOwner_none plugins key :
  firstOwner (sortedPlugins plugins) key = None <->
  forall p, In p plugins -> ownsOption key p = false.
Proof.
  unfold firstOwner. split.
  - intros H p Hp. apply (find_none _ _ H).
    eapply Permutation_in; [apply sortedPlugins_perm | exact Hp].
  - intros H.
    destruct (find (ownsOption key) (sortedPlugins plugins)) as [p|] eqn:Hf;
      [|reflexivity].
    apply find_some in Hf as [Hin Hm].
    rewrite (H p) in Hm; [discriminate|].
    eapply Permutation_in; [symmetry; apply sortedPlugins_perm | exact Hin].
Qed.

End OptionFacts.

Module OptionProperties.
Import JS WpExport WpExportOptions AlistFacts SortFacts OptionFacts.

(** X17. [groupOptionsByPlugin] stores an option in exactly one place: the
    group of the first descriptor, in the order of the longest prefix,
    that has a prefix [p] with the key equal to [p] or starting with [p]
    and an underscore or a hyphen. The group holds the option's own value;
    an option whose value is empty, or that no descriptor matches, or
    whose key is [__proto__] (which an assignment does not store), is in
    no group; and the descriptor that gets the option has a longest prefix
    at least as long as that of any other descriptor matching it. *)
Theorem options_go_to_first_owner (allOptions : JsObject)
                                  (plugins : list Plugin) :
  NoDup (keys allOptions) ->
  let grouped := groupOptionsByPlugin allOptions plugins in
  let sorted := sortedPlugins plugins in
  (forall key value s,
     stored grouped key value s <->
     In (key, value) allOptions /\ isEmpty value = false /\
     key <> "__proto__" /\
     exists p, firstOwner sorted key = Some p /\ s = slug p)
  /\ (forall key p, firstOwner sorted key = Some p ->
        In p plugins /\ ownsOption key p = true /\
        forall q, In q plugins -> ownsOption key q = true ->
                  longestFirst p q)
  /\ (forall key, firstOwner sorted key = None <->
        forall p, In p plugins -> ownsOption key p = false).
Proof.
  intros Hnd grouped sorted. split; [|split].
  - apply groupOptionsByPlugin_stored, Hnd.
  - intros key p. apply firstOwner_longest.
  - intros key. apply firstOwner_none.
Qed.

(** Of the options of the example, [seo_pro_license] goes to [seo-pro],
    the first descriptor that matches it, and [_seo_hidden], [blogname] and the empty
    [seo_empty] go nowhere. *)
Lemma options_go_to_first_owner_witness :
  stored (groupOptionsByPlugin siteOptions [seo; seoPro])
         "seo_pro_license" (JStr "k") "seo-pro"
  /\ stored (groupOptionsByPlugin siteOptions [seo; seoPro])
            "seo-title" (JStr "t") "seo"
  /\ firstOwner (sortedPlugins [seo; seoPro]) "seo_pro_license" = Some seoPro
  /\ firstOwner (sortedPlugins [seo; seoPro]) "_seo_hidden" = None
  /\ firstOwner (sortedPlugins [seo; seoPro]) "blogname" = None.
Proof.
  assert (Hnd : NoDup (keys siteOptions)).
  { repeat constructor; cbn; intuition discriminate. }
  destruct (options_go_to_first_owner siteOptions [seo; seoPro] Hnd)
    as [Hstored _].
  split; [|split; [|split; [|split]]].
  - apply Hstored. split; [cbn; tauto|]. split; [reflexivity|].
    split; [discriminate|]. exists seoPro. split; reflexivity.
  - apply Hstored. split; [cbn; tauto|]. split; [reflexivity|].
    split; [discriminate|]. exists seo. split; reflexivity.
  - reflexivity.
  - reflexivity.
  - reflexivity.
Defined.

End OptionProperties.

(** ** The prefixes of a plugin *)

Module PrefixFacts.
Import JS MediaHandler WpExport WpExportOptions WpExportPrefixes AlistFacts
       StringFacts.

Lemma NoDup_set_add k s : NoDup s -> NoDup (set_add k s).
Proof.
  intros Hnd. unfold set_add. destruct (set_has k s) eqn:Hk; [assumption|].
  apply set_has_not_in in Hk. apply NoDup_app; [assumption | |].
  - constructor; [intros [] | constructor].
  - intros x Hx [<-|[]]. contradiction.
Qed.

Lemma NoDup_fold_set_add vs : forall s,
  NoDup s -> NoDup (fold_left (fun set v => set_add v set) vs s).
Proof.
  induction vs as [|v rest IH]; intros s Hs; [assumption|].
  cbn [fold_left]. now apply IH, NoDup_set_add.
Qed.

Lemma in_fold_set_add x vs : forall s,
  In x (fold_left (fun set v => set_add v set) vs s) <-> In x s \/ In x vs.
Proof.
  induction vs as [|v rest IH]; intros s; cbn [fold_left In]; [tauto|].
  rewrite IH, in_set_add. intuition.
Qed.

(** The goals about a set built by additions under conditions. *)
Ltac addition :=
  repeat match goal with
         | |- NoDup [] => constructor
         | |- NoDup (set_add _ _) => apply NoDup_set_add
         | |- NoDup (if ?c then _ else _) => destruct c
         | |- NoDup (match ?x with Some _ => _ | None => _ end) => destruct x
         | |- NoDup (match ?x with [] => _ | _ :: _ => _ end) => destruct x
         | |- In _ (if ?c then _ else _) => destruct c
         | |- In _ (match ?x with Some _ => _ | None => _ end) => destruct x
         | |- In _ (match ?x with [] => _ | _ :: _ => _ end) => destruct x
         | |- In _ (set_add _ _) =>
             apply in_set_add; first [left; reflexivity | right]
         end.

Lemma known_not_inherited slug :
  In slug inheritedNames -> alist_get slug knownVariations = None.
Proof.
  intros H. cbn in H.
  repeat destruct H as [<-|H]; try reflexivity. destruct H.
Qed.

(** The set after the last addition, before the known variations. *)
Lemma generatePrefixesFromSlug_base slug textDomain :
  exists base,
    generatePrefixesFromSlug slug textDomain =
      match alist_get slug knownVariations with
      | Some variations =>
          Ok (fold_left (fun set variation => set_add variation set)
                        variations base)
      | None =>
          if includes inheritedNames slug then
            Throw "knownVariations[slug] is not iterable"
          else Ok base
      end /\
    NoDup base /\ In slug base /\ In (replaceChar "-" "_" slug) base /\
    forall domain, textDomain = Some domain -> domain <> "" ->
                   In domain base /\ In (replaceChar "-" "_" domain) base.
Proof.
  unfold generatePrefixesFromSlug. cbv zeta.
  eexists. split; [reflexivity|].
  split; [addition|]. split; [addition|]. split; [addition|].
  intros domain -> Hne.
  destruct (String.eqb_spec domain "") as [|_]; [contradiction|].
  destruct (String.eqb_spec domain slug) as [->|_]; cbn [negb andb];
    split; addition.
Qed.

Lemma generatePrefixesFromSlug_ok slug textDomain generated :
  generatePrefixesFromSlug slug textDomain = Ok generated ->
  NoDup generated /\ In slug generated /\
  In (replaceChar "-" "_" slug) generated /\
  (forall domain, textDomain = Some domain -> domain <> "" ->
     In domain generated /\ In (replaceChar "-" "_" domain) generated) /\
  (forall variations variation,
     alist_get slug knownVariations = Some variations ->
     In variation variations -> In variation generated).
Proof.
  destruct (generatePrefixesFromSlug_base slug textDomain)
    as (base & -> & Hnd & Hs & Hu & Hd).
  destruct (alist_get slug knownVariations) as [variations|].
  - intros [= <-]. split; [now apply NoDup_fold_set_add|].
    rewrite !in_fold_set_add. split; [now left|]. split; [now left|]. split.
    + intros domain H1 H2. rewrite !in_fold_set_add.
      destruct (Hd domain H1 H2). split; now left.
    + intros vs v [= <-] Hv. apply in_fold_set_add. now right.
  - destruct (includes inheritedNames slug); [discriminate|].
    intros [= <-]. repeat split; try assumption; try (now apply Hd).
    intros vs v [=].
Qed.

Lemma generatePrefixesFromSlug_throw slug textDomain :
  (exists message, generatePrefixesFromSlug slug textDomain = Throw message)
  <-> In slug inheritedNames.
Proof.
  destruct (generatePrefixesFromSlug_base slug textDomain)
    as (base & -> & _). split.
  - intros [message H].
    destruct (alist_get slug knownVariations); [discriminate|].
    destruct (includes inheritedNames slug) eqn:Hi; [|discriminate].
    now apply includes_in.
  - intros H. rewrite (known_not_inherited _ H).
    apply includes_in in H. rewrite H. eauto.
Qed.

(** A key that starts with a prefix of the descriptor and a separator. *)
Lemma ownsOption_prefix key p prefix :
  In prefix (prefixes p) -> optionMatches key prefix = true ->
  ownsOption key p = true.
Proof.
  intros Hin Hm. unfold ownsOption. apply existsb_exists. eauto.
Qed.

End PrefixFacts.

Module PrefixProperties.
Import JS MediaHandler WpExport WpExportOptions WpExportPrefixes AlistFacts
       StringFacts OptionFacts PrefixFacts.

(** X18. [generatePrefixesFromSlug] throws exactly for a slug that names a
    member of [Object.prototype] ([constructor], [toString], [__proto__]
    and the like): the lookup in the table of known variations finds the
    inherited member and the loop cannot iterate it. For every other slug
    it returns a list without duplicates that has the slug itself, the
    slug with underscores for hyphens, a text domain that is not empty in
    both spellings, and every known variation of the slug. *)
Theorem generated_prefixes slug textDomain :
  ((exists message, generatePrefixesFromSlug slug textDomain = Throw message)
   <-> In slug inheritedNames)
  /\ forall generated,
       generatePrefixesFromSlug slug textDomain = Ok generated ->
       NoDup generated /\ In slug generated /\
       In (replaceChar "-" "_" slug) generated /\
       (forall domain, textDomain = Some domain -> domain <> "" ->
          In domain generated /\ In (replaceChar "-" "_" domain) generated) /\
       (forall variations variation,
          alist_get slug knownVariations = Some variations ->
          In variation variations -> In variation generated).
Proof.
  split.
  - apply generatePrefixesFromSlug_throw.
  - apply generatePrefixesFromSlug_ok.
Qed.

(** X19. The generated prefixes and the grouping of the options fit: an
    option with a value whose key is the slug of an installed plugin, as it
    is or with underscores for hyphens, alone or followed by an underscore
    or a hyphen and more, and is not the key [__proto__], is exported in
    the group of a plugin that matches the key, and that plugin's longest
    prefix is at least as long as that of the plugin named in the key. *)
Theorem own_options_are_grouped (allOptions : JsObject) plugins p textDomain
                                key value :
  NoDup (keys allOptions) ->
  In p plugins ->
  generatePrefixesFromSlug (slug p) textDomain = Ok (prefixes p) ->
  In (key, value) allOptions ->
  isEmpty value = false ->
  key <> "__proto__" ->
  optionMatches key (slug p) = true
  \/ optionMatches key (replaceChar "-" "_" (slug p)) = true ->
  exists q,
    stored (groupOptionsByPlugin allOptions plugins) key value (slug q) /\
    In q plugins /\ ownsOption key q = true /\ longestFirst q p.
Proof.
  intros Hnd Hp Hgen Hin Hval Hproto Hkey.
  destruct (generatePrefixesFromSlug_ok _ _ _ Hgen) as (_ & Hs & Hu & _).
  assert (Hown : ownsOption key p = true).
  { destruct Hkey as [H|H];
      [exact (ownsOption_prefix _ _ _ Hs H)
      | exact (ownsOption_prefix _ _ _ Hu H)]. }
  destruct (firstOwner (sortedPlugins plugins) key) as [q|] eqn:Hf.
  - destruct (firstOwner_longest _ _ _ Hf) as (Hq & Hm & Hall).
    exists q. split; [|auto].
    apply groupOptionsByPlugin_stored; [assumption|]. eauto 7.
  - rewrite (proj1 (firstOwner_none plugins key) Hf p Hp) in Hown.
    discriminate.
Qed.

Lemma own_options_are_grouped_witness :
  exists q,
    stored (groupOptionsByPlugin formOptions [seo; contactForm7])
           "contact_form_7_version" (JStr "5.8") (slug q) /\
    In q [seo; contactForm7] /\
    ownsOption "contact_form_7_version" q = true /\
    longestFirst q contactForm7.
Proof.
  apply (own_options_are_grouped formOptions [seo; contactForm7] contactForm7
           None "contact_form_7_version" (JStr "5.8")).
  - repeat constructor; cbn; intuition discriminate.
  - cbn. tauto.
  - reflexivity.
  - cbn. tauto.
  - reflexivity.
  - discriminate.
  - right. reflexivity.
Defined.

End PrefixProperties.
